(** * CoolPUp: the pileup aggregation engine of [coolpup.py]

    A shallow embedding of the aggregation and normalisation code of
    [coolpup.py], and the properties of it that its specification states.

    Conventions of the embedding:
    - Python and numpy integers are [Z] (bin indices stay far below 2^63);
      the coordinates of the loci files are int64 and become float64 where
      [get_mids] divides them, with the wrap-around and the rounding written
      out;
    - [np.float64] is Rocq's primitive binary64 [float], so that NaN and
      the infinities behave as they do in numpy;
    - a 1-D array is a list, a 2-D array is a list of rows;
    - an exception is a value of [exn]; code that may raise returns
      [result A]; code that also reads the contact matrix runs in the
      monad [M], which logs every read as an [event];
    - a generator is the list of items it yields, followed by the
      exception (if any) it raises when asked for the next item;
    - libraries the program calls but does not define (cooler, scipy.sparse,
      mirnylib.numutils.zoomArray, np.nanmean, ...) are the fields of the
      class [Backend]. *)

From Stdlib Require Import String QArith Qround.
From Stdlib Require Import ZArith List Lia Bool.
From Stdlib Require Import Floats Uint63.
Import ListNotations.

Local Open Scope Z_scope.

(** ** Exceptions, results and logged effects *)

Inductive exn : Type :=
| ValueError
| IndexError
| KeyError
| AssertionError
| TypeError
| NotImplementedError.

Definition result (A : Type) : Type := (exn + A)%type.

Definition rbind {A B : Type} (r : result A) (f : A -> result B) : result B :=
  match r with
  | inl e => inl e
  | inr a => f a
  end.

(** A read of one chromosome's contact matrix:
    [c.matrix(sparse=True, balance=...).fetch(chrom)]. *)
Inductive event : Type :=
| LoadData (chrom : string) (balance : bool).

Definition M (A : Type) : Type := (list event * result A)%type.

Definition ret {A : Type} (a : A) : M A := ([], inr a).
Definition raise {A : Type} (e : exn) : M A := ([], inl e).
Definition emit (ev : event) : M unit := ([ev], inr tt).
Definition lift {A : Type} (r : result A) : M A := ([], r).

Definition bind {A B : Type} (m : M A) (f : A -> M B) : M B :=
  match m with
  | (t, inl e) => (t, inl e)
  | (t, inr a) => let '(t', r) := f a in (t ++ t', r)
  end.

Declare Scope pileup_scope.
Delimit Scope pileup_scope with pileup.
Notation "x <- m ;; k" := (bind m (fun x => k))
  (at level 61, m at next level, right associativity) : pileup_scope.
Notation "' p <- m ;; k" := (bind m (fun x => let 'p := x in k))
  (at level 61, p pattern, m at next level, right associativity) : pileup_scope.
Notation "x <~ r ;; k" := (rbind r (fun x => k))
  (at level 61, r at next level, right associativity) : pileup_scope.
Notation "' p <~ r ;; k" := (rbind r (fun x => let 'p := x in k))
  (at level 61, p pattern, r at next level, right associativity) : pileup_scope.

Definition trace_of {A : Type} (m : M A) : list event := fst m.
Definition outcome {A : Type} (m : M A) : result A := snd m.

(** ** Python sequences *)

Section PySeq.
Context {A : Type}.
Variable dflt : A.

(** [slice.indices(n)] for one bound, step 1: a negative bound counts
    from the end, and the bound is clipped to [0, n]. *)
Definition clip_index (n : nat) (i : Z) : nat :=
  let len := Z.of_nat n in
  Z.to_nat (if i <? 0 then Z.max 0 (i + len) else Z.min i len).

(** [l[lo:hi]] *)
Definition py_slice (l : list A) (lo hi : Z) : list A :=
  let a := clip_index (length l) lo in
  let b := clip_index (length l) hi in
  firstn (b - a) (skipn a l).

(** [l[i:]] for [i >= 0] *)
Definition py_from (l : list A) (i : nat) : list A := skipn i l.

(** [l[i::-1]] for [i >= 0]: items [i], [i-1], ..., [0]. *)
Definition py_downfrom (l : list A) (i : nat) : list A := rev (firstn (S i) l).

(** [np.pad(x, (m, 0), mode='constant')] *)
Definition pad_constant_left (zero : A) (m : nat) (x : list A) : list A :=
  repeat zero m ++ x.

(** Index in [x] (of length [n]) of the item that reflective padding
    puts [k] places to the left of [x[0]]: the array is mirrored about
    its edges without repeating them, with period [2 (n - 1)]. *)
Definition reflect_index (n k : nat) : nat :=
  if (n =? 1)%nat then 0%nat
  else
    let p := (2 * (n - 1))%nat in
    let j := (k mod p)%nat in
    if (j <? n)%nat then j else (p - j)%nat.

(** [np.pad(x, (m, 0), mode='reflect')]; numpy refuses to extend an empty
    axis in this mode. *)
Definition pad_reflect_left (m : nat) (x : list A) : result (list A) :=
  match x with
  | [] => if (m =? 0)%nat then inr [] else inl ValueError
  | _ :: _ =>
      inr (map (fun k => nth (reflect_index (length x) k) x dflt)
               (rev (seq 1 m)) ++ x)
  end.

(** [scipy.linalg.toeplitz(c, r)]: first column [c], first row [r]
    (where they disagree on the corner, [c[0]] wins). *)
Definition toeplitz (c r : list A) : list (list A) :=
  map (fun a =>
         map (fun b => if (b <=? a)%nat then nth (a - b) c dflt
                       else nth (b - a) r dflt)
             (seq 0 (length r)))
      (seq 0 (length c)).

(** Entry [(i, j)] of a 2-D array. *)
Definition entry (m : list (list A)) (i j : nat) : A := nth j (nth i m []) dflt.

(** [m.shape] of a 2-D array held as a list of rows. *)
Definition shape (m : list (list A)) : nat * nat :=
  (length m, length (hd [] m)).
End PySeq.

(** ** numpy arrays of float64 *)

Definition vec : Type := list float.
Definition mat : Type := list (list float).

Definition fzero : float := 0%float.
Definition float_max : float := 0x1.fffffffffffffp+1023%float.

(** A non-negative count converted to float64. *)
Definition float_of_Z (z : Z) : float :=
  if z <? 0 then (- PrimFloat.of_uint63 (Uint63.of_Z (- z)))%float
  else PrimFloat.of_uint63 (Uint63.of_Z z).

(** [np.nan_to_num]: NaN becomes 0, the infinities become the largest
    finite floats of their sign. *)
Definition nan_to_num (x : float) : float :=
  if is_nan x then fzero
  else if (x =? infinity)%float then float_max
  else if (x =? neg_infinity)%float then (- float_max)%float
  else x.

Definition zeros (n : nat) : vec := repeat fzero n.
Definition zeros2 (h w : nat) : mat := repeat (zeros w) h.

(** ** ExpectedMatrixBuilder: [get_expected_matrix] *)

Definition get_expected_matrix (left_interval right_interval : Z * Z)
    (expected : vec) (local : bool) : result mat :=
  let '(lo_left, hi_left) := left_interval in
  let '(lo_right, hi_right) := right_interval in
  let exp_lo := lo_right - hi_left + 1 in
  let exp_hi := hi_right - lo_left in
  if exp_lo <? 0 then
    let exp_subset := py_slice expected 0 exp_hi in
    (exp_subset <~ (if local
                    then pad_reflect_left fzero (Z.to_nat (- exp_lo)) exp_subset
                    else inr (pad_constant_left fzero (Z.to_nat (- exp_lo)) exp_subset)) ;;
     let i := (length exp_subset / 2)%nat in
     inr (toeplitz fzero (py_downfrom exp_subset i) (py_from exp_subset i)))%pileup
  else
    let exp_subset := py_slice expected exp_lo exp_hi in
    let i := (length exp_subset / 2)%nat in
    inr (toeplitz fzero (py_downfrom exp_subset i) (py_from exp_subset i)).

(** ** Elementwise numpy operations *)

Fixpoint map2 {A B C : Type} (f : A -> B -> C) (a : list A) (b : list B) : list C :=
  match a, b with
  | x :: a', y :: b' => f x y :: map2 f a' b'
  | _, _ => []
  end.

(** Broadcasting of one axis to length [n]: equal lengths, or length 1
    repeated; anything else is refused by numpy. *)
Definition broadcast_axis {A : Type} (n : nat) (l : list A) : result (list A) :=
  if (length l =? n)%nat then inr l
  else match l with
       | [x] => inr (repeat x n)
       | _ => inl ValueError
       end.

Fixpoint collect {A : Type} (l : list (result A)) : result (list A) :=
  match l with
  | [] => inr []
  | r :: l' => (x <~ r ;; xs <~ collect l' ;; inr (x :: xs))%pileup
  end.

(** [a += b] on 1-D arrays. *)
Definition vadd_into (a b : vec) : result vec :=
  (b' <~ broadcast_axis (length a) b ;; inr (map2 PrimFloat.add a b'))%pileup.

(** [a += b] on 2-D arrays. *)
Definition madd_into (a b : mat) : result mat :=
  (rows <~ collect (map (broadcast_axis (snd (shape a))) b) ;;
   rows' <~ broadcast_axis (fst (shape a)) rows ;;
   inr (map2 (map2 PrimFloat.add) a rows'))%pileup.

(** [a /= b] on 2-D arrays. *)
Definition mdiv_into (a b : mat) : result mat :=
  (rows <~ collect (map (broadcast_axis (snd (shape a))) b) ;;
   rows' <~ broadcast_axis (fst (shape a)) rows ;;
   inr (map2 (map2 PrimFloat.div) a rows'))%pileup.

(** [a /= x] for a scalar [x]. *)
Definition mdiv_scalar (a : mat) (x : float) : mat :=
  map (map (fun y => (y / x)%float)) a.

(** [np.sum(arrays, axis=0)] over a non-empty sequence of equally shaped
    arrays: the arrays are added in order, starting from the first. *)
Definition shape_eqb {A B : Type} (a : list (list A)) (b : list (list B)) : bool :=
  (fst (shape a) =? fst (shape b))%nat && (snd (shape a) =? snd (shape b))%nat.

Fixpoint msum_from (acc : mat) (l : list mat) : result mat :=
  match l with
  | [] => inr acc
  | m :: l' =>
      if shape_eqb acc m then msum_from (map2 (map2 PrimFloat.add) acc m) l'
      else inl ValueError
  end.

Definition msum (l : list mat) : result mat :=
  match l with
  | [] => inl ValueError
  | m :: l' => msum_from m l'
  end.

Fixpoint vsum_from (acc : vec) (l : list vec) : result vec :=
  match l with
  | [] => inr acc
  | v :: l' =>
      if (length acc =? length v)%nat then vsum_from (map2 PrimFloat.add acc v) l'
      else inl ValueError
  end.

Definition vsum (l : list vec) : result vec :=
  match l with
  | [] => inl ValueError
  | v :: l' => vsum_from v l'
  end.

(** [np.outer(a, b)] *)
Definition outer (a b : vec) : mat :=
  map (fun x => map (fun y => (x * y)%float) b) a.

(** [np.pad(m, [(y, 0), (0, x)], 'constant')]: [y] rows of zeros on top,
    [x] columns of zeros on the right; negative widths are refused. *)
Definition pad2_top_right (m : mat) (y x : Z) : result mat :=
  if (y <? 0) || (x <? 0) then inl ValueError
  else
    let width := (snd (shape m) + Z.to_nat x)%nat in
    inr (repeat (zeros width) (Z.to_nat y) ++ map (fun row => row ++ zeros (Z.to_nat x)) m).

(** [np.pad(v, (before, after), 'constant')] *)
Definition pad1 (v : vec) (before after : Z) : result vec :=
  if (before <? 0) || (after <? 0) then inl ValueError
  else inr (zeros (Z.to_nat before) ++ v ++ zeros (Z.to_nat after)).

(** [np.zeros((s, s))] and [np.zeros(s)] for an integer [s]. *)
Definition np_zeros2 (s : Z) : result mat :=
  if s <? 0 then inl ValueError else inr (zeros2 (Z.to_nat s) (Z.to_nat s)).

Definition np_zeros (s : Z) : result vec :=
  if s <? 0 then inl ValueError else inr (zeros (Z.to_nat s)).

Definition msize (m : mat) : nat := (fst (shape m) * snd (shape m))%nat.

(** ** External collaborators

    What the program calls and does not define: the contact-matrix store
    (cooler), scipy's sparse matrices, mirnylib's [zoomArray], numpy's
    [nanmean], and float rounding of the rescaling pad. *)

Class Backend : Type := {
  (** a scipy sparse matrix *)
  sparse : Type;
  (** [c.matrix(sparse=True, balance=b).fetch(chrom)] *)
  fetch : string -> bool -> result sparse;
  (** [sparse.triu(data, 2)] *)
  triu2 : sparse -> sparse;
  (** [data[r0:r1, c0:c1].toarray()] *)
  submatrix : sparse -> Z -> Z -> Z -> Z -> result mat;
  (** [np.ravel(np.sum(data, axis=k))] *)
  axis_sum : sparse -> nat -> vec;
  (** [numutils.zoomArray(m, (s, s))] *)
  zoomArray2 : mat -> Z -> mat;
  (** [numutils.zoomArray(v, (s,))] *)
  zoomArray1 : vec -> Z -> vec;
  (** [np.nanmean(m)] *)
  nanmean : mat -> float;
  (** [int(round(rescale_pad*2*p))] *)
  round_scaled : float -> Z -> Z;
  (** [c.binsize] *)
  binsize : Z
}.

(** ** Window descriptors and generators *)

Record window : Type := mkWindow {
  stBin : Z;
  endBin : Z;
  stPad : Z;
  endPad : Z
}.

(** A finite generator: the items it yields and, if it ends by raising,
    the exception raised when the next item is requested. *)
Definition gen (A : Type) : Type := (list A * option exn)%type.

(** ** CoordinateConverter output: the loci tables *)

Record locus : Type := mkLocus {
  chr : string;
  Mids : Z;
  (** [widths/2], an integer or a half-integer *)
  Pad : Q
}.

Record locus_pair : Type := mkLocusPair {
  chr1 : string;
  Mids1 : Z;
  Pad1 : Q;
  chr2 : string;
  Mids2 : Z;
  Pad2 : Q
}.

Inductive table : Type :=
| Loci (rows : list locus)
| Pairs (rows : list locus_pair).

Definition len (mids : table) : nat :=
  match mids with
  | Loci rows => length rows
  | Pairs rows => length rows
  end.

(** [x // res] for a float column [x] and a positive integer [res]. *)
Definition floordiv_Q (x : Q) (res : Z) : Z := Qfloor (x / inject_Z res).

(** [int(round(d / 2))] for an integer [d]: Python 3 rounds halves to even. *)
Definition round_half (d : Z) : Z :=
  let q := d / 2 in
  if Z.even d then q else if Z.even q then q else q + 1.

(** [itertools.combinations(l, 2)] *)
Fixpoint combinations2 {A : Type} (l : list A) : list (A * A) :=
  match l with
  | [] => []
  | x :: t => map (pair x) t ++ combinations2 t
  end.

(** ** WindowEnumerator: [get_combinations] and [get_positions_pairs] *)

Definition anchor_t : Type := (string * Z * Z)%type.

Definition get_combinations (mids : list locus) (res : Z) (local : bool)
    (anchor : option anchor_t) : gen window :=
  match local, anchor with
  | true, Some _ => ([], Some ValueError)
  | _, _ =>
      let m := map (fun r => Mids r / res) mids in
      let p := map (fun r => floordiv_Q (Pad r) res) mids in
      if local then
        (map (fun ip => mkWindow (fst ip) (fst ip) (snd ip) (snd ip)) (combine m p), None)
      else
        match anchor with
        | Some (_, a1, a2) =>
            let anchor_bin := (a1 + a2) / (2 * res) in
            let anchor_pad := round_half (a2 - a1) in
            (map (fun ip => mkWindow anchor_bin (fst ip) anchor_pad (snd ip)) (combine m p),
             None)
        | None =>
            (map (fun ij => mkWindow (fst (fst ij)) (snd (fst ij))
                                     (fst (snd ij)) (snd (snd ij)))
                 (combine (combinations2 m) (combinations2 p)), None)
        end
  end.

Definition get_positions_pairs (mids : list locus_pair) (res : Z) : gen window :=
  (map (fun r => mkWindow (Mids1 r / res) (Mids2 r / res)
                          (floordiv_Q (Pad1 r) res) (floordiv_Q (Pad2 r) res)) mids,
   None).

(** ** ControlShifter: [controlRegions]

    The random source is an oracle [rnd]: its [k]-th raw output serves the
    [k]-th call of [np.random]. *)

Definition rng : Type := nat -> Z.

(** [np.random.randint(lo, hi)], for [lo < hi]. *)
Definition randint (rnd : rng) (k : nat) (lo hi : Z) : Z := lo + (rnd k) mod (hi - lo).

(** [np.random.random()]: a multiple of [2^-53] in [[0, 1)]. *)
Definition random (rnd : rng) (k : nat) : float :=
  (PrimFloat.of_uint63 (Uint63.of_Z ((rnd k) mod 9007199254740992)) / 9007199254740992)%float.

(** [np.sign(x).astype(int)] for a float that is not NaN. *)
Definition sign_int (x : float) : Z :=
  if (x <? 0)%float then -1 else if (0 <? x)%float then 1 else 0.

(** The [nshifts] control windows drawn for one window, from call [k] on. *)
Fixpoint shifted_copies (rnd : rng) (minbin maxbin : Z) (w : window)
    (count k : nat) : list window :=
  match count with
  | O => []
  | S count' =>
      let shift := randint rnd k minbin maxbin in
      let sign := sign_int (random rnd (S k) - 0.5)%float in
      let shift := shift * sign in
      mkWindow (stBin w + shift) (endBin w + shift) (stPad w) (endPad w)
        :: shifted_copies rnd minbin maxbin w count' (S (S k))
  end.

Fixpoint shifted_all (rnd : rng) (minbin maxbin : Z) (ws : list window)
    (count k : nat) : list window :=
  match ws with
  | [] => []
  | w :: ws' =>
      shifted_copies rnd minbin maxbin w count k
        ++ shifted_all rnd minbin maxbin ws' count (k + 2 * count)%nat
  end.

Definition controlRegions (rnd : rng) (midcombs : gen window) (res : Z)
    (minshift maxshift nshifts : Z) : gen window :=
  let minbin := minshift / res in
  let maxbin := maxshift / res in
  let count := Z.to_nat nshifts in
  match fst midcombs, count with
  | _ :: _, S _ =>
      if maxbin <=? minbin then ([], Some ValueError)
      else (shifted_all rnd minbin maxbin (fst midcombs) count 0, snd midcombs)
  | _, _ => ([], snd midcombs)
  end.

(** ** Module-level state read by the functions below *)

Record globals : Type := mkGlobals {
  g_mindist : Z;
  (** [None] stands for [np.inf] *)
  g_maxdist : option Z;
  g_combinations : bool
}.

(** The accumulator of one chromosome: [(mymap, n, cov_start, cov_end)]. *)
Definition pile : Type := (mat * Z * vec * vec)%type.

Section Engine.
Context {B : Backend}.
Variable g : globals.

Definition make_outmap (pad : Z) (rescale : bool) (rescale_size : Z) : result mat :=
  if rescale then np_zeros2 rescale_size else np_zeros2 (2 * pad + 1).

(** ** WindowExtractor and Accumulator: the loop of [_do_pileups] *)

(** [if stBin > endBin: stBin, stPad, endBin, endPad = endBin, endPad, stBin, stPad] *)
Definition orient (w : window) : window :=
  if endBin w <? stBin w
  then mkWindow (endBin w) (stBin w) (endPad w) (stPad w)
  else w.

Definition effective_pads (pad : Z) (rescale : bool) (rescale_pad : float)
    (w : window) : Z * Z :=
  if rescale
  then (stPad w + round_scaled rescale_pad (stPad w),
        endPad w + round_scaled rescale_pad (endPad w))
  else (pad, pad).

(** [((lo_left, hi_left), (lo_right, hi_right))] of an oriented window. *)
Definition intervals (pad : Z) (rescale : bool) (rescale_pad : float)
    (w : window) : (Z * Z) * (Z * Z) :=
  let '(sp, ep) := effective_pads pad rescale rescale_pad w in
  ((stBin w - sp, stBin w + sp + 1), (endBin w - ep, endBin w + ep + 1)).

(** [mindist <= abs(endBin - stBin)*c.binsize < maxdist or local] *)
Definition passes_filter (local : bool) (w : window) : bool :=
  let d := Z.abs (endBin w - stBin w) * binsize in
  ((g_mindist g <=? d) &&
   match g_maxdist g with Some mx => d <? mx | None => true end)
  || local.

(** The submatrix of one window; [None] when the window is skipped by
    [continue]. *)
Definition extract (data : option sparse) (expected : option vec) (local : bool)
    (iv : (Z * Z) * (Z * Z)) : result (option mat) :=
  let '((lo_left, hi_left), (lo_right, hi_right)) := iv in
  match expected with
  | None =>
      match data with
      | None => inl TypeError
      | Some d =>
          match submatrix d lo_left hi_left lo_right hi_right with
          | inl IndexError | inl ValueError => inr None
          | inl e => inl e
          | inr m => inr (Some (map (map nan_to_num) m))
          end
      end
  | Some e =>
      (m <~ get_expected_matrix (lo_left, hi_left) (lo_right, hi_right) e local ;;
       inr (Some m))%pileup
  end.

(** Bring the extracted block to the shape of [mymap]: zero padding when
    not rescaling, resampling when rescaling. *)
Definition fit (mymap newmap : mat) (rescale : bool) (rescale_size : Z) : result mat :=
  (newmap <~ (if negb (shape_eqb newmap mymap) && negb rescale then
                let '(height, width) := shape newmap in
                let '(h, w) := shape mymap in
                let x := Z.of_nat w - Z.of_nat width in
                let y := Z.of_nat h - Z.of_nat height in
                pad2_top_right newmap y x
              else inr newmap) ;;
   if rescale then
     if (msize newmap =? 0)%nat then np_zeros2 rescale_size
     else inr (zoomArray2 newmap rescale_size)
   else inr newmap)%pileup.

(** The coverage slices of one window, brought to the length of the
    accumulators. *)
Definition coverage_slices (mymap : mat) (coverage : option vec)
    (rescale : bool) (rescale_size : Z) (iv : (Z * Z) * (Z * Z)) : result (vec * vec) :=
  let '((lo_left, hi_left), (lo_right, hi_right)) := iv in
  match coverage with
  | None => inl TypeError
  | Some cov =>
      let new_cov_start := py_slice cov lo_left hi_left in
      let new_cov_end := py_slice cov lo_right hi_right in
      if rescale then
        (new_cov_start <~ (if (length new_cov_start =? 0)%nat
                           then np_zeros rescale_size else inr new_cov_start) ;;
         new_cov_end <~ (if (length new_cov_end =? 0)%nat
                         then np_zeros rescale_size else inr new_cov_end) ;;
         inr (zoomArray1 new_cov_start rescale_size,
              zoomArray1 new_cov_end rescale_size))%pileup
      else
        let l := Z.of_nat (length new_cov_start) in
        let r := Z.of_nat (length new_cov_end) in
        match pad1 new_cov_start (Z.of_nat (fst (shape mymap)) - l) 0 with
        | inl _ => inr (new_cov_start, new_cov_end)
        | inr padded_start =>
            match pad1 new_cov_end 0 (Z.of_nat (snd (shape mymap)) - r) with
            | inl _ => inr (padded_start, new_cov_end)
            | inr padded_end => inr (padded_start, padded_end)
            end
        end
  end.

(** One iteration of the loop. *)
Definition do_window (data : option sparse) (pad : Z) (expected : option vec)
    (local unbalanced cov_norm rescale : bool) (rescale_pad : float)
    (rescale_size : Z) (coverage : option vec) (st : pile) (w : window) : result pile :=
  let '(mymap, n, cov_start, cov_end) := st in
  let w := orient w in
  let iv := intervals pad rescale rescale_pad w in
  if passes_filter local w then
    (found <~ extract data expected local iv ;;
     match found with
     | None => inr st
     | Some newmap =>
         newmap <~ fit mymap newmap rescale rescale_size ;;
         mymap <~ madd_into mymap (map (map nan_to_num) newmap) ;;
         if unbalanced && cov_norm && (match expected with None => true | Some _ => false end)
         then
           '(new_cov_start, new_cov_end)
              <~ coverage_slices mymap coverage rescale rescale_size iv ;;
           cov_start <~ vadd_into cov_start (map nan_to_num new_cov_start) ;;
           cov_end <~ vadd_into cov_end (map nan_to_num new_cov_end) ;;
           inr (mymap, n + 1, cov_start, cov_end)
         else inr (mymap, n + 1, cov_start, cov_end)
     end)%pileup
  else inr st.

Fixpoint loop_windows (step : pile -> window -> result pile) (st : pile)
    (ws : list window) : result pile :=
  match ws with
  | [] => inr st
  | w :: ws' => (st' <~ step st w ;; loop_windows step st' ws')%pileup
  end.

Definition _do_pileups (mids : gen window) (data : option sparse) (pad : Z)
    (expected : option vec) (local unbalanced cov_norm rescale : bool)
    (rescale_pad : float) (rescale_size : Z) (coverage : option vec) : result pile :=
  (mymap <~ make_outmap pad rescale rescale_size ;;
   let cov_start := zeros (fst (shape mymap)) in
   let cov_end := zeros (snd (shape mymap)) in
   st <~ loop_windows
           (do_window data pad expected local unbalanced cov_norm rescale
                      rescale_pad rescale_size coverage)
           (mymap, 0, cov_start, cov_end) (fst mids) ;;
   match snd mids with
   | Some e => inl e
   | None => inr st
   end)%pileup.
End Engine.

(** ** The keyword arguments shared by [pileups] and [pileupsWithControl] *)

Record config : Type := mkConfig {
  pad : Z;
  local : bool;
  minshift : Z;
  maxshift : Z;
  nshifts : Z;
  (** [False], or the rows [(chrom, balanced.avg)] of the expected table *)
  expected : option (list (string * float));
  combinations : bool;
  anchor : option anchor_t;
  unbalanced : bool;
  cov_norm : bool;
  rescale : bool;
  rescale_pad : float;
  rescale_size : Z
}.

Definition with_expected (e : option (list (string * float))) (cfg : config) : config :=
  mkConfig (pad cfg) (local cfg) (minshift cfg) (maxshift cfg) (nshifts cfg) e
           (combinations cfg) (anchor cfg) (unbalanced cfg) (cov_norm cfg)
           (rescale cfg) (rescale_pad cfg) (rescale_size cfg).

Section Pileups.
Context {B : Backend}.
Variable g : globals.
Variable rnd : rng.

(** [get_data]: the one place where the contact matrix is read. *)
Definition get_data (chrom : string) (unbalanced local : bool) : M sparse :=
  (_ <- emit (LoadData chrom (negb unbalanced)) ;;
   data <- lift (fetch chrom (negb unbalanced)) ;;
   ret (if local then data else triu2 data))%pileup.

(** [assert np.all(mids['chr']==chrom)], and its two-sided variant. *)
Definition check_chrom (combinations : bool) (mids : table) (chrom : string)
    : result unit :=
  if combinations then
    match mids with
    | Loci rows =>
        if forallb (fun r => String.eqb (chr r) chrom) rows
        then inr tt else inl AssertionError
    | Pairs _ => inl KeyError
    end
  else
    match mids with
    | Pairs rows =>
        if forallb (fun r => String.eqb (chr1 r) chrom) rows
        then inr tt else inl AssertionError
    | Loci _ => inl KeyError
    end.

(** The window generator chosen by [ctrl] and [combinations]. *)
Definition enumerate (ctrl : bool) (cfg : config) (mids : table) : result (gen window) :=
  (inner <~ (if combinations cfg then
               match mids with
               | Loci rows => inr (get_combinations rows binsize (local cfg) (anchor cfg))
               | Pairs _ => inl KeyError
               end
             else
               match mids with
               | Pairs rows => inr (get_positions_pairs rows binsize)
               | Loci _ => inl KeyError
               end) ;;
   inr (if ctrl
        then controlRegions rnd inner binsize (minshift cfg) (maxshift cfg) (nshifts cfg)
        else inner))%pileup.

(** [pileups]: the aggregation task of one chromosome. *)
Definition pileups (chrom_mids : string * table) (ctrl : bool) (cfg : config) : M pile :=
  let '(chrom, mids) := chrom_mids in
  (mymap <- lift (make_outmap (pad cfg) (rescale cfg) (rescale_size cfg)) ;;
   let cov_start := zeros (fst (shape mymap)) in
   let cov_end := zeros (snd (shape mymap)) in
   if negb (1 <? len mids)%nat then
     fresh <- lift (make_outmap (pad cfg) (rescale cfg) (rescale_size cfg)) ;;
     ret (fresh, 0, cov_start, cov_end)
   else
     '(data, exp) <-
        match expected cfg with
        | Some rows =>
            ret (None,
                 Some (map nan_to_num
                           (map snd (filter (fun r => String.eqb (fst r) chrom) rows))))
        | None =>
            data <- get_data chrom (unbalanced cfg) (local cfg) ;;
            ret (Some data, None)
        end ;;
     let coverage :=
       match data, exp with
       | Some d, None =>
           if unbalanced cfg && cov_norm cfg
           then Some (map2 PrimFloat.add (map nan_to_num (axis_sum d 0))
                                         (map nan_to_num (axis_sum d 1)))
           else None
       | _, _ => None
       end in
     _ <- lift (match anchor cfg with
                | Some (ac, _, _) =>
                    if String.eqb chrom ac then inr tt else inl AssertionError
                | None => inr tt
                end) ;;
     _ <- lift (check_chrom (combinations cfg) mids chrom) ;;
     windows <- lift (enumerate ctrl cfg mids) ;;
     lift (_do_pileups g windows data (pad cfg) exp (local cfg) (unbalanced cfg)
                       (cov_norm cfg) (rescale cfg) (rescale_pad cfg)
                       (rescale_size cfg) coverage))%pileup.

(** [chrom_mids]: the rows of each chromosome; it reads the module-level
    [combinations]. *)
Definition chrom_mids (chroms : list string) (mids : table)
    : result (list (string * table)) :=
  collect (map (fun chrom =>
                  if g_combinations g then
                    match mids with
                    | Loci rows =>
                        inr (chrom, Loci (filter (fun r => String.eqb (chr r) chrom) rows))
                    | Pairs _ => inl KeyError
                    end
                  else
                    match mids with
                    | Pairs rows =>
                        inr (chrom, Pairs (filter (fun r => String.eqb (chr1 r) chrom) rows))
                    | Loci _ => inl KeyError
                    end)
               chroms).

(** [p.map(f, tasks)] in one of the schedules of the pool: the tasks run
    in the order of the list, each in a worker forked from the parent (every
    task draws from the random source as the parent left it), and the
    exception of a task ends the map. *)
Fixpoint pool_map {X Y : Type} (f : X -> M Y) (tasks : list X) : M (list Y) :=
  match tasks with
  | [] => ret []
  | t :: tasks' => (y <- f t ;; ys <- pool_map f tasks' ;; ret (y :: ys))%pileup
  end.

(** ** Normalizer *)

(** [loop[np.isnan(loop)] = 0] *)
Definition zero_nans (loop : mat) : mat :=
  map (map (fun x => if is_nan x then fzero else x)) loop.

Definition norm_coverage (loop : mat) (cov_start cov_end : vec) : result mat :=
  let coverage := outer cov_start cov_end in
  let coverage := mdiv_scalar coverage (nanmean coverage) in
  (loop <~ mdiv_into loop coverage ;;
   inr (zero_nans loop))%pileup.

(** The two genome-wide marginals handed to [norm_coverage]. *)
Definition genome_marginals (cov_starts cov_ends : list vec) : result (vec * vec) :=
  (cov_start <~ vsum cov_starts ;;
   cov_end <~ vsum cov_starts ;;
   inr (cov_start, cov_end))%pileup.

(** From the per-chromosome results of one pass to its averaged map:
    the unzipping of the results, the sums over chromosomes, the optional coverage
    normalisation and the division by the window count. *)
Definition reduce_pass (normalise : bool) (results : list pile) : result mat :=
  let loops := map (fun r => fst (fst (fst r))) results in
  let ns := map (fun r => snd (fst (fst r))) results in
  let cov_starts := map (fun r => snd (fst r)) results in
  let cov_ends := map (fun r => snd r) results in
  (loop <~ msum loops ;;
   let n := fold_left Z.add ns 0 in
   loop <~ (if normalise then
              '(cov_start, cov_end) <~ genome_marginals cov_starts cov_ends ;;
              norm_coverage loop cov_start cov_end
            else inr loop) ;;
   inr (mdiv_scalar loop (float_of_Z n)))%pileup.

(** The body of [pileupsWithControl] once the per-chromosome tasks are
    known; [f_loops], [f_ctrls] and [f_exps] are the three partial
    applications of [pileups] handed to [p.map]. *)
Definition run_passes (cfg : config) (tasks : list (string * table))
    (f_loops f_ctrls f_exps : string * table -> M pile) : M mat :=
  ((* Loops *)
   results <- pool_map f_loops tasks ;;
   loop <- lift (reduce_pass (cov_norm cfg) results) ;;
   if 0 <? nshifts cfg then
     (* Controls *)
     results <- pool_map f_ctrls tasks ;;
     ctrl <- lift (reduce_pass (cov_norm cfg) results) ;;
     lift (mdiv_into loop ctrl)
   else
     match expected cfg with
     | Some _ =>
         results <- pool_map f_exps tasks ;;
         exp <- lift (reduce_pass false results) ;;
         lift (mdiv_into loop exp)
     | None => ret loop
     end)%pileup.

Definition pileupsWithControl (mids : table) (chroms : list string) (cfg : config)
    : M mat :=
  (tasks <- lift (chrom_mids chroms mids) ;;
   run_passes cfg tasks
     (fun t => pileups t false (with_expected None cfg))
     (fun t => pileups t true (with_expected None cfg))
     (fun t => pileups t false cfg))%pileup.
End Pileups.

(** ** Configuration checks of the command line entry point *)

(** [if args.rescale and args.rescale_size%3!=0: raise ValueError(...)] *)
Definition check_rescale_size (rescale : bool) (rescale_size : Z) : result unit :=
  if rescale && negb (rescale_size mod 3 =? 0) then inl ValueError else inr tt.

(** The checks of [__main__] on the mode flags, in the order of the source;
    [paired] tells that the loci file has both sides defined. *)
Definition check_modes (by_window rescale : bool) (rescale_size : Z)
    (anchor : option anchor_t) (local paired coverage_norm : bool) : result unit :=
  if by_window && rescale then inl NotImplementedError
  else
    (_ <~ check_rescale_size rescale rescale_size ;;
     _ <~ (if paired then
             match anchor with
             | Some _ => inl ValueError
             | None => if local then inl ValueError else inr tt
             end
           else inr tt) ;;
     if by_window then
       if paired then inl ValueError
       else if local then inl ValueError
       else match anchor with
            | Some _ => inl ValueError
            | None => if coverage_norm then inl NotImplementedError else inr tt
            end
     else inr tt)%pileup.

(** ** An in-memory backend

    Contact matrices are dense lists of rows kept in a table by chromosome
    name; slicing follows Python's rules and never raises.  [zoomArray] is
    nearest-neighbour resampling and [round_scaled] is that of
    [rescale_pad = 1.0]; [nanmean] adds the entries in row order. *)

Definition dense_triu2 (m : mat) : mat :=
  map (fun ir =>
         map (fun jx => if (fst ir + 2 <=? fst jx)%nat then snd jx else fzero)
             (combine (seq 0 (length (snd ir))) (snd ir)))
      (combine (seq 0 (length m)) m).

Definition dense_submatrix (m : mat) (r0 r1 c0 c1 : Z) : result mat :=
  inr (map (fun row => py_slice row c0 c1) (py_slice m r0 r1)).

Definition fsum (v : vec) : float := fold_left PrimFloat.add v fzero.

Definition dense_axis_sum (m : mat) (axis : nat) : vec :=
  match axis with
  | O => map (fun j => fsum (map (fun row => nth j row fzero) m))
             (seq 0 (snd (shape m)))
  | _ => map fsum m
  end.

Definition nearest1 (v : vec) (s : Z) : vec :=
  map (fun k => nth (k * length v / Z.to_nat s) v fzero) (seq 0 (Z.to_nat s)).

Definition nearest2 (m : mat) (s : Z) : mat :=
  map (fun i => nearest1 (nth (i * length m / Z.to_nat s) m []) s) (seq 0 (Z.to_nat s)).

Definition dense_nanmean (m : mat) : float :=
  let kept := filter (fun x => negb (is_nan x)) (concat m) in
  (fsum kept / float_of_Z (Z.of_nat (length kept)))%float.

Definition dense_backend (store : string -> option mat) (res : Z) : Backend :=
  {| sparse := mat;
     fetch := fun chrom _ =>
                match store chrom with Some m => inr m | None => inl ValueError end;
     triu2 := dense_triu2;
     submatrix := dense_submatrix;
     axis_sum := dense_axis_sum;
     zoomArray2 := nearest2;
     zoomArray1 := nearest1;
     nanmean := dense_nanmean;
     round_scaled := fun _ p => 2 * p;
     binsize := res |}.

(** ** Vocabulary of the statements *)

(** [m] is an [h] by [w] array. *)
Definition has_shape (m : mat) (h w : nat) : Prop :=
  length m = h /\ Forall (fun row => length row = w) m.

Definition no_nan (m : mat) : Prop :=
  Forall (Forall (fun x => is_nan x = false)) m.

(** The curve at distance [|d|]. *)
Definition expected_at (expected : vec) (d : Z) : float :=
  nth (Z.abs_nat d) expected fzero.

(** [mindist <= |endBin - stBin| * binsize < maxdist] *)
Definition in_range {B : Backend} (g : globals) (w : window) : Prop :=
  let d := Z.abs (endBin w - stBin w) * binsize in
  g_mindist g <= d /\
  match g_maxdist g with Some mx => d < mx | None => True end.

(** The bins of a descriptor, without its pads. *)
Definition bins (w : window) : Z * Z := (stBin w, endBin w).

(** The side of the canonical output map. *)
Definition side (cfg : config) : Z :=
  if rescale cfg then rescale_size cfg else 2 * pad cfg + 1.

(** An accumulator of the canonical side [s]. *)
Definition canonical (s : nat) (p : pile) : Prop :=
  has_shape (fst (fst (fst p))) s s /\ length (snd (fst p)) = s.

(** Two runs with the same log of reads that raise the same exception or
    return values related by [R]. *)
Definition rel_M {X Y : Type} (R : X -> Y -> Prop) (a : M X) (b : M Y) : Prop :=
  fst a = fst b /\
  match snd a, snd b with
  | inl e, inl e' => e = e'
  | inr x, inr y => R x y
  | _, _ => False
  end.

(** Two accumulators that differ at most in [cov_end]. *)
Definition same_but_cov_end (p p' : pile) : Prop := fst p = fst p'.

(** The control windows of a window [w]: same pads, both bins moved by
    [m * sign] for a magnitude [m] in [[minbin, maxbin)] and a sign in
    [{-1, 0, 1}]. *)
Definition control_of (minbin maxbin : Z) (w c : window) : Prop :=
  stPad c = stPad w /\ endPad c = endPad w /\
  exists m sign,
    stBin c = stBin w + m * sign /\ endBin c = endBin w + m * sign /\
    minbin <= m < maxbin /\ (sign = -1 \/ sign = 0 \/ sign = 1).

(** ** Example data *)

Local Open Scope string_scope.

Definition ex_ones (n : nat) : mat := repeat (repeat 1%float n) n.

(** One chromosome of 40 bins of 10 kb. *)
Definition ex_store (fill : float) (chrom : string) : option mat :=
  if String.eqb chrom "chr1" then Some (repeat (repeat fill 40) 40) else None.

Definition ex_backend (fill : float) : Backend := dense_backend (ex_store fill) 10000.

Definition ex_globals : globals := mkGlobals 0 None true.
Definition ex_globals_mindist : globals := mkGlobals 100000 (Some 1000000) true.

Definition ex_rnd : rng := fun k => Z.of_nat k * 7919 + 3.

(** An oracle whose every output makes [np.random.random()] return 0.5. *)
Definition ex_rnd_half : rng := fun _ => 4503599627370496.

Definition ex_rows : list locus :=
  [mkLocus "chr1" 100000 0; mkLocus "chr1" 200000 0; mkLocus "chr1" 300000 0].

Definition ex_pair : locus_pair := mkLocusPair "chr1" 100000 0 "chr1" 200000 0.

Definition ex_cfg : config :=
  mkConfig 2 false 100000 1000000 1 None true None false false false 1%float 41.

Definition ex_cfg_paired : config :=
  mkConfig 2 false 100000 1000000 1 None false None false false false 1%float 41.

Definition ex_anchor : anchor_t := ("chr1", 100000, 120000).

Definition ex_cfg_local_anchor : config :=
  mkConfig 2 true 100000 1000000 1 None true (Some ex_anchor) false false false 1%float 41.

Definition ex_cfg_cov : config :=
  mkConfig 2 false 100000 1000000 1 None true None true true false 1%float 41.

Definition ex_curve : vec := [1; 2; 3; 4; 5; 6]%float.

Definition ex_pile : pile := (zeros2 5 5, 0, zeros 5, zeros 5).

Definition ex_task (cov_end : vec) (t : string * table) : M pile :=
  ret ([[1; 2]; [3; 4]]%float, 3, [1; 2]%float, cov_end).

Local Close Scope string_scope.

(** * The rest of the program *)

(** When the coverage marginals are accumulated. *)
Definition accumulates_coverage (unbalanced cov_norm : bool) (expected : option vec)
    : bool :=
  unbalanced && cov_norm && match expected with None => true | Some _ => false end.


(** ** CoordinateConverter: [get_mids] *)

(** A locus whose pad is stored as a number of halves, as [widths/2] is. *)
Definition half_integer (l : locus) : Prop := Qden (Pad l) = 2%positive.

(** A row of the one-sided loci file: [chr], [start], [end]. *)
Record bed : Type := mkBed {
  bed_chr : string;
  bed_start : Z;
  bed_end : Z
}.

(** A row of the two-sided loci file. *)
Record bedpe : Type := mkBedpe {
  pe_chr1 : string;
  pe_start1 : Z;
  pe_end1 : Z;
  pe_chr2 : string;
  pe_start2 : Z;
  pe_end2 : Z
}.

Inductive bed_table : Type :=
| Bed3 (rows : list bed)
| Bed6 (rows : list bedpe).

(** [sort_values] on several columns is a stable sort. *)
Fixpoint insert_by {A : Type} (le : A -> A -> bool) (x : A) (l : list A) : list A :=
  match l with
  | [] => [x]
  | y :: l' => if le x y then x :: y :: l' else y :: insert_by le x l'
  end.

Fixpoint sort_values {A : Type} (le : A -> A -> bool) (l : list A) : list A :=
  match l with
  | [] => []
  | x :: l' => insert_by le x (sort_values le l')
  end.

(** Lexicographic order on ['chr', 'start']. *)
Definition bed_le (a b : bed) : bool :=
  String.ltb (bed_chr a) (bed_chr b)
  || (String.eqb (bed_chr a) (bed_chr b) && (bed_start a <=? bed_start b)).

(** Lexicographic order on ['chr1', 'chr2', 'start1', 'start2']. *)
Definition bedpe_le (a b : bedpe) : bool :=
  String.ltb (pe_chr1 a) (pe_chr1 b)
  || (String.eqb (pe_chr1 a) (pe_chr1 b)
      && (String.ltb (pe_chr2 a) (pe_chr2 b)
          || (String.eqb (pe_chr2 a) (pe_chr2 b)
              && ((pe_start1 a <? pe_start1 b)
                  || ((pe_start1 a =? pe_start1 b) && (pe_start2 a <=? pe_start2 b)))))).

(** [drop_duplicates]: of equal rows the first is kept. *)
Fixpoint drop_duplicates_from {A : Type} (eqb : A -> A -> bool) (seen l : list A)
    : list A :=
  match l with
  | [] => []
  | x :: l' =>
      if existsb (eqb x) seen then drop_duplicates_from eqb seen l'
      else x :: drop_duplicates_from eqb (x :: seen) l'
  end.

Definition drop_duplicates {A : Type} (eqb : A -> A -> bool) (l : list A) : list A :=
  drop_duplicates_from eqb [] l.

Definition locus_eqb (a b : locus) : bool :=
  String.eqb (chr a) (chr b) && (Mids a =? Mids b) && Qeq_bool (Pad a) (Pad b).

Definition locus_pair_eqb (a b : locus_pair) : bool :=
  String.eqb (chr1 a) (chr1 b) && (Mids1 a =? Mids1 b) && Qeq_bool (Pad1 a) (Pad1 b)
  && String.eqb (chr2 a) (chr2 b) && (Mids2 a =? Mids2 b) && Qeq_bool (Pad2 a) (Pad2 b).

(** The coordinate columns are int64: their sums and differences wrap
    around. *)
Definition int64 (z : Z) : Z := (z + 2 ^ 63) mod 2 ^ 64 - 2 ^ 63.

(** The integer nearest to [a / u], for [0 <= a] and [0 < u]; of two equally
    near integers, the even one. *)
Definition div_nearest_even (a u : Z) : Z :=
  let q := a / u in
  let r := a mod u in
  if 2 * r <? u then q
  else if u <? 2 * r then q + 1
  else if Z.even q then q else q + 1.

(** The value of the float64 that an int64 [z] becomes in a true division.
    Integers up to [2^53] in magnitude are float64 values.  Beyond, float64
    has 53 significant bits: [z] becomes the nearest multiple of
    [2 ^ (log2 |z| - 52)], and of two equally near multiples the one with
    the even significand. *)
Definition float64_of_int (z : Z) : Z :=
  let a := Z.abs z in
  if a <? 2 ^ 53 then z
  else
    let ulp := 2 ^ (Z.log2 a - 52) in
    Z.sgn z * (div_nearest_even a ulp * ulp).

(** [.astype(int)] of a float64: the integer it is worth, fractions dropped. *)
Definition Z_of_float (x : float) : Z :=
  match Prim2SF x with
  | S754_finite s m e =>
      let v := if 0 <=? e then Z.pos m * 2 ^ e else Z.pos m / 2 ^ (- e) in
      if s then - v else v
  | _ => 0
  end.

(** [np.round((end + start) / 2).astype(int)]: the int64 sum, made a float64
    by the division, halved (which is exact) and rounded, halves to even. *)
Definition midpoint (start end_ : Z) : Z :=
  round_half (float64_of_int (int64 (end_ + start))).

(** [np.round(end - start).astype(int) / 2]: the int64 width, made a float64
    by the division and halved. *)
Definition half_width (start end_ : Z) : Q :=
  Qmake (float64_of_int (int64 (end_ - start))) 2.

(** One row of [mids]. *)
Definition locus_of (r : bed) : locus :=
  mkLocus (bed_chr r) (midpoint (bed_start r) (bed_end r))
          (half_width (bed_start r) (bed_end r)).

Definition locus_pair_of (r : bedpe) : locus_pair :=
  mkLocusPair (pe_chr1 r) (midpoint (pe_start1 r) (pe_end1 r))
              (half_width (pe_start1 r) (pe_end1 r))
              (pe_chr2 r) (midpoint (pe_start2 r) (pe_end2 r))
              (half_width (pe_start2 r) (pe_end2 r)).

Definition get_mids (intervals : bed_table) (combinations : bool) : result table :=
  if combinations then
    match intervals with
    | Bed3 rows =>
        inr (Loci (drop_duplicates locus_eqb (map locus_of (sort_values bed_le rows))))
    | Bed6 _ => inl KeyError
    end
  else
    match intervals with
    | Bed6 rows =>
        inr (Pairs (drop_duplicates locus_pair_eqb
                      (map locus_pair_of (sort_values bedpe_le rows))))
    | Bed3 _ => inl KeyError
    end.

(** ** Enrichment summary: [get_enrichment] *)

(** [amap[c-n//2:c+n//2+1, c-n//2:c+n//2+1]] with [c = floor(shape[0]/2)]. *)
Definition enrichment_block (amap : mat) (n : Z) : mat :=
  let c := Z.of_nat (fst (shape amap)) / 2 in
  map (fun row => py_slice row (c - n / 2) (c + n / 2 + 1))
      (py_slice amap (c - n / 2) (c + n / 2 + 1)).

Definition get_enrichment {B : Backend} (amap : mat) (n : Z) : float :=
  nanmean (enrichment_block amap n).

(** ** By-window aggregation: [pileupsByWindow] *)

(** The oracle after [n] random calls. *)
Definition rng_skip (n : nat) (rnd : rng) : rng := fun k => rnd (n + k)%nat.

(** A Python dict with integer keys, in insertion order: [d[k] = v]. *)
Fixpoint dict_set {V : Type} (k : Z) (v : V) (d : list (Z * V)) : list (Z * V) :=
  match d with
  | [] => [(k, v)]
  | (k', v') :: d' => if k' =? k then (k, v) :: d' else (k', v') :: dict_set k v d'
  end.

Fixpoint dict_get {V : Type} (k : Z) (d : list (Z * V)) : option V :=
  match d with
  | [] => None
  | (k', v) :: d' => if k' =? k then Some v else dict_get k d'
  end.

Section ByWindow.
Context {B : Backend}.
Variable g : globals.

(** The windows of one locus: every locus of the chromosome against the
    anchor [(chrom, m, m)], shifted for a control. *)
Definition by_window_current (rnd : rng) (chrom : string) (curmids : list locus)
    (m : Z) (ctrl : bool) (cfg : config) : gen window :=
  let inner := get_combinations curmids binsize false (Some (chrom, m, m)) in
  if ctrl
  then controlRegions rnd inner binsize (minshift cfg) (maxshift cfg) (nshifts cfg)
  else inner.

(** The loop over the midpoints; [used] counts the random calls made so
    far.  A locus with no counted window ends in
    [make_outmap(make_outmap(...))], which numpy refuses with [TypeError]. *)
Fixpoint by_window_loop (rnd : rng) (chrom : string) (curmids : list locus)
    (data : option sparse) (exp coverage : option vec) (ctrl : bool) (cfg : config)
    (todo : list Z) (used : nat) (mymaps : list (Z * mat)) : result (list (Z * mat)) :=
  match todo with
  | [] => inr mymaps
  | m :: todo' =>
      let current := by_window_current (rng_skip used rnd) chrom curmids m ctrl cfg in
      ('(mymap, n, cov_starts, cov_ends)
         <~ _do_pileups g current data (pad cfg) exp false (unbalanced cfg)
                        (cov_norm cfg) (rescale cfg) (rescale_pad cfg)
                        (rescale_size cfg) coverage ;;
       mymap <~ (if 0 <? n then inr (mdiv_scalar mymap (float_of_Z n))
                 else inl TypeError) ;;
       by_window_loop rnd chrom curmids data exp coverage ctrl cfg todo'
         (if ctrl then used + 2 * length (fst current) else used)%nat
         (dict_set m mymap mymaps))%pileup
  end.

Definition pileupsByWindow (rnd : rng) (chrom_mids : string * table) (ctrl : bool)
    (cfg : config) : M (list (Z * mat)) :=
  let '(chrom, mids) := chrom_mids in
  ('(data, exp) <-
     match expected cfg with
     | Some rows =>
         ret (None,
              Some (map nan_to_num
                        (map snd (filter (fun r => String.eqb (fst r) chrom) rows))))
     | None =>
         data <- get_data chrom (unbalanced cfg) false ;;
         ret (Some data, None)
     end ;;
   let coverage :=
     match data, exp with
     | Some d, None =>
         if unbalanced cfg && cov_norm cfg
         then Some (map2 PrimFloat.add (map nan_to_num (axis_sum d 0))
                                       (map nan_to_num (axis_sum d 1)))
         else None
     | _, _ => None
     end in
   curmids <- lift (match mids with
                    | Loci rows => inr (filter (fun r => String.eqb (chr r) chrom) rows)
                    | Pairs _ => inl KeyError
                    end) ;;
   if negb (1 <? length curmids)%nat then ret []
   else lift (by_window_loop rnd chrom curmids data exp coverage ctrl cfg
                             (map Mids curmids) 0 []))%pileup.
End ByWindow.

(** ** More example data *)

Definition ex_beds : list bed :=
  [mkBed "chr2"%string 500 700; mkBed "chr1"%string 300 401;
   mkBed "chr1"%string 100 200; mkBed "chr1"%string 300 401].

Definition ex_map5 : mat :=
  map (fun i => map (fun j => float_of_Z (Z.of_nat (10 * i + j))) (seq 0 5)) (seq 0 5).

(** Bins of 2 Mb: larger than the default [maxshift]. *)
Definition ex_backend_coarse : Backend := dense_backend (ex_store 1) 2000000.

(** Two loci in the same bin of 10 kb. *)
Definition ex_close_rows : list locus :=
  [mkLocus "chr1"%string 100000 0; mkLocus "chr1"%string 105000 0].

(** The loci of [ex_beds]. *)
Definition ex_loci_of_beds : list locus :=
  [mkLocus "chr1"%string 150 (Qmake 100 2); mkLocus "chr1"%string 350 (Qmake 101 2);
   mkLocus "chr2"%string 600 (Qmake 200 2)].

Definition ex_windows : list window := [mkWindow 10 20 0 0; mkWindow 30 12 1 1].


(** Summed map and coverage with entries at 0. *)
Definition ex_summed : mat := [[0; 1]; [1; 1]]%float.
Definition ex_cov : vec := [0; 2]%float.

(** * Properties *)

(** ** Python sequences *)

Lemma nth_map_seq {B : Type} (d : B) (f : nat -> B) (start len k : nat) :
  (k < len)%nat -> nth k (map f (seq start len)) d = f (start + k)%nat.
Proof.
  intros Hk.
  rewrite (nth_indep _ d (f 0%nat)) by (rewrite length_map, length_seq; exact Hk).
  rewrite (map_nth f (seq start len) 0%nat k), seq_nth by exact Hk.
  reflexivity.
Qed.

Section PySeqFacts.
Context {A : Type}.
Variable dflt : A.

Lemma toeplitz_entry (c r : list A) (i j : nat) :
  (i < length c)%nat -> (j < length r)%nat ->
  entry dflt (toeplitz dflt c r) i j =
  if (j <=? i)%nat then nth (i - j) c dflt else nth (j - i) r dflt.
Proof.
  intros Hi Hj. unfold entry, toeplitz.
  rewrite (nth_map_seq []) by exact Hi.
  rewrite (nth_map_seq dflt) by exact Hj.
  reflexivity.
Qed.

Lemma toeplitz_shape (c r : list A) :
  c <> [] -> shape (toeplitz dflt c r) = (length c, length r).
Proof.
  intros Hc. unfold shape, toeplitz.
  rewrite length_map, length_seq.
  destruct c as [|x c]; [congruence|].
  cbn [length seq map hd]. rewrite length_map, length_seq. reflexivity.
Qed.

(** The Toeplitz matrix built from the two halves of a sequence [l] split
    at [k] reads [l] along its diagonals: entry [(i, j)] is [l[k + j - i]]. *)
Lemma toeplitz_split_entry (l : list A) (k i j : nat) :
  (i <= k)%nat -> (k + j < length l)%nat ->
  entry dflt (toeplitz dflt (py_downfrom l k) (py_from l k)) i j =
  nth (k + j - i) l dflt.
Proof.
  intros Hi Hj. unfold py_downfrom, py_from.
  assert (Hc : length (rev (firstn (S k) l)) = S k)
    by (rewrite length_rev, length_firstn; lia).
  rewrite toeplitz_entry by (rewrite ?Hc, ?length_skipn; lia).
  destruct (Nat.leb_spec j i) as [Hji|Hji].
  - rewrite rev_nth by (rewrite length_firstn; lia).
    rewrite length_firstn, nth_firstn.
    replace (Nat.min (S k) (length l) - S (i - j))%nat with (k + j - i)%nat by lia.
    destruct (Nat.ltb_spec (k + j - i) (S k)); [reflexivity | lia].
  - rewrite nth_skipn. f_equal. lia.
Qed.

Lemma toeplitz_split_shape (l : list A) (k : nat) :
  (k < length l)%nat ->
  shape (toeplitz dflt (py_downfrom l k) (py_from l k)) = (S k, (length l - k)%nat).
Proof.
  intros Hk. rewrite toeplitz_shape.
  - unfold py_downfrom, py_from.
    rewrite length_rev, length_firstn, length_skipn. f_equal. lia.
  - unfold py_downfrom. intros E. apply (f_equal (@length A)) in E.
    rewrite length_rev, length_firstn in E. cbn [length] in E. lia.
Qed.

Lemma py_slice_length (l : list A) (lo hi : Z) :
  0 <= lo <= hi -> hi <= Z.of_nat (length l) ->
  length (py_slice l lo hi) = Z.to_nat (hi - lo).
Proof.
  intros H1 H2. unfold py_slice, clip_index.
  destruct (Z.ltb_spec lo 0); [lia|].
  destruct (Z.ltb_spec hi 0); [lia|].
  rewrite length_firstn, length_skipn. lia.
Qed.

Lemma py_slice_nth (l : list A) (lo hi : Z) (k : nat) :
  0 <= lo <= hi -> hi <= Z.of_nat (length l) ->
  (k < Z.to_nat (hi - lo))%nat ->
  nth k (py_slice l lo hi) dflt = nth (Z.to_nat lo + k) l dflt.
Proof.
  intros H1 H2 Hk. unfold py_slice, clip_index.
  destruct (Z.ltb_spec lo 0); [lia|].
  destruct (Z.ltb_spec hi 0); [lia|].
  rewrite nth_firstn, nth_skipn.
  destruct (Nat.ltb_spec k (Z.to_nat (Z.min hi (Z.of_nat (length l))) -
                            Z.to_nat (Z.min lo (Z.of_nat (length l))))); [|lia].
  f_equal. lia.
Qed.

Lemma reflect_index_small (n k : nat) :
  (2 <= n)%nat -> (k < n)%nat -> reflect_index n k = k.
Proof.
  intros Hn Hk. unfold reflect_index.
  destruct (Nat.eqb_spec n 1); [lia|].
  rewrite Nat.mod_small by lia.
  destruct (Nat.ltb_spec k n); [reflexivity | lia].
Qed.

Lemma pad_constant_left_nth (zero : A) (m k : nat) (x : list A) :
  nth k (pad_constant_left zero m x) dflt =
  if (k <? m)%nat then zero else nth (k - m) x dflt.
Proof.
  unfold pad_constant_left.
  destruct (Nat.ltb_spec k m).
  - rewrite app_nth1 by (rewrite repeat_length; lia).
    apply nth_repeat_lt; lia.
  - rewrite app_nth2 by (rewrite repeat_length; lia).
    rewrite repeat_length. reflexivity.
Qed.

Lemma pad_reflect_left_nth (m k : nat) (x : list A) :
  (2 <= length x)%nat -> (m < length x)%nat ->
  exists y, pad_reflect_left dflt m x = inr y /\
    length y = (m + length x)%nat /\
    nth k y dflt = if (k <? m)%nat then nth (m - k) x dflt else nth (k - m) x dflt.
Proof.
  intros Hx Hm. destruct x as [|a x]; [cbn in Hx; lia|].
  cbn [pad_reflect_left]. eexists; split; [reflexivity|]. split.
  - rewrite length_app, length_map, length_rev, length_seq. reflexivity.
  - destruct (Nat.ltb_spec k m) as [Hk|Hk].
    + rewrite app_nth1 by (rewrite length_map, length_rev, length_seq; lia).
      rewrite (nth_indep _ dflt (nth (reflect_index (length (a :: x)) 0) (a :: x) dflt))
        by (rewrite length_map, length_rev, length_seq; lia).
      rewrite (map_nth (fun k => nth (reflect_index (length (a :: x)) k) (a :: x) dflt)
                       (rev (seq 1 m)) 0%nat k).
      rewrite rev_nth by (rewrite length_seq; lia).
      rewrite length_seq, seq_nth by lia.
      rewrite reflect_index_small by lia.
      f_equal. lia.
    + rewrite app_nth2 by (rewrite length_map, length_rev, length_seq; lia).
      rewrite length_map, length_rev, length_seq. reflexivity.
Qed.
End PySeqFacts.

(** ** ExpectedMatrixBuilder *)

(** C2 (as amended). Entries of the expected matrix.  For a window whose two
    intervals have the same width, with the left interval starting no later
    than the right one, and a curve long enough to cover the window
    ([hi_right - lo_left <= len(expected)]), the matrix is square of that
    width, and its entry [(i, j)] is read at the signed distance
    [d = (lo_right + j) - (lo_left + i)]: it is [expected[|d|]] when
    [d >= 0], and also when [d < 0] in local mode (reflective padding), but
    it is 0 when [d < 0] outside local mode (zero padding). *)
Theorem get_expected_matrix_shape_entry
    (lo_left hi_left lo_right hi_right : Z) (expected : vec) (local : bool)
    (i j : nat) :
  lo_left < hi_left ->
  hi_left - lo_left = hi_right - lo_right ->
  lo_left <= lo_right ->
  hi_right - lo_left <= Z.of_nat (length expected) ->
  Z.of_nat i < hi_left - lo_left ->
  Z.of_nat j < hi_right - lo_right ->
  exists m,
    get_expected_matrix (lo_left, hi_left) (lo_right, hi_right) expected local = inr m /\
    shape m = (Z.to_nat (hi_left - lo_left), Z.to_nat (hi_right - lo_right)) /\
    entry fzero m i j =
      let d := (lo_right + Z.of_nat j) - (lo_left + Z.of_nat i) in
      if (d <? 0) && negb local then fzero else expected_at expected d.
Proof.
  intros Hw Heq Hord Hlen Hi Hj.
  unfold get_expected_matrix, expected_at. cbv zeta.
  destruct (Z.ltb_spec (lo_right - hi_left + 1) 0) as [Hlo|Hlo].
  - (* the slice would start before index 0: pad on the left *)
    set (sub := py_slice expected 0 (hi_right - lo_left)).
    set (m := Z.to_nat (- (lo_right - hi_left + 1))).
    assert (Hm0 : Z.of_nat m = - (lo_right - hi_left + 1)) by (unfold m; lia).
    clearbody m.
    assert (Hsub : length sub = Z.to_nat (hi_right - lo_left))
      by (unfold sub; rewrite py_slice_length by lia; f_equal; lia).
    assert (Hnth : forall k, (k < length sub)%nat -> nth k sub fzero = nth k expected fzero).
    { intros k Hk. unfold sub. rewrite (py_slice_nth fzero) by lia. reflexivity. }
    assert (Hpad : exists y,
      (if local then pad_reflect_left fzero m sub
       else inr (pad_constant_left fzero m sub)) = inr y /\
      length y = (m + length sub)%nat /\
      forall k, nth k y fzero =
        if (k <? m)%nat then (if local then nth (m - k) sub fzero else fzero)
        else nth (k - m) sub fzero).
    { destruct local.
      - assert (H2 : (2 <= length sub)%nat) by lia.
        assert (Hm : (m < length sub)%nat) by lia.
        destruct (pad_reflect_left_nth fzero m 0 sub H2 Hm) as (y & Hy & Hly & _).
        exists y. split; [exact Hy|]. split; [exact Hly|].
        intros k. destruct (pad_reflect_left_nth fzero m k sub H2 Hm) as (y' & Hy' & _ & Hk).
        rewrite Hy in Hy'. injection Hy' as <-. exact Hk.
      - eexists. split; [reflexivity|]. split.
        + unfold pad_constant_left. rewrite length_app, repeat_length. reflexivity.
        + intros k. apply pad_constant_left_nth. }
    destruct Hpad as (y & -> & Hly & Hy). cbn [rbind].
    eexists. split; [reflexivity|].
    assert (Hhalf : (length y / 2 = Z.to_nat (hi_left - lo_left) - 1)%nat).
    { rewrite Hly, Hsub. symmetry; apply Nat.div_unique with (r := 1%nat); lia. }
    rewrite Hhalf. split.
    + rewrite toeplitz_split_shape by lia. f_equal; lia.
    + rewrite toeplitz_split_entry by lia. rewrite Hy.
      destruct (Z.ltb_spec (lo_right + Z.of_nat j - (lo_left + Z.of_nat i)) 0) as [Hd|Hd];
        cbn [andb].
      * destruct (Nat.ltb_spec (Z.to_nat (hi_left - lo_left) - 1 + j - i) m); [|lia].
        destruct local; cbn [negb]; [|reflexivity].
        rewrite Hnth by lia. f_equal. lia.
      * destruct (Nat.ltb_spec (Z.to_nat (hi_left - lo_left) - 1 + j - i) m); [lia|].
        rewrite Hnth by lia. f_equal. lia.
  - (* the slice lies inside the curve *)
    set (sub := py_slice expected (lo_right - hi_left + 1) (hi_right - lo_left)).
    assert (Hsub : length sub = Z.to_nat (hi_right - lo_left - (lo_right - hi_left + 1)))
      by (unfold sub; apply py_slice_length; lia).
    eexists. split; [reflexivity|].
    assert (Hhalf : (length sub / 2 = Z.to_nat (hi_left - lo_left) - 1)%nat).
    { rewrite Hsub. symmetry; apply Nat.div_unique with (r := 1%nat); lia. }
    rewrite Hhalf. split.
    + rewrite toeplitz_split_shape by lia. f_equal; lia.
    + rewrite toeplitz_split_entry by lia.
      unfold sub. rewrite (py_slice_nth fzero) by lia.
      destruct (Z.ltb_spec (lo_right + Z.of_nat j - (lo_left + Z.of_nat i)) 0) as [Hd|Hd];
        [lia|]. cbn [andb]. f_equal. lia.
Qed.

(** ** The aggregation loop *)

Lemma orient_idempotent (w : window) : orient (orient w) = orient w.
Proof.
  unfold orient. destruct (Z.ltb_spec (endBin w) (stBin w)) as [H|H]; cbn.
  - destruct (Z.ltb_spec (stBin w) (endBin w)); [lia | reflexivity].
  - destruct (Z.ltb_spec (endBin w) (stBin w)); [lia | reflexivity].
Qed.

Lemma orient_bins (w : window) :
  stBin (orient w) = Z.min (stBin w) (endBin w) /\
  endBin (orient w) = Z.max (stBin w) (endBin w).
Proof.
  unfold orient. destruct (Z.ltb_spec (endBin w) (stBin w)); cbn; lia.
Qed.

(** Orientation depends only on the bins, and the bins it returns depend
    only on the bins it is given. *)
Lemma orient_same_bins (w w' : window) :
  bins w = bins w' -> bins (orient w) = bins (orient w').
Proof.
  unfold bins, orient. intros E. injection E as E1 E2. rewrite E1, E2.
  destruct (endBin w' <? stBin w'); cbn; congruence.
Qed.

Section LoopFacts.
Context {B : Backend}.
Variables (g : globals) (data : option sparse) (pad : Z) (expected : option vec).
Variables (local unbalanced cov_norm rescale : bool).
Variables (rescale_pad : float) (rescale_size : Z) (coverage : option vec).

Lemma passes_filter_spec (w : window) :
  passes_filter g local w = true <-> (local = true \/ in_range g w).
Proof.
  unfold passes_filter, in_range. cbv zeta.
  rewrite orb_true_iff, andb_true_iff, Z.leb_le.
  destruct (g_maxdist g) as [mx|]; [rewrite Z.ltb_lt|]; intuition.
Qed.

Lemma passes_filter_orient (w : window) :
  passes_filter g local (orient w) = passes_filter g local w.
Proof.
  unfold passes_filter. destruct (orient_bins w) as [-> ->].
  replace (Z.abs (Z.max (stBin w) (endBin w) - Z.min (stBin w) (endBin w)))
    with (Z.abs (endBin w - stBin w)) by lia.
  reflexivity.
Qed.

Lemma do_window_orient (st : pile) (w : window) :
  do_window g data pad expected local unbalanced cov_norm rescale
            rescale_pad rescale_size coverage st w =
  do_window g data pad expected local unbalanced cov_norm rescale
            rescale_pad rescale_size coverage st (orient w).
Proof.
  unfold do_window. rewrite orient_idempotent. reflexivity.
Qed.

Lemma do_window_skipped (st : pile) (w : window) :
  passes_filter g local w = false ->
  do_window g data pad expected local unbalanced cov_norm rescale
            rescale_pad rescale_size coverage st w = inr st.
Proof.
  intros H. unfold do_window.
  destruct st as [[[mymap n] cov_start] cov_end].
  rewrite passes_filter_orient, H. reflexivity.
Qed.

Lemma loop_windows_app (f : pile -> window -> result pile) (st : pile)
    (ws1 ws2 : list window) :
  loop_windows f st (ws1 ++ ws2) =
  rbind (loop_windows f st ws1) (fun st' => loop_windows f st' ws2).
Proof.
  revert st. induction ws1 as [|w ws1 IH]; intros st; cbn; [reflexivity|].
  destruct (f st w) as [e|st']; cbn; [reflexivity | apply IH].
Qed.

Lemma loop_windows_ext (f f' : pile -> window -> result pile) (st : pile)
    (ws ws' : list window) :
  Forall2 (fun w w' => forall s, f s w = f' s w') ws ws' ->
  loop_windows f st ws = loop_windows f' st ws'.
Proof.
  intros H. revert st. induction H as [|w w' ws ws' Hw _ IH]; intros st; cbn.
  - reflexivity.
  - rewrite Hw. destruct (f' st w'); cbn; [reflexivity | apply IH].
Qed.

(** C3. Distance filter of the aggregation loop.  A window descriptor that
    is neither processed in local mode nor at a genomic distance
    [mindist <= |endBin - stBin| * binsize < maxdist] leaves the accumulated
    map, the window count and both coverage marginals as they were: the loop
    iteration returns the state unchanged, and dropping the descriptor from
    the stream does not change the result of [_do_pileups].  So a descriptor
    contributes to the sum and to [n] only if local mode is active or its
    distance is in range. *)
Theorem distance_filter_excludes (st : pile) (w : window)
    (before after : list window) (raised : option exn) :
  ~ (local = true \/ in_range g w) ->
  do_window g data pad expected local unbalanced cov_norm rescale
            rescale_pad rescale_size coverage st w = inr st /\
  _do_pileups g (before ++ w :: after, raised) data pad expected local unbalanced
              cov_norm rescale rescale_pad rescale_size coverage =
  _do_pileups g (before ++ after, raised) data pad expected local unbalanced
              cov_norm rescale rescale_pad rescale_size coverage.
Proof.
  intros Hout.
  assert (Hf : passes_filter g local w = false).
  { destruct (passes_filter g local w) eqn:E; [|reflexivity].
    apply passes_filter_spec in E. contradiction. }
  split; [apply do_window_skipped; exact Hf|].
  unfold _do_pileups.
  destruct (make_outmap pad rescale rescale_size) as [e|mymap]; cbn [rbind fst snd];
    [reflexivity|].
  rewrite !loop_windows_app. cbn [loop_windows].
  destruct (loop_windows _ _ before) as [e|st1]; cbn [rbind]; [reflexivity|].
  rewrite (do_window_skipped st1 w Hf). reflexivity.
Qed.

(** C7. Orientation of window descriptors.  Every descriptor handled by the
    aggregation loop is first oriented so that [stBin <= endBin]: the
    oriented start bin is the smaller and the oriented end bin the larger of
    the two bins, each bin keeps its own pad through the swap, and the loop
    iteration (intervals, filter, extraction) works on the oriented
    descriptor. *)
Theorem orient_enforces_order (st : pile) (w : window) :
  stBin (orient w) <= endBin (orient w) /\
  stBin (orient w) = Z.min (stBin w) (endBin w) /\
  endBin (orient w) = Z.max (stBin w) (endBin w) /\
  ((stBin (orient w), stPad (orient w), endBin (orient w), endPad (orient w))
     = (if endBin w <? stBin w
        then (endBin w, endPad w, stBin w, stPad w)
        else (stBin w, stPad w, endBin w, endPad w))) /\
  do_window g data pad expected local unbalanced cov_norm rescale
            rescale_pad rescale_size coverage st w =
  do_window g data pad expected local unbalanced cov_norm rescale
            rescale_pad rescale_size coverage st (orient w).
Proof.
  destruct (orient_bins w) as [Hs He].
  repeat split; try assumption.
  - lia.
  - unfold orient. destruct (endBin w <? stBin w); reflexivity.
  - apply do_window_orient.
Qed.
End LoopFacts.

Lemma map_eq_Forall2 {X Y : Type} (f : X -> Y) (l l' : list X) :
  map f l = map f l' -> Forall2 (fun x x' => f x = f x') l l'.
Proof.
  revert l'. induction l as [|x l IH]; intros [|x' l'] E; cbn in E;
    try discriminate; constructor.
  - injection E as E _. exact E.
  - apply IH. injection E as _ E. exact E.
Qed.

Section FixedPad.
Context {B : Backend}.
Variables (g : globals) (data : option sparse) (pad : Z) (expected : option vec).
Variables (local unbalanced cov_norm : bool).
Variables (rescale_pad : float) (rescale_size : Z) (coverage : option vec).

Lemma intervals_fixed_pad (w : window) :
  intervals pad false rescale_pad w =
  ((stBin w - pad, stBin w + pad + 1), (endBin w - pad, endBin w + pad + 1)).
Proof. reflexivity. Qed.

Lemma do_window_fixed_pad (st : pile) (w w' : window) :
  bins w = bins w' ->
  do_window g data pad expected local unbalanced cov_norm false
            rescale_pad rescale_size coverage st w =
  do_window g data pad expected local unbalanced cov_norm false
            rescale_pad rescale_size coverage st w'.
Proof.
  intros E. apply orient_same_bins in E. unfold bins in E. injection E as E1 E2.
  unfold do_window. rewrite !intervals_fixed_pad.
  unfold passes_filter. rewrite E1, E2. reflexivity.
Qed.

(** C8. Fixed-pad mode ignores the pads of the descriptors.  With
    [rescale = False] the window extracted for a descriptor is
    [[s - pad, s + pad + 1) x [e - pad, e + pad + 1)], where [s <= e] are its
    two bins and [pad] is the configured pad; and two streams of descriptors
    with the same bins, whatever their pads, give the same output map, the
    same count and the same coverage marginals (or the same exception). *)
Theorem fixed_pad_overrides_descriptor_pads (ws ws' : list window)
    (raised : option exn) :
  map bins ws = map bins ws' ->
  (forall w, intervals pad false rescale_pad (orient w) =
             ((Z.min (stBin w) (endBin w) - pad, Z.min (stBin w) (endBin w) + pad + 1),
              (Z.max (stBin w) (endBin w) - pad, Z.max (stBin w) (endBin w) + pad + 1))) /\
  _do_pileups g (ws, raised) data pad expected local unbalanced cov_norm false
              rescale_pad rescale_size coverage =
  _do_pileups g (ws', raised) data pad expected local unbalanced cov_norm false
              rescale_pad rescale_size coverage.
Proof.
  intros E. split.
  - intros w. rewrite intervals_fixed_pad. destruct (orient_bins w) as [-> ->].
    reflexivity.
  - unfold _do_pileups.
    destruct (make_outmap pad false rescale_size) as [e|mymap]; cbn [rbind fst snd];
      [reflexivity|].
    erewrite loop_windows_ext; [reflexivity|].
    apply map_eq_Forall2 in E.
    induction E as [|w w' l l' Hw _ IH]; constructor; [|exact IH].
    intros s. apply do_window_fixed_pad. exact Hw.
Qed.
End FixedPad.

(** ** The per-chromosome task *)

Lemma shape_zeros2 (s : nat) : shape (zeros2 s s) = (s, s).
Proof.
  unfold shape, zeros2. rewrite repeat_length.
  destruct s as [|s]; [reflexivity|]. cbn [repeat hd].
  unfold zeros. rewrite repeat_length. reflexivity.
Qed.

Section TaskFacts.
Context {B : Backend}.
Variables (g : globals) (rnd : rng).

Lemma make_outmap_side (cfg : config) :
  0 <= side cfg ->
  make_outmap (pad cfg) (rescale cfg) (rescale_size cfg) =
  inr (zeros2 (Z.to_nat (side cfg)) (Z.to_nat (side cfg))).
Proof.
  unfold side, make_outmap, np_zeros2. intros H.
  destruct (rescale cfg).
  - destruct (Z.ltb_spec (rescale_size cfg) 0); [lia | reflexivity].
  - destruct (Z.ltb_spec (2 * pad cfg + 1) 0); [lia | reflexivity].
Qed.

(** C10. Chromosomes with fewer than two rows.  For a loci table of fewer
    than two rows, one-sided or two-sided (paired mode), [pileups] returns
    the all-zero map of canonical shape, the window count 0 and all-zero
    coverage marginals, and reads no contact matrix: its log of reads is
    empty.  A chromosome carrying a single explicit locus pair is therefore
    dropped, not aggregated. *)
Theorem pileups_short_table (chrom : string) (mids : table) (ctrl : bool)
    (cfg : config) :
  (len mids < 2)%nat ->
  0 <= side cfg ->
  pileups g rnd (chrom, mids) ctrl cfg =
  ([], inr (zeros2 (Z.to_nat (side cfg)) (Z.to_nat (side cfg)), 0,
            zeros (Z.to_nat (side cfg)), zeros (Z.to_nat (side cfg)))).
Proof.
  intros Hlen Hside. unfold pileups.
  rewrite (make_outmap_side cfg Hside). cbn [lift bind].
  destruct (Nat.ltb_spec 1 (len mids)) as [H|H]; [lia|].
  cbn [negb bind ret app]. rewrite shape_zeros2. reflexivity.
Qed.

Lemma forallb_chr (chrom : string) (rows : list locus) :
  Forall (fun r => chr r = chrom) rows ->
  forallb (fun r => String.eqb (chr r) chrom) rows = true.
Proof.
  intros H. apply forallb_forall. rewrite Forall_forall in H.
  intros r Hr. apply String.eqb_eq. apply H. exact Hr.
Qed.

Lemma pileups_local_anchor (chrom : string) (rows : list locus) (ctrl : bool)
    (cfg : config) (a1 a2 : Z) (d : sparse) :
  local cfg = true ->
  anchor cfg = Some (chrom, a1, a2) ->
  combinations cfg = true ->
  expected cfg = None ->
  (2 <= length rows)%nat ->
  Forall (fun r => chr r = chrom) rows ->
  0 <= side cfg ->
  fetch chrom (negb (unbalanced cfg)) = inr d ->
  pileups g rnd (chrom, Loci rows) ctrl cfg =
  ([LoadData chrom (negb (unbalanced cfg))], inl ValueError).
Proof.
  intros Hlocal Hanchor Hcomb Hexp Hlen Hchr Hside Hfetch.
  unfold pileups, get_data, enumerate, check_chrom, _do_pileups.
  rewrite (make_outmap_side cfg Hside), Hlocal, Hanchor, Hcomb, Hexp, Hfetch.
  cbn [len lift bind].
  destruct (Nat.ltb_spec 1 (length rows)) as [_|H]; [|lia].
  rewrite (forallb_chr chrom rows Hchr), String.eqb_refl.
  destruct ctrl; cbn; reflexivity.
Qed.

Lemma filter_chr_Forall (chrom : string) (rows : list locus) :
  Forall (fun r => chr r = chrom) (filter (fun r => String.eqb (chr r) chrom) rows).
Proof.
  apply Forall_forall. intros r Hr. apply filter_In in Hr.
  apply String.eqb_eq. apply Hr.
Qed.

(** C5 (as amended). Local mode together with an anchor, on a one-sided loci
    table: the run fails with [ValueError], but only when the window
    generator is first asked for a window, which is after the contact matrix
    of the anchor's chromosome has been read: the log of the failed run holds
    exactly that one read.  This needs at least two loci on the anchor's
    chromosome. *)
Theorem local_with_anchor_fails_after_load (chrom : string) (rows : list locus)
    (cfg : config) (a1 a2 : Z) (d : sparse) :
  local cfg = true ->
  anchor cfg = Some (chrom, a1, a2) ->
  combinations cfg = true ->
  g_combinations g = true ->
  (2 <= length (filter (fun r => String.eqb (chr r) chrom) rows))%nat ->
  0 <= side cfg ->
  fetch chrom (negb (unbalanced cfg)) = inr d ->
  pileupsWithControl g rnd (Loci rows) [chrom] cfg =
  ([LoadData chrom (negb (unbalanced cfg))], inl ValueError).
Proof.
  intros Hlocal Hanchor Hcomb Hg Hlen Hside Hfetch.
  unfold pileupsWithControl, chrom_mids, run_passes.
  rewrite Hg. cbn [map collect rbind lift bind pool_map].
  rewrite (pileups_local_anchor chrom _ false (with_expected None cfg) a1 a2 d);
    try assumption; try reflexivity.
  apply filter_chr_Forall.
Qed.
End TaskFacts.

(** ** The Normalizer *)

Lemma rel_M_bind {X Y X' Y' : Type} (R : X -> Y -> Prop) (S : X' -> Y' -> Prop)
    (a : M X) (b : M Y) (k : X -> M X') (k' : Y -> M Y') :
  rel_M R a b ->
  (forall x y, R x y -> rel_M S (k x) (k' y)) ->
  rel_M S (bind a k) (bind b k').
Proof.
  intros [Ht Hr] Hk. destruct a as [t [e|x]], b as [t' [e'|y]]; cbn in *;
    try contradiction; subst.
  - split; [reflexivity | reflexivity].
  - specialize (Hk x y Hr). destruct (k x) as [t1 r1], (k' y) as [t2 r2].
    destruct Hk as [Hk1 Hk2]. cbn in *. subst. split; [reflexivity | exact Hk2].
Qed.

Lemma rel_M_eq {X : Type} (a b : M X) : rel_M eq a b -> a = b.
Proof.
  intros [Ht Hr]. destruct a as [t [e|x]], b as [t' [e'|y]]; cbn in *;
    try contradiction; subst; reflexivity.
Qed.

Lemma rel_M_refl {X : Type} (a : M X) : rel_M eq a a.
Proof. split; [reflexivity|]. destruct (snd a); reflexivity. Qed.

Lemma pool_map_rel {X Y Y' : Type} (R : Y -> Y' -> Prop)
    (f : X -> M Y) (f' : X -> M Y') (tasks : list X) :
  (forall t, rel_M R (f t) (f' t)) ->
  rel_M (Forall2 R) (pool_map f tasks) (pool_map f' tasks).
Proof.
  intros Hf. induction tasks as [|t tasks IH]; cbn [pool_map].
  - split; [reflexivity | constructor].
  - apply (rel_M_bind R); [apply Hf|]. intros y y' Hy.
    apply (rel_M_bind (Forall2 R)); [exact IH|]. intros ys ys' Hys.
    split; [reflexivity | constructor; assumption].
Qed.

Lemma Forall2_map_eq {X Y Z : Type} (f : X -> Z) (f' : Y -> Z) (l : list X)
    (l' : list Y) :
  Forall2 (fun x y => f x = f' y) l l' -> map f l = map f' l'.
Proof.
  induction 1 as [|x y l l' H _ IH]; cbn; [reflexivity | rewrite H, IH; reflexivity].
Qed.

Section NormalizerFacts.
Context {B : Backend}.

Lemma genome_marginals_spec (cov_starts cov_ends : list vec) :
  genome_marginals cov_starts cov_ends =
  rbind (vsum cov_starts) (fun s => inr (s, s)).
Proof.
  unfold genome_marginals. destruct (vsum cov_starts); reflexivity.
Qed.

Lemma reduce_pass_same (normalise : bool) (results results' : list pile) :
  Forall2 same_but_cov_end results results' ->
  reduce_pass normalise results = reduce_pass normalise results'.
Proof.
  intros H. unfold reduce_pass. cbv zeta.
  rewrite !genome_marginals_spec.
  assert (E : map fst results = map fst results')
    by (apply Forall2_map_eq; exact H).
  rewrite <- !(map_map fst (fun q => fst (fst q))).
  rewrite <- !(map_map fst (fun q => snd (fst q))).
  rewrite <- !(map_map fst (fun q => snd q)).
  rewrite E. reflexivity.
Qed.

(** C9. Genome-wide coverage normalisation uses [cov_start] twice.  Both
    marginals handed to [norm_coverage] are the sum over chromosomes of the
    per-chromosome [cov_start] arrays, and the [cov_end] arrays returned by
    the per-chromosome tasks have no influence on the final map: replacing
    the tasks of the observed, control and expected passes by tasks that
    differ only in the [cov_end] they return leaves the outcome of the
    normalisation unchanged. *)
Theorem cov_end_never_used (cfg : config) (tasks : list (string * table))
    (f_loops f_ctrls f_exps f_loops' f_ctrls' f_exps' : string * table -> M pile) :
  (forall t, rel_M same_but_cov_end (f_loops t) (f_loops' t)) ->
  (forall t, rel_M same_but_cov_end (f_ctrls t) (f_ctrls' t)) ->
  (forall t, rel_M same_but_cov_end (f_exps t) (f_exps' t)) ->
  (forall cov_starts cov_ends s,
      vsum cov_starts = inr s ->
      genome_marginals cov_starts cov_ends = inr (s, s)) /\
  run_passes cfg tasks f_loops f_ctrls f_exps =
  run_passes cfg tasks f_loops' f_ctrls' f_exps'.
Proof.
  intros Hl Hc He. split.
  - intros cs ce s Hs. rewrite genome_marginals_spec, Hs. reflexivity.
  - apply rel_M_eq. unfold run_passes.
    apply (rel_M_bind (Forall2 same_but_cov_end)); [apply pool_map_rel, Hl|].
    intros r r' Hr. rewrite (reduce_pass_same _ r r' Hr).
    apply (rel_M_bind eq); [apply rel_M_refl|]. intros loop ? <-.
    destruct (0 <? nshifts cfg).
    + apply (rel_M_bind (Forall2 same_but_cov_end)); [apply pool_map_rel, Hc|].
      intros c c' Hcc. rewrite (reduce_pass_same _ c c' Hcc). apply rel_M_refl.
    + destruct (expected cfg); [|apply rel_M_refl].
      apply (rel_M_bind (Forall2 same_but_cov_end)); [apply pool_map_rel, He|].
      intros x x' Hx. rewrite (reduce_pass_same _ x x' Hx). apply rel_M_refl.
Qed.

Lemma nth_map2 {X Y Z : Type} (f : X -> Y -> Z) (a : list X) (b : list Y)
    (dx : X) (dy : Y) (dz : Z) (i : nat) :
  (i < length a)%nat -> (i < length b)%nat ->
  nth i (map2 f a b) dz = f (nth i a dx) (nth i b dy).
Proof.
  revert b i. induction a as [|x a IH]; intros [|y b] i Ha Hb; cbn in *; try lia.
  destruct i as [|i]; [reflexivity|]. apply IH; lia.
Qed.

Lemma length_map2 {X Y Z : Type} (f : X -> Y -> Z) (a : list X) (b : list Y) :
  length (map2 f a b) = Nat.min (length a) (length b).
Proof.
  revert b. induction a as [|x a IH]; intros [|y b]; cbn; try reflexivity.
  rewrite IH. reflexivity.
Qed.

Lemma has_shape_snd (m : mat) (h w : nat) :
  has_shape m h w -> m = [] \/ snd (shape m) = w.
Proof.
  intros [_ H]. destruct m as [|row m]; [left; reflexivity|].
  right. inversion H; subst. reflexivity.
Qed.

Lemma collect_broadcast_rows (w : nat) (m : mat) :
  Forall (fun row => length row = w) m ->
  collect (map (broadcast_axis w) m) = inr m.
Proof.
  induction 1 as [|row m Hrow _ IH]; cbn [map collect]; [reflexivity|].
  unfold broadcast_axis at 1. rewrite Hrow, Nat.eqb_refl. cbn [rbind].
  rewrite IH. reflexivity.
Qed.

Lemma elementwise_same_shape (f : float -> float -> float) (a b : mat) (h w : nat) :
  has_shape a h w -> has_shape b h w ->
  (rows <~ collect (map (broadcast_axis (snd (shape a))) b) ;;
   rows' <~ broadcast_axis (fst (shape a)) rows ;;
   inr (map2 (map2 f) a rows'))%pileup = inr (map2 (map2 f) a b).
Proof.
  intros Ha Hb. pose proof (has_shape_snd a h w Ha) as Hs.
  destruct Ha as [Hah Haw], Hb as [Hbh Hbw].
  destruct Hs as [-> | Hs].
  - cbn in Hah. subst h. destruct b; [reflexivity | discriminate].
  - rewrite Hs, (collect_broadcast_rows w b Hbw). cbn [rbind shape fst].
    unfold broadcast_axis. rewrite Hah, Hbh, Nat.eqb_refl. reflexivity.
Qed.

Lemma map2_has_shape (f : float -> float -> float) (a b : mat) (h w : nat) :
  has_shape a h w -> has_shape b h w -> has_shape (map2 (map2 f) a b) h w.
Proof.
  intros [Hah Haw] [Hbh Hbw]. split.
  - rewrite length_map2. lia.
  - clear Hah Hbh. revert b Hbw.
    induction Haw as [|ra a Hra _ IH]; intros [|rb b] Hbw; cbn; constructor.
    + inversion Hbw; subst. rewrite length_map2. lia.
    + inversion Hbw; subst. apply IH. assumption.
Qed.

Lemma map2_entry (f : float -> float -> float) (a b : mat) (h w i j : nat) :
  has_shape a h w -> has_shape b h w -> (i < h)%nat -> (j < w)%nat ->
  entry fzero (map2 (map2 f) a b) i j = f (entry fzero a i j) (entry fzero b i j).
Proof.
  intros [Hah Haw] [Hbh Hbw] Hi Hj. unfold entry.
  rewrite (nth_map2 (map2 f) a b [] [] []) by lia.
  rewrite Forall_forall in Haw, Hbw.
  apply nth_map2.
  - rewrite (Haw (nth i a [])); [exact Hj | apply nth_In; lia].
  - rewrite (Hbw (nth i b [])); [exact Hj | apply nth_In; lia].
Qed.

Lemma zero_nans_no_nan (m : mat) : no_nan (zero_nans m).
Proof.
  unfold no_nan, zero_nans. apply Forall_forall. intros row Hrow.
  apply in_map_iff in Hrow. destruct Hrow as (row0 & <- & _).
  apply Forall_forall. intros x Hx.
  apply in_map_iff in Hx. destruct Hx as (x0 & <- & _).
  destruct (is_nan x0) eqn:E; [reflexivity | exact E].
Qed.

Lemma zero_nans_has_shape (m : mat) (h w : nat) :
  has_shape m h w -> has_shape (zero_nans m) h w.
Proof.
  intros [Hh Hw]. split; unfold zero_nans.
  - rewrite length_map. exact Hh.
  - apply Forall_forall. intros row Hrow.
    apply in_map_iff in Hrow. destruct Hrow as (row0 & <- & Hin).
    rewrite length_map. rewrite Forall_forall in Hw. apply Hw. exact Hin.
Qed.

Lemma scaled_outer_has_shape (a b : vec) (x : float) :
  has_shape (mdiv_scalar (outer a b) x) (length a) (length b).
Proof.
  split; unfold mdiv_scalar, outer.
  - rewrite !length_map. reflexivity.
  - apply Forall_forall. intros row Hrow.
    apply in_map_iff in Hrow. destruct Hrow as (row0 & <- & Hin).
    apply in_map_iff in Hin. destruct Hin as (y & <- & _).
    rewrite !length_map. reflexivity.
Qed.

End NormalizerFacts.

(** ** The ControlShifter *)

Lemma randint_range (rnd : rng) (k : nat) (lo hi : Z) :
  lo < hi -> lo <= randint rnd k lo hi < hi.
Proof.
  intros H. unfold randint.
  pose proof (Z.mod_pos_bound (rnd k) (hi - lo)). lia.
Qed.

Lemma sign_int_cases (x : float) :
  sign_int x = -1 \/ sign_int x = 0 \/ sign_int x = 1.
Proof.
  unfold sign_int. destruct (x <? 0)%float; [left; reflexivity|].
  destruct (0 <? x)%float; [right; right | right; left]; reflexivity.
Qed.

Lemma shifted_copies_spec (rnd : rng) (minbin maxbin : Z) (w : window)
    (count k : nat) :
  minbin < maxbin ->
  length (shifted_copies rnd minbin maxbin w count k) = count /\
  Forall (control_of minbin maxbin w) (shifted_copies rnd minbin maxbin w count k).
Proof.
  intros H. revert k. induction count as [|count IH]; intros k; cbn [shifted_copies].
  - split; [reflexivity | constructor].
  - destruct (IH (S (S k))) as [Hlen Hall]. split; [cbn; rewrite Hlen; reflexivity|].
    constructor; [|exact Hall].
    unfold control_of. cbn [stBin endBin stPad endPad].
    split; [reflexivity|]. split; [reflexivity|].
    exists (randint rnd k minbin maxbin), (sign_int (random rnd (S k) - 0.5)%float).
    split; [reflexivity|]. split; [reflexivity|].
    split; [apply randint_range; exact H | apply sign_int_cases].
Qed.

Lemma shifted_all_zero (rnd : rng) (minbin maxbin : Z) (ws : list window) (k : nat) :
  shifted_all rnd minbin maxbin ws 0 k = [].
Proof.
  revert k. induction ws as [|w ws IH]; intros k; cbn [shifted_all shifted_copies app];
    [reflexivity | apply IH].
Qed.

(** X8. What [controlRegions] does yield when the range of shifts is not empty:
    per input descriptor a group of [nshifts] control descriptors, each with
    the pads of its input and both bins moved by the same amount, a
    magnitude in [[minshift // res, maxshift // res)] times a sign that is
    -1, 1 or, when [np.random.random()] returns 0.5, 0. *)
Lemma controlRegions_groups (rnd : rng) (ws : list window) (raised : option exn)
    (res minshift maxshift nshifts : Z) :
  minshift / res < maxshift / res ->
  0 <= nshifts ->
  exists groups,
    controlRegions rnd (ws, raised) res minshift maxshift nshifts
      = (concat groups, raised) /\
    Forall2 (fun w grp =>
               Z.of_nat (length grp) = nshifts /\
               Forall (control_of (minshift / res) (maxshift / res) w) grp)
            ws groups.
Proof.
  intros Hrange Hn. unfold controlRegions. cbn [fst snd].
  destruct (Z.leb_spec (maxshift / res) (minshift / res)) as [H|_]; [lia|].
  set (minbin := minshift / res) in *. set (maxbin := maxshift / res) in *.
  assert (Hgen : forall k,
    exists groups,
      shifted_all rnd minbin maxbin ws (Z.to_nat nshifts) k = concat groups /\
      Forall2 (fun w grp =>
                 Z.of_nat (length grp) = nshifts /\
                 Forall (control_of minbin maxbin w) grp) ws groups).
  { induction ws as [|w ws IH]; intros k.
    - exists []. split; [reflexivity | constructor].
    - destruct (IH (k + 2 * Z.to_nat nshifts)%nat) as (groups & E & HF).
      destruct (shifted_copies_spec rnd minbin maxbin w (Z.to_nat nshifts) k Hrange)
        as [Hlen Hall].
      exists (shifted_copies rnd minbin maxbin w (Z.to_nat nshifts) k :: groups).
      split; [cbn [shifted_all concat]; rewrite E; reflexivity|].
      constructor; [|exact HF]. split; [lia | exact Hall]. }
  destruct (Hgen 0%nat) as (groups & E & HF).
  destruct ws as [|w ws].
  - inversion HF; subst. exists []. split; [reflexivity | constructor].
  - destruct (Z.to_nat nshifts) as [|c] eqn:Ec.
    + exists groups. split; [|exact HF]. rewrite <- E.
      rewrite shifted_all_zero. reflexivity.
    + exists groups. rewrite E. split; [reflexivity | exact HF].
Qed.

(** C4. When [np.random.random()] returns exactly 0.5, the sign drawn by
    [controlRegions] is 0 and the control descriptor is the input descriptor
    itself: its shift is 0, which is not in [[10, 100)], the range of
    magnitudes for [minshift = 10^5], [maxshift = 10^6] and 10 kb bins. *)
Theorem controlRegions_zero_sign :
  random ex_rnd_half 1 = 0.5%float /\
  sign_int (random ex_rnd_half 1 - 0.5)%float = 0 /\
  controlRegions ex_rnd_half ([mkWindow 50 60 2 2], None) 10000 100000 1000000 1
    = ([mkWindow 50 60 2 2], None) /\
  ~ (100000 / 10000 <= Z.abs (50 - 50) < 1000000 / 10000).
Proof.
  split; [reflexivity|]. split; [reflexivity|]. split; [reflexivity|].
  cbn. lia.
Qed.

(** ** Configuration checks *)

Lemma check_rescale_size_accepts (rescale_size : Z) :
  check_rescale_size true rescale_size = inr tt <-> rescale_size mod 3 = 0.
Proof.
  unfold check_rescale_size. cbn [andb].
  destruct (Z.eqb_spec (rescale_size mod 3) 0) as [E|E]; cbn [negb]; split;
    intros H; try reflexivity; try assumption; try discriminate; contradiction.
Qed.

(** C6. The check on [rescale_size] tests divisibility by 3, not parity:
    with rescaling enabled the even size 6 is accepted and the odd size 5 is
    refused with [ValueError]. *)
Theorem check_rescale_size_even_odd :
  check_rescale_size true 6 = inr tt /\
  check_rescale_size true 5 = inl ValueError /\
  check_modes false true 6 None false false false = inr tt.
Proof. repeat split. Qed.

(** The command line checks let local mode and an anchor through together
    when the loci file is one-sided. *)
Lemma check_modes_local_anchor :
  check_modes false false 99 (Some ex_anchor) true false false = inr tt.
Proof. reflexivity. Qed.

(** ** Runs on the example data *)

(** On an all-zero contact matrix the observed and the control averages are
    both 0 and the final map is NaN everywhere; on an all-one matrix whose
    control windows fall outside the chromosome it is infinite. *)
Lemma final_map_not_finite :
  outcome (@pileupsWithControl (ex_backend 0) ex_globals ex_rnd (Loci ex_rows)
             ["chr1"%string] ex_cfg)
    = inr (repeat (repeat nan 5) 5) /\
  outcome (@pileupsWithControl (ex_backend 1) ex_globals ex_rnd (Loci ex_rows)
             ["chr1"%string] ex_cfg)
    = inr (repeat (repeat infinity 5) 5) /\
  mdiv_into [[0%float]] [[0%float]] = inr [[nan]] /\
  ~ no_nan [[nan]].
Proof.
  split; [vm_compute; reflexivity|].
  split; [vm_compute; reflexivity|].
  split; [vm_compute; reflexivity|].
  intros H. inversion H as [|row rows Hrow _]; subst.
  inversion Hrow as [|x xs Hx _]; subst. vm_compute in Hx. discriminate Hx.
Qed.

Lemma get_expected_matrix_shape_entry_witness :
  exists m,
    get_expected_matrix (0, 3) (1, 4) ex_curve false = inr m /\
    shape m = (Z.to_nat (3 - 0), Z.to_nat (4 - 1)) /\
    entry fzero m 2 0 =
      let d := (1 + Z.of_nat 0) - (0 + Z.of_nat 2) in
      if (d <? 0) && negb false then fzero else expected_at ex_curve d.
Proof.
  apply (get_expected_matrix_shape_entry 0 3 1 4 ex_curve false 2 0);
    cbn; lia.
Defined.

(** A near-diagonal window outside local mode: the entry below the diagonal
    is 0, not the curve at distance 1; and a window with intervals of
    different widths has the wrong shape and is read one bin too far. *)
Lemma get_expected_matrix_not_abs_distance :
  (exists m,
      get_expected_matrix (0, 3) (1, 4) ex_curve false = inr m /\
      entry fzero m 2 0 = 0%float /\
      nth (Z.abs_nat ((1 + 0) - (0 + 2))) ex_curve fzero = 2%float /\
      entry fzero m 2 0 <> nth (Z.abs_nat ((1 + 0) - (0 + 2))) ex_curve fzero) /\
  (exists m,
      get_expected_matrix (0, 1) (2, 5) ex_curve false = inr m /\
      shape m = (2, 2)%nat /\
      entry fzero m 0 0 = 4%float /\
      nth (Z.abs_nat ((2 + 0) - (0 + 0))) ex_curve fzero = 3%float).
Proof.
  split.
  - eexists. split; [vm_compute; reflexivity|].
    split; [reflexivity|]. split; [reflexivity|].
    intros H. apply (f_equal PrimFloat.is_zero) in H. vm_compute in H. discriminate H.
  - eexists. split; [vm_compute; reflexivity|]. repeat split.
Qed.

Lemma distance_filter_excludes_witness :
  ~ (false = true \/
     @in_range (ex_backend 1) ex_globals_mindist (mkWindow 10 12 0 0)) /\
  @do_window (ex_backend 1) ex_globals_mindist (Some (ex_ones 40)) 2 None
     false false false false 1%float 41 None ex_pile (mkWindow 10 12 0 0)
    = inr ex_pile /\
  @_do_pileups (ex_backend 1) ex_globals_mindist
     ([mkWindow 10 30 0 0] ++ mkWindow 10 12 0 0 :: [mkWindow 12 25 0 0], None)
     (Some (ex_ones 40)) 2 None false false false false 1%float 41 None
  = @_do_pileups (ex_backend 1) ex_globals_mindist
     ([mkWindow 10 30 0 0] ++ [mkWindow 12 25 0 0], None)
     (Some (ex_ones 40)) 2 None false false false false 1%float 41 None.
Proof.
  assert (H : ~ (false = true \/
                 @in_range (ex_backend 1) ex_globals_mindist (mkWindow 10 12 0 0))).
  { intros [H | [H _]]; [discriminate H | cbn in H; lia]. }
  split; [exact H|].
  exact (@distance_filter_excludes (ex_backend 1) ex_globals_mindist
           (Some (ex_ones 40)) 2 None false false false false 1%float 41 None
           ex_pile (mkWindow 10 12 0 0) [mkWindow 10 30 0 0] [mkWindow 12 25 0 0]
           None H).
Defined.

Lemma local_with_anchor_fails_after_load_witness :
  @pileupsWithControl (ex_backend 1) ex_globals ex_rnd (Loci ex_rows)
     ["chr1"%string] ex_cfg_local_anchor
  = ([LoadData "chr1" true], inl ValueError).
Proof.
  apply (@local_with_anchor_fails_after_load (ex_backend 1) ex_globals ex_rnd
           "chr1"%string ex_rows ex_cfg_local_anchor 100000 120000 (ex_ones 40));
    try reflexivity; cbn; lia.
Defined.

(** With local mode and an anchor both set, the command line checks pass,
    the contact matrix of the anchor's chromosome is read, and only then does
    the run fail; with a single locus on that chromosome it does not fail at
    all. *)
Lemma local_with_anchor_reads_matrix_first :
  check_modes false false 99 (Some ex_anchor) true false false = inr tt /\
  trace_of (@pileupsWithControl (ex_backend 1) ex_globals ex_rnd (Loci ex_rows)
              ["chr1"%string] ex_cfg_local_anchor)
    = [LoadData "chr1" true] /\
  outcome (@pileupsWithControl (ex_backend 1) ex_globals ex_rnd (Loci ex_rows)
             ["chr1"%string] ex_cfg_local_anchor)
    = inl ValueError /\
  @pileupsWithControl (ex_backend 1) ex_globals ex_rnd
     (Loci [mkLocus "chr1" 100000 0]) ["chr1"%string] ex_cfg_local_anchor
    = ([], inr (repeat (repeat nan 5) 5)).
Proof.
  split; [reflexivity|]. split; [vm_compute; reflexivity|].
  split; vm_compute; reflexivity.
Qed.

Lemma fixed_pad_overrides_descriptor_pads_witness :
  map bins [mkWindow 10 20 0 0; mkWindow 30 12 1 1]
    = map bins [mkWindow 10 20 5 7; mkWindow 30 12 9 0] /\
  (forall w, @intervals (ex_backend 1) 2 false 1%float (orient w) =
             ((Z.min (stBin w) (endBin w) - 2, Z.min (stBin w) (endBin w) + 2 + 1),
              (Z.max (stBin w) (endBin w) - 2, Z.max (stBin w) (endBin w) + 2 + 1))) /\
  @_do_pileups (ex_backend 1) ex_globals
     ([mkWindow 10 20 0 0; mkWindow 30 12 1 1], None)
     (Some (ex_ones 40)) 2 None false false false false 1%float 41 None
  = @_do_pileups (ex_backend 1) ex_globals
     ([mkWindow 10 20 5 7; mkWindow 30 12 9 0], None)
     (Some (ex_ones 40)) 2 None false false false false 1%float 41 None.
Proof.
  split; [reflexivity|].
  apply (@fixed_pad_overrides_descriptor_pads (ex_backend 1) ex_globals
           (Some (ex_ones 40)) 2 None false false false 1%float 41 None
           [mkWindow 10 20 0 0; mkWindow 30 12 1 1]
           [mkWindow 10 20 5 7; mkWindow 30 12 9 0] None).
  reflexivity.
Defined.

Lemma ex_task_same (a b : vec) (t : string * table) :
  rel_M same_but_cov_end (ex_task a t) (ex_task b t).
Proof. split; reflexivity. Qed.

Lemma cov_end_never_used_witness :
  (forall cov_starts cov_ends s,
      vsum cov_starts = inr s ->
      genome_marginals cov_starts cov_ends = inr (s, s)) /\
  @run_passes (ex_backend 1) ex_cfg_cov [("chr1"%string, Loci ex_rows)]
     (ex_task [5; 6]%float) (ex_task [5; 6]%float) (ex_task [5; 6]%float)
  = @run_passes (ex_backend 1) ex_cfg_cov [("chr1"%string, Loci ex_rows)]
     (ex_task [7; 8]%float) (ex_task [9; 0]%float) (ex_task [1; 1]%float).
Proof.
  apply (@cov_end_never_used (ex_backend 1) ex_cfg_cov
           [("chr1"%string, Loci ex_rows)]); intros t; apply ex_task_same.
Defined.

Lemma pileups_short_table_witness :
  @pileups (ex_backend 1) ex_globals ex_rnd ("chr1"%string, Pairs [ex_pair])
     false ex_cfg_paired
  = ([], inr (zeros2 5 5, 0, zeros 5, zeros 5)).
Proof.
  apply (@pileups_short_table (ex_backend 1) ex_globals ex_rnd "chr1"%string
           (Pairs [ex_pair]) false ex_cfg_paired); cbn; lia.
Defined.

(** * Further properties of the engine *)

(** ** ExpectedMatrixBuilder, in general *)

(** The matrix for two intervals of any widths: with [L] the sum of the two
    widths minus one, it has [L/2 + 1] rows and [L - L/2] columns, and it
    reads the (padded) curve along its diagonals, starting at the signed
    distance [lo_right - hi_left + 1] in the bottom-left corner. *)
Lemma expected_matrix_general
    (lo_left hi_left lo_right hi_right : Z) (expected : vec) (local : bool) :
  lo_left < hi_left ->
  lo_right < hi_right ->
  lo_left < hi_right ->
  hi_right - lo_left <= Z.of_nat (length expected) ->
  (local = true -> hi_left - lo_right - 1 < hi_right - lo_left) ->
  exists m,
    get_expected_matrix (lo_left, hi_left) (lo_right, hi_right) expected local = inr m /\
    let L := Z.to_nat ((hi_left - lo_left) + (hi_right - lo_right) - 1) in
    shape m = (L / 2 + 1, L - L / 2)%nat /\
    forall i j, (i <= L / 2)%nat -> (L / 2 + j < L)%nat ->
      entry fzero m i j =
        let d := (lo_right - hi_left + 1) + Z.of_nat (L / 2 + j - i) in
        if (d <? 0) && negb local then fzero else expected_at expected d.
Proof.
  intros Hwl Hwr Hpos Hlen Hrefl.
  set (L := Z.to_nat ((hi_left - lo_left) + (hi_right - lo_right) - 1)).
  assert (HL : Z.of_nat L = (hi_left - lo_left) + (hi_right - lo_right) - 1)
    by (unfold L; lia).
  assert (Hhalf : (L / 2 < L)%nat) by (apply Nat.div_lt; lia).
  unfold get_expected_matrix, expected_at. cbv zeta.
  destruct (Z.ltb_spec (lo_right - hi_left + 1) 0) as [Hlo|Hlo].
  - set (sub := py_slice expected 0 (hi_right - lo_left)).
    set (m := Z.to_nat (- (lo_right - hi_left + 1))).
    assert (Hm0 : Z.of_nat m = - (lo_right - hi_left + 1)) by (unfold m; lia).
    clearbody m.
    assert (Hsub : length sub = Z.to_nat (hi_right - lo_left))
      by (unfold sub; rewrite py_slice_length by lia; f_equal; lia).
    assert (Hnth : forall k, (k < length sub)%nat ->
                             nth k sub fzero = nth k expected fzero).
    { intros k Hk. unfold sub. rewrite (py_slice_nth fzero) by lia. reflexivity. }
    assert (Hpad : exists y,
      (if local then pad_reflect_left fzero m sub
       else inr (pad_constant_left fzero m sub)) = inr y /\
      length y = (m + length sub)%nat /\
      forall k, nth k y fzero =
        if (k <? m)%nat then (if local then nth (m - k) sub fzero else fzero)
        else nth (k - m) sub fzero).
    { destruct local.
      - specialize (Hrefl eq_refl).
        assert (H2 : (2 <= length sub)%nat) by lia.
        assert (Hm : (m < length sub)%nat) by lia.
        destruct (pad_reflect_left_nth fzero m 0 sub H2 Hm) as (y & Hy & Hly & _).
        exists y. split; [exact Hy|]. split; [exact Hly|].
        intros k.
        destruct (pad_reflect_left_nth fzero m k sub H2 Hm) as (y' & Hy' & _ & Hk).
        rewrite Hy in Hy'. injection Hy' as <-. exact Hk.
      - eexists. split; [reflexivity|]. split.
        + unfold pad_constant_left. rewrite length_app, repeat_length. reflexivity.
        + intros k. apply pad_constant_left_nth. }
    destruct Hpad as (y & -> & Hly & Hy). cbn [rbind].
    eexists. split; [reflexivity|].
    assert (HyL : length y = L) by lia.
    rewrite HyL. split.
    + rewrite toeplitz_split_shape by lia. f_equal; lia.
    + intros i j Hi Hj. rewrite toeplitz_split_entry by lia. rewrite Hy.
      destruct (Z.ltb_spec (lo_right - hi_left + 1 + Z.of_nat (L / 2 + j - i)) 0)
        as [Hd|Hd]; cbn [andb].
      * destruct (Nat.ltb_spec (L / 2 + j - i) m); [|lia].
        destruct local; cbn [negb]; [|reflexivity].
        rewrite Hnth by lia. f_equal. lia.
      * destruct (Nat.ltb_spec (L / 2 + j - i) m); [lia|].
        rewrite Hnth by lia. f_equal. lia.
  - set (sub := py_slice expected (lo_right - hi_left + 1) (hi_right - lo_left)).
    assert (Hsub : length sub = L).
    { unfold sub. rewrite py_slice_length by lia. lia. }
    eexists. split; [reflexivity|].
    rewrite Hsub. split.
    + rewrite toeplitz_split_shape by lia. f_equal; lia.
    + intros i j Hi Hj. rewrite toeplitz_split_entry by lia.
      unfold sub. rewrite (py_slice_nth fzero) by lia.
      destruct (Z.ltb_spec (lo_right - hi_left + 1 + Z.of_nat (L / 2 + j - i)) 0);
        [lia|]. cbn [andb]. f_equal. lia.
Qed.

(** X1. Shape of the expected matrix for intervals of any widths (outside
    local mode, curve long enough): with [wl] and [wr] the widths of the left
    and right interval and [L = wl + wr - 1], the matrix has [L/2 + 1] rows
    and [L - L/2] columns.  That is the shape [wl] by [wr] of the window
    exactly when [wr = wl] or [wr = wl - 1]. *)
Theorem get_expected_matrix_shape
    (lo_left hi_left lo_right hi_right : Z) (expected : vec) :
  lo_left < hi_left ->
  lo_right < hi_right ->
  lo_left < hi_right ->
  hi_right - lo_left <= Z.of_nat (length expected) ->
  exists m,
    get_expected_matrix (lo_left, hi_left) (lo_right, hi_right) expected false = inr m /\
    let wl := Z.to_nat (hi_left - lo_left) in
    let wr := Z.to_nat (hi_right - lo_right) in
    shape m = ((wl + wr - 1) / 2 + 1, wl + wr - 1 - (wl + wr - 1) / 2)%nat /\
    (shape m = (wl, wr) <-> (wr = wl \/ wr + 1 = wl)%nat).
Proof.
  intros Hwl Hwr Hpos Hlen.
  destruct (expected_matrix_general lo_left hi_left lo_right hi_right expected false
              Hwl Hwr Hpos Hlen) as (m & Hm & Hshape & _); [discriminate|].
  exists m. split; [exact Hm|]. cbv zeta in *.
  set (wl := Z.to_nat (hi_left - lo_left)).
  set (wr := Z.to_nat (hi_right - lo_right)).
  replace (Z.to_nat (hi_left - lo_left + (hi_right - lo_right) - 1))
    with (wl + wr - 1)%nat in Hshape by (unfold wl, wr; lia).
  split; [exact Hshape|]. rewrite Hshape.
  assert (Hwl1 : (1 <= wl)%nat) by (unfold wl; lia).
  assert (Hwr1 : (1 <= wr)%nat) by (unfold wr; lia).
  pose proof (Nat.div_mod_eq (wl + wr - 1) 2) as Hdiv.
  assert (Hmod : ((wl + wr - 1) mod 2 < 2)%nat) by (apply Nat.mod_upper_bound; lia).
  clearbody wl wr.
  rewrite pair_equal_spec. lia.
Qed.

(** X2. The expected matrix of a local window (the same interval on both
    sides, curve at least as long as the interval) is square, holds
    [expected[|j - i|]] at [(i, j)], and is therefore symmetric with
    [expected[0]] on its diagonal. *)
Theorem get_expected_matrix_local_symmetric (lo hi : Z) (expected : vec) (i j : nat) :
  lo < hi ->
  hi - lo <= Z.of_nat (length expected) ->
  Z.of_nat i < hi - lo ->
  Z.of_nat j < hi - lo ->
  exists m,
    get_expected_matrix (lo, hi) (lo, hi) expected true = inr m /\
    shape m = (Z.to_nat (hi - lo), Z.to_nat (hi - lo)) /\
    entry fzero m i j = expected_at expected (Z.of_nat j - Z.of_nat i) /\
    entry fzero m i j = entry fzero m j i /\
    entry fzero m i i = nth 0 expected fzero.
Proof.
  intros Hw Hlen Hi Hj.
  destruct (expected_matrix_general lo hi lo hi expected true) as (m & Hm & Hshape & He);
    try lia.
  exists m. split; [exact Hm|]. cbv zeta in *.
  set (w := Z.to_nat (hi - lo)) in *.
  replace (Z.to_nat (hi - lo + (hi - lo) - 1)) with (2 * w - 1)%nat in *
    by (unfold w; lia).
  assert (Hhalf : ((2 * w - 1) / 2 = w - 1)%nat).
  { symmetry. apply Nat.div_unique with (r := 1%nat); unfold w; lia. }
  rewrite Hhalf in *.
  assert (Hentry : forall a b, (a < w)%nat -> (b < w)%nat ->
            entry fzero m a b = expected_at expected (Z.of_nat b - Z.of_nat a)).
  { intros a b Ha Hb. rewrite He by lia. cbn [negb andb]. rewrite andb_false_r.
    f_equal. unfold w in *. lia. }
  split; [rewrite Hshape; f_equal; unfold w; lia|].
  assert (Hiw : (i < w)%nat) by (unfold w; lia).
  assert (Hjw : (j < w)%nat) by (unfold w; lia).
  split; [apply Hentry; assumption|]. split.
  - rewrite !Hentry by assumption. unfold expected_at. f_equal. lia.
  - rewrite Hentry by assumption. unfold expected_at. f_equal. lia.
Qed.

Lemma get_expected_matrix_is_toeplitz (left_interval right_interval : Z * Z)
    (expected : vec) (local : bool) (m : mat) :
  get_expected_matrix left_interval right_interval expected local = inr m ->
  exists c r, m = toeplitz fzero c r.
Proof.
  destruct left_interval as [lo_left hi_left], right_interval as [lo_right hi_right].
  unfold get_expected_matrix.
  destruct (lo_right - hi_left + 1 <? 0).
  - destruct (if local then _ else _) as [e|y]; cbn [rbind]; intros H;
      [discriminate H|]. injection H as <-. eexists _, _. reflexivity.
  - intros H. injection H as <-. eexists _, _. reflexivity.
Qed.

(** X3. Whatever the intervals and the curve, a matrix returned by
    [get_expected_matrix] is constant along its diagonals: moving one row
    down and one column right does not change the entry. *)
Theorem get_expected_matrix_toeplitz (left_interval right_interval : Z * Z)
    (expected : vec) (local : bool) (m : mat) (i j : nat) :
  get_expected_matrix left_interval right_interval expected local = inr m ->
  (S i < fst (shape m))%nat ->
  (S j < snd (shape m))%nat ->
  entry fzero m (S i) (S j) = entry fzero m i j.
Proof.
  intros Hm Hi Hj.
  destruct (get_expected_matrix_is_toeplitz _ _ _ _ _ Hm) as (c & r & ->).
  assert (Hc : c <> []).
  { intros ->. cbn in Hi. lia. }
  rewrite (toeplitz_shape fzero c r Hc) in Hi, Hj. cbn [fst snd] in Hi, Hj.
  rewrite !toeplitz_entry by lia.
  cbn [Nat.leb Nat.sub]. reflexivity.
Qed.

Lemma in_firstn_or_skipn {A : Type} (n : nat) (l : list A) (x : A) :
  In x (firstn n l) \/ In x (skipn n l) -> In x l.
Proof.
  intros H. rewrite <- (firstn_skipn n l). apply in_or_app. exact H.
Qed.

Lemma py_slice_nil {A : Type} (lo hi : Z) : @py_slice A [] lo hi = [].
Proof. unfold py_slice. rewrite skipn_nil. apply firstn_nil. Qed.

Lemma nth_all_default {A : Type} (d : A) (l : list A) (k : nat) :
  Forall (eq d) l -> nth k l d = d.
Proof.
  intros H. destruct (nth_in_or_default k l d) as [Hin|E]; [|exact E].
  rewrite Forall_forall in H. symmetry. apply H. exact Hin.
Qed.

Lemma toeplitz_all_default {A : Type} (d : A) (c r : list A) :
  Forall (eq d) c -> Forall (eq d) r -> Forall (Forall (eq d)) (toeplitz d c r).
Proof.
  intros Hc Hr. unfold toeplitz. apply Forall_forall. intros row Hrow.
  apply in_map_iff in Hrow. destruct Hrow as (a & <- & _).
  apply Forall_forall. intros x Hx.
  apply in_map_iff in Hx. destruct Hx as (b & <- & _).
  destruct (b <=? a)%nat; symmetry; apply nth_all_default; assumption.
Qed.

(** X4. With an empty expected curve (a chromosome that the expected table
    does not list) and outside local mode, [get_expected_matrix] raises
    nothing: it returns a matrix whose entries are all 0. *)
Theorem get_expected_matrix_empty_curve (left_interval right_interval : Z * Z) :
  exists m,
    get_expected_matrix left_interval right_interval [] false = inr m /\
    Forall (Forall (eq fzero)) m.
Proof.
  destruct left_interval as [lo_left hi_left], right_interval as [lo_right hi_right].
  unfold get_expected_matrix. rewrite !py_slice_nil.
  assert (Hz : forall n, Forall (eq fzero) (pad_constant_left fzero n [])).
  { intros n. unfold pad_constant_left. rewrite app_nil_r.
    apply Forall_forall. intros x Hx. apply repeat_spec in Hx. symmetry. exact Hx. }
  assert (Hsub : forall (l : vec) k, Forall (eq fzero) l ->
            Forall (eq fzero) (py_downfrom l k) /\ Forall (eq fzero) (py_from l k)).
  { intros l k Hl. rewrite Forall_forall in Hl. unfold py_downfrom, py_from.
    split; apply Forall_forall; intros x Hx; apply Hl.
    - apply in_rev in Hx. apply (in_firstn_or_skipn (S k)). left. exact Hx.
    - apply (in_firstn_or_skipn k). right. exact Hx. }
  destruct (lo_right - hi_left + 1 <? 0); cbn [rbind];
    eexists; (split; [reflexivity|]); apply toeplitz_all_default;
    first [apply Hsub, Hz | apply Hsub; constructor].
Qed.

(** ** WindowEnumerator *)

Lemma length_combinations2 {A : Type} (l : list A) :
  (2 * length (combinations2 l) = length l * (length l - 1))%nat.
Proof.
  induction l as [|x t IH]; [reflexivity|].
  cbn [combinations2 length]. rewrite length_app, length_map. nia.
Qed.

Lemma combine_map_map {A B C : Type} (f : A -> B) (h : A -> C) (l : list A) :
  combine (map f l) (map h l) = map (fun x => (f x, h x)) l.
Proof.
  induction l as [|x t IH]; [reflexivity|]. cbn. rewrite IH. reflexivity.
Qed.

Lemma combine_append {A B : Type} (a1 a2 : list A) (b1 b2 : list B) :
  length a1 = length b1 ->
  combine (a1 ++ a2) (b1 ++ b2) = combine a1 b1 ++ combine a2 b2.
Proof.
  revert b1. induction a1 as [|x a1 IH]; intros [|y b1] H; cbn in *;
    try discriminate; [reflexivity|]. rewrite IH by congruence. reflexivity.
Qed.

Lemma combine_combinations2 {A B C : Type} (f : A -> B) (h : A -> C) (l : list A) :
  combine (combinations2 (map f l)) (combinations2 (map h l)) =
  map (fun ab => ((f (fst ab), f (snd ab)), (h (fst ab), h (snd ab))))
      (combinations2 l).
Proof.
  induction l as [|x t IH]; [reflexivity|].
  cbn [map combinations2]. rewrite combine_append by (rewrite !length_map; reflexivity).
  rewrite IH, map_app. f_equal.
  rewrite !map_map. clear IH. induction t as [|y t IHt]; [reflexivity|].
  cbn. rewrite IHt. reflexivity.
Qed.

Lemma in_combinations2 {A : Type} (l : list A) (a b : A) :
  In (a, b) (combinations2 l) <->
  exists l1 l2 l3, l = l1 ++ a :: l2 ++ b :: l3.
Proof.
  induction l as [|x t IH].
  - split; [intros [] | intros (l1 & l2 & l3 & E)]. destruct l1; discriminate E.
  - cbn [combinations2]. rewrite in_app_iff, in_map_iff, IH. split.
    + intros [(y & E & Hy) | (l1 & l2 & l3 & E)].
      * injection E as <- <-. apply in_split in Hy. destruct Hy as (l2 & l3 & ->).
        exists [], l2, l3. reflexivity.
      * exists (x :: l1), l2, l3. rewrite E. reflexivity.
    + intros (l1 & l2 & l3 & E). destruct l1 as [|z l1]; cbn in E; injection E as -> ->.
      * left. exists b. split; [reflexivity|]. apply in_or_app. right. left. reflexivity.
      * right. exists l1, l2, l3. reflexivity.
Qed.

(** X5. How many windows [get_combinations] yields for [n] loci: with
    neither local mode nor an anchor, the [n (n - 1) / 2] pairs; with one of
    the two, [n]; with both it yields nothing and raises [ValueError].  In
    the first three cases it raises nothing. *)
Theorem get_combinations_count (mids : list locus) (res : Z) (local : bool)
    (anchor : option anchor_t) :
  match local, anchor with
  | true, Some _ => get_combinations mids res local anchor = ([], Some ValueError)
  | false, None =>
      snd (get_combinations mids res local anchor) = None /\
      (2 * length (fst (get_combinations mids res local anchor))
       = length mids * (length mids - 1))%nat
  | _, _ =>
      snd (get_combinations mids res local anchor) = None /\
      length (fst (get_combinations mids res local anchor)) = length mids
  end.
Proof.
  unfold get_combinations. destruct local, anchor as [[[ac a1] a2]|]; cbn [fst snd].
  - reflexivity.
  - split; [reflexivity|]. rewrite combine_map_map, !length_map. reflexivity.
  - split; [reflexivity|]. rewrite combine_map_map, !length_map. reflexivity.
  - split; [reflexivity|].
    rewrite combine_combinations2, !length_map. apply length_combinations2.
Qed.

(** X6. Which windows [get_combinations] yields with neither local mode nor
    an anchor: exactly those that pair a locus of the table with a locus
    further down the table, the earlier one as start and the later one as
    end, each bin with the pad of its own locus. *)
Theorem get_combinations_pairs (mids : list locus) (res : Z) (w : window) :
  In w (fst (get_combinations mids res false None)) <->
  exists l1 a l2 b l3,
    mids = l1 ++ a :: l2 ++ b :: l3 /\
    w = mkWindow (Mids a / res) (Mids b / res)
                 (floordiv_Q (Pad a) res) (floordiv_Q (Pad b) res).
Proof.
  unfold get_combinations. cbn [fst].
  rewrite combine_combinations2, map_map, in_map_iff. cbn [fst snd]. split.
  - intros ([a b] & <- & Hab). apply in_combinations2 in Hab.
    destruct Hab as (l1 & l2 & l3 & E). exists l1, a, l2, b, l3.
    split; [exact E | reflexivity].
  - intros (l1 & a & l2 & b & l3 & E & ->). exists (a, b).
    split; [reflexivity|]. apply in_combinations2. exists l1, l2, l3. exact E.
Qed.

(** X7. In local mode [get_combinations] yields one window per locus, in the
    order of the table, on the diagonal (start bin = end bin, start pad = end
    pad); such a window is left as it is by the orientation step and passes
    the distance filter whatever [mindist] and [maxdist] are. *)
Theorem get_combinations_local {B : Backend} (g : globals) (mids : list locus) (res : Z) :
  fst (get_combinations mids res true None)
    = map (fun r => mkWindow (Mids r / res) (Mids r / res)
                             (floordiv_Q (Pad r) res) (floordiv_Q (Pad r) res)) mids /\
  Forall (fun w => stBin w = endBin w /\ stPad w = endPad w /\
                   orient w = w /\ passes_filter g true w = true)
         (fst (get_combinations mids res true None)).
Proof.
  assert (E : fst (get_combinations mids res true None)
              = map (fun r => mkWindow (Mids r / res) (Mids r / res)
                       (floordiv_Q (Pad r) res) (floordiv_Q (Pad r) res)) mids).
  { unfold get_combinations. cbn [fst]. rewrite combine_map_map, map_map. reflexivity. }
  split; [exact E|]. rewrite E. apply Forall_forall. intros w Hw.
  apply in_map_iff in Hw. destruct Hw as (r & <- & _). cbn [stBin endBin stPad endPad].
  repeat split.
  - unfold orient. cbn [stBin endBin]. rewrite Z.ltb_irrefl. reflexivity.
  - unfold passes_filter. apply orb_true_r.
Qed.

(** ** Invariants of the aggregation loop *)

Lemma broadcast_axis_length {A : Type} (n : nat) (l l' : list A) :
  broadcast_axis n l = inr l' -> length l' = n.
Proof.
  unfold broadcast_axis. destruct (Nat.eqb_spec (length l) n) as [E|_].
  - intros H. injection H as <-. exact E.
  - destruct l as [|x [|y l]]; intros H; try discriminate H.
    injection H as <-. apply repeat_length.
Qed.

Lemma broadcast_axis_In {A : Type} (n : nat) (l l' : list A) (x : A) :
  broadcast_axis n l = inr l' -> In x l' -> In x l.
Proof.
  unfold broadcast_axis. destruct (length l =? n)%nat.
  - intros H. injection H as <-. exact (fun H => H).
  - destruct l as [|y [|z l]]; intros H; try discriminate H.
    injection H as <-. intros Hx. apply repeat_spec in Hx. left. symmetry. exact Hx.
Qed.

Lemma collect_Forall2 {A : Type} (rs : list (result A)) (xs : list A) :
  collect rs = inr xs -> Forall2 (fun r x => r = inr x) rs xs.
Proof.
  revert xs. induction rs as [|r rs IH]; intros xs; cbn [collect].
  - intros H. injection H as <-. constructor.
  - destruct r as [e|x]; cbn [rbind]; [discriminate|].
    destruct (collect rs) as [e|ys]; cbn [rbind]; [discriminate|].
    intros H. injection H as <-. constructor; [reflexivity | apply IH; reflexivity].
Qed.

Lemma Forall_map2 {X Y Z : Type} (P : X -> Prop) (Q : Y -> Prop) (R : Z -> Prop)
    (f : X -> Y -> Z) (a : list X) (b : list Y) :
  Forall P a -> Forall Q b -> (forall x y, P x -> Q y -> R (f x y)) ->
  Forall R (map2 f a b).
Proof.
  intros Ha. revert b. induction Ha as [|x a Hx _ IH]; intros b Hb Hf;
    [constructor|]. destruct Hb as [|y b Hy Hb]; cbn [map2]; constructor.
  - apply Hf; assumption.
  - apply IH; assumption.
Qed.

Lemma madd_into_has_shape (a b r : mat) (h w : nat) :
  has_shape a h w -> madd_into a b = inr r -> has_shape r h w.
Proof.
  intros Ha. pose proof (has_shape_snd a h w Ha) as Hs. destruct Ha as [Hah Haw].
  unfold madd_into.
  destruct (collect (map (broadcast_axis (snd (shape a))) b)) as [e|rows] eqn:Ec;
    cbn [rbind]; [discriminate|].
  destruct (broadcast_axis (fst (shape a)) rows) as [e|rows'] eqn:Eb;
    cbn [rbind]; [discriminate|].
  intros H. injection H as <-.
  pose proof (broadcast_axis_length _ _ _ Eb) as Hlen. cbn [shape fst] in Hlen.
  split; [rewrite length_map2; lia|].
  destruct Hs as [-> | Hs]; [constructor|].
  apply (Forall_map2 (fun row => length row = w) (fun row => length row = w));
    [exact Haw | | intros x y Hx Hy; rewrite length_map2; lia].
  apply Forall_forall. intros row Hrow.
  apply (broadcast_axis_In _ _ _ _ Eb) in Hrow.
  apply collect_Forall2 in Ec.
  assert (Hall : Forall (fun x : vec => length x = w) rows).
  { clear -Ec Hs. remember (map (broadcast_axis (snd (shape a))) b) as rs eqn:Ers.
    revert b Ers. induction Ec as [|r0 x rs xs Hr _ IH]; intros b Ers; [constructor|].
    destruct b as [|b0 b]; [discriminate Ers|]. cbn [map] in Ers.
    injection Ers as -> ->. constructor; [|apply (IH b); reflexivity].
    apply broadcast_axis_length in Hr. cbn [shape snd] in *. rewrite Hr. exact Hs. }
  rewrite Forall_forall in Hall. apply Hall. exact Hrow.
Qed.

Lemma vadd_into_length (a b r : vec) : vadd_into a b = inr r -> length r = length a.
Proof.
  unfold vadd_into.
  destruct (broadcast_axis (length a) b) as [e|b'] eqn:Eb; cbn [rbind]; [discriminate|].
  intros H. injection H as <-. apply broadcast_axis_length in Eb.
  rewrite length_map2. lia.
Qed.

Lemma has_shape_zeros2 (h w : nat) : has_shape (zeros2 h w) h w.
Proof.
  split; unfold zeros2, zeros.
  - apply repeat_length.
  - apply Forall_forall. intros row Hrow. apply repeat_spec in Hrow. subst row.
    apply repeat_length.
Qed.

Ltac state_unchanged :=
  let H := fresh in
  let h := fresh in
  intros H; injection H as <- <- <- <-;
  split; [intros ? ? h; exact h|];
  split; [reflexivity|]; split; [reflexivity|];
  split; [left; reflexivity | intros _; split; reflexivity].

Section LoopInvariants.
Context {B : Backend}.
Variables (g : globals) (data : option sparse) (pad : Z) (expected : option vec).
Variables (local unbalanced cov_norm rescale : bool).
Variables (rescale_pad : float) (rescale_size : Z) (coverage : option vec).

(** What one iteration keeps: the shape of the map, the lengths of the
    marginals, a count that grows by at most one and only for a window that
    passes the filter, and untouched marginals when coverage is not
    accumulated. *)
Lemma do_window_keeps (m m' : mat) (n n' : Z) (cs cs' ce ce' : vec) (w : window) :
  do_window g data pad expected local unbalanced cov_norm rescale
            rescale_pad rescale_size coverage (m, n, cs, ce) w
    = inr (m', n', cs', ce') ->
  (forall h k, has_shape m h k -> has_shape m' h k) /\
  length cs' = length cs /\ length ce' = length ce /\
  (n' = n \/ (n' = n + 1 /\ passes_filter g local w = true)) /\
  (accumulates_coverage unbalanced cov_norm expected = false -> cs' = cs /\ ce' = ce).
Proof.
  unfold do_window, accumulates_coverage.
  rewrite (passes_filter_orient g local w).
  destruct (passes_filter g local w) eqn:Ef.
  2:{ state_unchanged. }
  destruct (extract _ _ _ _) as [e|[newmap|]]; cbn [rbind]; [discriminate| |].
  2:{ state_unchanged. }
  destruct (fit m newmap rescale rescale_size) as [e|fitted]; cbn [rbind];
    [discriminate|].
  destruct (madd_into m _) as [e|m1] eqn:Em; cbn [rbind]; [discriminate|].
  destruct (unbalanced && cov_norm && _) eqn:Ecov.
  - destruct (coverage_slices _ _ _ _ _) as [e|[ncs nce]]; cbn [rbind]; [discriminate|].
    destruct (vadd_into cs _) as [e|cs1] eqn:Ecs; cbn [rbind]; [discriminate|].
    destruct (vadd_into ce _) as [e|ce1] eqn:Ece; cbn [rbind]; [discriminate|].
    intros H. injection H as <- <- <- <-.
    split; [intros h k Hm; eapply madd_into_has_shape; eassumption|].
    split; [eapply vadd_into_length; eassumption|].
    split; [eapply vadd_into_length; eassumption|].
    split; [right; split; reflexivity | discriminate].
  - intros H. injection H as <- <- <- <-.
    split; [intros h k Hm; eapply madd_into_has_shape; eassumption|].
    split; [reflexivity|]. split; [reflexivity|].
    split; [right; split; reflexivity | intros _; split; reflexivity].
Qed.

Lemma loop_windows_keeps (ws : list window) (m m' : mat) (n n' : Z)
    (cs cs' ce ce' : vec) :
  loop_windows
    (do_window g data pad expected local unbalanced cov_norm rescale
               rescale_pad rescale_size coverage) (m, n, cs, ce) ws
    = inr (m', n', cs', ce') ->
  (forall h k, has_shape m h k -> has_shape m' h k) /\
  length cs' = length cs /\ length ce' = length ce /\
  n <= n' <= n + Z.of_nat (length (filter (passes_filter g local) ws)) /\
  (accumulates_coverage unbalanced cov_norm expected = false -> cs' = cs /\ ce' = ce).
Proof.
  revert m n cs ce. induction ws as [|w ws IH]; intros m n cs ce; cbn [loop_windows].
  - intros H. injection H as <- <- <- <-. cbn [filter length].
    split; [intros h k Hm; exact Hm|]. split; [reflexivity|]. split; [reflexivity|].
    split; [lia | intros _; split; reflexivity].
  - destruct (do_window _ _ _ _ _ _ _ _ _ _ _ _ w) as [e|[[[m1 n1] cs1] ce1]] eqn:Ew;
      cbn [rbind]; [discriminate|].
    intros H. apply do_window_keeps in Ew. apply IH in H.
    destruct Ew as (S1 & L1 & L2 & N1 & C1), H as (S2 & L3 & L4 & N2 & C2).
    split; [intros h k Hm; apply S2, S1, Hm|].
    split; [congruence|]. split; [congruence|]. split.
    + cbn [filter]. destruct N1 as [-> | [-> Hp]].
      * destruct (passes_filter g local w); cbn [length]; lia.
      * rewrite Hp. cbn [length]. lia.
    + intros Hc. destruct (C1 Hc) as [<- <-]. apply C2, Hc.
Qed.

Lemma _do_pileups_keeps (mids : gen window) (m : mat) (n : Z) (cs ce : vec) :
  _do_pileups g mids data pad expected local unbalanced cov_norm rescale
              rescale_pad rescale_size coverage = inr (m, n, cs, ce) ->
  let s := Z.to_nat (if rescale then rescale_size else 2 * pad + 1) in
  has_shape m s s /\ length cs = s /\ length ce = s /\
  0 <= n <= Z.of_nat (length (filter (passes_filter g local) (fst mids))) /\
  (accumulates_coverage unbalanced cov_norm expected = false ->
   cs = zeros s /\ ce = zeros s).
Proof.
  unfold _do_pileups, make_outmap.
  set (size := if rescale then rescale_size else 2 * pad + 1).
  replace (if rescale then np_zeros2 rescale_size else np_zeros2 (2 * pad + 1))
    with (np_zeros2 size) by (unfold size; destruct rescale; reflexivity).
  unfold np_zeros2. destruct (size <? 0); cbn [rbind]; [discriminate|].
  rewrite shape_zeros2. cbn [fst snd].
  destruct (loop_windows _ _ _) as [e|[[[m1 n1] cs1] ce1]] eqn:El; cbn [rbind];
    [discriminate|].
  destruct (snd mids); [discriminate|]. intros H. injection H as <- <- <- <-.
  apply loop_windows_keeps in El. destruct El as (S1 & L1 & L2 & N1 & C1).
  cbv zeta. split; [apply S1, has_shape_zeros2|].
  split; [rewrite L1; apply repeat_length|].
  split; [rewrite L2; apply repeat_length|].
  split; [lia | exact C1].
Qed.

(** X10. Shape invariant of the aggregation loop: whenever [_do_pileups]
    returns, the map is square with the canonical side ([rescale_size] when
    rescaling, [2 pad + 1] otherwise) and both coverage marginals have that
    length, whatever windows were processed. *)
Theorem _do_pileups_shape (mids : gen window) (m : mat) (n : Z) (cs ce : vec) :
  _do_pileups g mids data pad expected local unbalanced cov_norm rescale
              rescale_pad rescale_size coverage = inr (m, n, cs, ce) ->
  has_shape m (Z.to_nat (if rescale then rescale_size else 2 * pad + 1))
              (Z.to_nat (if rescale then rescale_size else 2 * pad + 1)) /\
  length cs = Z.to_nat (if rescale then rescale_size else 2 * pad + 1) /\
  length ce = Z.to_nat (if rescale then rescale_size else 2 * pad + 1).
Proof.
  intros H. apply _do_pileups_keeps in H. cbv zeta in H.
  destruct H as (H1 & H2 & H3 & _).
  split; [exact H1 | split; [exact H2 | exact H3]].
Qed.

(** X11. The window count returned by [_do_pileups] is never negative and
    never exceeds the number of descriptors of the stream that pass the
    distance filter. *)
Theorem _do_pileups_count_bound (mids : gen window) (m : mat) (n : Z) (cs ce : vec) :
  _do_pileups g mids data pad expected local unbalanced cov_norm rescale
              rescale_pad rescale_size coverage = inr (m, n, cs, ce) ->
  0 <= n <= Z.of_nat (length (filter (passes_filter g local) (fst mids))) /\
  n <= Z.of_nat (length (fst mids)).
Proof.
  intros H. apply _do_pileups_keeps in H. cbv zeta in H.
  destruct H as (_ & _ & _ & Hn & _). split; [exact Hn|].
  pose proof (filter_length_le (passes_filter g local) (fst mids)). lia.
Qed.

(** X12. Unless the data are unbalanced, coverage normalisation is on and
    no expected curve is used, [_do_pileups] leaves both coverage marginals
    at zero. *)
Theorem _do_pileups_marginals_untouched (mids : gen window) (m : mat) (n : Z)
    (cs ce : vec) :
  accumulates_coverage unbalanced cov_norm expected = false ->
  _do_pileups g mids data pad expected local unbalanced cov_norm rescale
              rescale_pad rescale_size coverage = inr (m, n, cs, ce) ->
  cs = zeros (Z.to_nat (if rescale then rescale_size else 2 * pad + 1)) /\
  ce = zeros (Z.to_nat (if rescale then rescale_size else 2 * pad + 1)).
Proof.
  intros Hc H. apply _do_pileups_keeps in H. cbv zeta in H.
  destruct H as (_ & _ & _ & _ & Hz). apply Hz. exact Hc.
Qed.
End LoopInvariants.

Section LoopSources.
Context {B : Backend}.
Variables (g : globals) (pad : Z) (local rescale : bool).
Variables (rescale_pad : float) (rescale_size : Z).

Lemma do_window_expected_only (e : vec) (data data' : option sparse)
    (unbalanced unbalanced' cov_norm cov_norm' : bool) (coverage coverage' : option vec)
    (st : pile) (w : window) :
  do_window g data pad (Some e) local unbalanced cov_norm rescale
            rescale_pad rescale_size coverage st w =
  do_window g data' pad (Some e) local unbalanced' cov_norm' rescale
            rescale_pad rescale_size coverage' st w.
Proof.
  unfold do_window, extract. destruct st as [[[m n] cs] ce].
  rewrite !andb_false_r. reflexivity.
Qed.

(** X13. With an expected curve, [_do_pileups] never looks at the contact
    matrix, at the coverage vector or at the [unbalanced] and [cov_norm]
    flags: changing any of them changes neither the result nor the
    exception. *)
Theorem _do_pileups_expected_ignores_data (mids : gen window) (e : vec)
    (data data' : option sparse) (unbalanced unbalanced' cov_norm cov_norm' : bool)
    (coverage coverage' : option vec) :
  _do_pileups g mids data pad (Some e) local unbalanced cov_norm rescale
              rescale_pad rescale_size coverage =
  _do_pileups g mids data' pad (Some e) local unbalanced' cov_norm' rescale
              rescale_pad rescale_size coverage'.
Proof.
  unfold _do_pileups.
  destruct (make_outmap pad rescale rescale_size) as [err|mymap]; cbn [rbind];
    [reflexivity|].
  erewrite loop_windows_ext; [reflexivity|].
  induction (fst mids) as [|w ws IH]; constructor; [|exact IH].
  intros s. apply do_window_expected_only.
Qed.

End LoopSources.

(** ** Windows at the ends of a chromosome *)




Lemma has_shape_map_map (f : float -> float) (m : mat) (h w : nat) :
  has_shape m h w -> has_shape (map (map f) m) h w.
Proof.
  intros [Hh Hw]. split; [rewrite length_map; exact Hh|].
  apply Forall_forall. intros row Hrow. apply in_map_iff in Hrow.
  destruct Hrow as (r0 & <- & Hin). rewrite length_map.
  rewrite Forall_forall in Hw. apply Hw, Hin.
Qed.



Section ClippedSlices.
Context {B : Backend}.



Section ClippedLoop.
Variables (g : globals) (d : sparse) (pad : Z) (local unbalanced cov_norm : bool).
Variables (rescale_pad : float) (rescale_size : Z) (coverage : option vec).



End ClippedLoop.

End ClippedSlices.

(** ** The per-chromosome task, continued *)

Lemma bind_lift_inr {X Y : Type} (a : X) (k : X -> M Y) : bind (lift (inr a)) k = k a.
Proof. unfold bind, lift. destruct (k a) as [t r]. reflexivity. Qed.

Lemma trace_bind_lift {X Y : Type} (r : result X) (k : X -> M Y) :
  trace_of (bind (lift r) k) =
  match r with inl _ => [] | inr a => trace_of (k a) end.
Proof.
  destruct r as [e|a]; [reflexivity|]. rewrite bind_lift_inr. reflexivity.
Qed.

Lemma outcome_bind_lift {X Y : Type} (r : result X) (k : X -> M Y) :
  outcome (bind (lift r) k) =
  match r with inl e => inl e | inr a => outcome (k a) end.
Proof.
  destruct r as [e|a]; [reflexivity|]. rewrite bind_lift_inr. reflexivity.
Qed.

Lemma trace_bind_silent {X Y : Type} (m : M X) (k : X -> M Y) :
  (forall a, trace_of (k a) = []) ->
  trace_of (bind m k) = trace_of m.
Proof.
  intros Hk. destruct m as [t [e|a]]; [reflexivity|].
  unfold bind. specialize (Hk a). destruct (k a) as [t' r].
  unfold trace_of in *. cbn [fst] in *. subst t'. apply app_nil_r.
Qed.

Ltac silent_tail :=
  repeat first
    [ reflexivity
    | rewrite trace_bind_silent; [reflexivity|]
    | let x := fresh in intros x; try destruct x as [? ?] ].

Section TaskInvariants.
Context {B : Backend}.
Variables (g : globals) (rnd : rng).

Lemma get_data_trace (chrom : string) (unbalanced local : bool) :
  trace_of (get_data chrom unbalanced local) = [LoadData chrom (negb unbalanced)].
Proof.
  unfold get_data, emit. cbn [bind].
  destruct (fetch chrom (negb unbalanced)) as [e|d]; reflexivity.
Qed.

(** X15. When [pileups] reads the contact matrix: exactly once, for its own
    chromosome, if the output shape is valid, the loci table has at least two
    rows and no expected table is given; in every other case, and whatever
    happens afterwards, not at all. *)
Theorem pileups_reads (chrom : string) (mids : table) (ctrl : bool) (cfg : config) :
  trace_of (pileups g rnd (chrom, mids) ctrl cfg) =
  match make_outmap (pad cfg) (rescale cfg) (rescale_size cfg), expected cfg with
  | inr _, None =>
      if (1 <? len mids)%nat then [LoadData chrom (negb (unbalanced cfg))] else []
  | _, _ => []
  end.
Proof.
  unfold pileups. rewrite trace_bind_lift.
  destruct (make_outmap (pad cfg) (rescale cfg) (rescale_size cfg)) as [e|mymap];
    [reflexivity|].
  destruct (1 <? len mids)%nat; cbn [negb].
  - destruct (expected cfg) as [rows|].
    + silent_tail.
    + rewrite trace_bind_silent by silent_tail.
      rewrite trace_bind_silent by silent_tail.
      apply get_data_trace.
  - rewrite trace_bind_lift. destruct (expected cfg); reflexivity.
Qed.

Lemma outcome_bind {X Y : Type} (m : M X) (k : X -> M Y) :
  outcome (bind m k) =
  match outcome m with inl e => inl e | inr a => outcome (k a) end.
Proof.
  destruct m as [t [e|a]]; [reflexivity|].
  unfold bind, outcome. cbn [snd]. destruct (k a) as [t' r]. reflexivity.
Qed.

Lemma zeros2_dims (s : nat) :
  length (zeros2 s s) = s /\ length (hd [] (zeros2 s s)) = s.
Proof.
  pose proof (shape_zeros2 s) as H. unfold shape in H.
  apply pair_equal_spec in H. exact H.
Qed.

Lemma outcome_lift {X : Type} (r : result X) : outcome (lift r) = r.
Proof. destruct r; reflexivity. Qed.

(** X16. The tasks built by [chrom_mids] are one per requested chromosome,
    in order, and the table of each task holds rows of that chromosome only:
    the chromosome assertion of the aggregation task holds for it. *)
Theorem chrom_mids_tasks (chroms : list string) (mids : table)
    (tasks : list (string * table)) :
  chrom_mids g chroms mids = inr tasks ->
  map fst tasks = chroms /\
  Forall (fun t => check_chrom (g_combinations g) (snd t) (fst t) = inr tt) tasks.
Proof.
  unfold chrom_mids. intros H. apply collect_Forall2 in H.
  remember (map _ chroms) as rs eqn:Ers. revert chroms Ers.
  induction H as [|r t rs ts Hr _ IH]; intros chroms Ers.
  - destruct chroms; [split; [reflexivity | constructor] | discriminate Ers].
  - destruct chroms as [|c chroms]; [discriminate Ers|]. cbn [map] in Ers.
    injection Ers as Er Ers. destruct (IH chroms Ers) as [IH1 IH2].
    assert (Ht : fst t = c /\
                 check_chrom (g_combinations g) (snd t) (fst t) = inr tt).
    { rewrite Er in Hr. clear Er. unfold check_chrom.
      destruct (g_combinations g), mids as [rows|rows]; try discriminate Hr;
        injection Hr as <-; cbn [fst snd]; (split; [reflexivity|]).
      - rewrite (proj2 (forallb_forall _ _)); [reflexivity|].
        intros x Hx. apply filter_In in Hx. apply Hx.
      - rewrite (proj2 (forallb_forall _ _)); [reflexivity|].
        intros x Hx. apply filter_In in Hx. apply Hx. }
    destruct Ht as [Ht1 Ht2]. split.
    + cbn [map]. rewrite Ht1, IH1. reflexivity.
    + constructor; assumption.
Qed.

Lemma pileups_returns (chrom : string) (mids : table) (ctrl : bool) (cfg : config)
    (t : list event) (p : pile) :
  pileups g rnd (chrom, mids) ctrl cfg = (t, inr p) ->
  (exists mymap,
      make_outmap (pad cfg) (rescale cfg) (rescale_size cfg) = inr mymap /\
      p = (mymap, 0, zeros (fst (shape mymap)), zeros (snd (shape mymap)))) \/
  (exists windows data exp coverage,
      _do_pileups g windows data (pad cfg) exp (local cfg) (unbalanced cfg)
                  (cov_norm cfg) (rescale cfg) (rescale_pad cfg) (rescale_size cfg)
                  coverage = inr p).
Proof.
  intros H0.
  assert (H : outcome (pileups g rnd (chrom, mids) ctrl cfg) = inr p)
    by (rewrite H0; reflexivity).
  clear H0. unfold pileups in H. rewrite outcome_bind, outcome_lift in H.
  destruct (make_outmap (pad cfg) (rescale cfg) (rescale_size cfg)) as [e|mymap] eqn:Eo;
    [discriminate H|].
  destruct (1 <? len mids)%nat; cbn [negb] in H.
  - right. rewrite outcome_bind in H.
    destruct (outcome _) as [e|[data exp]] in H; [discriminate H|].
    repeat (rewrite outcome_bind, outcome_lift in H;
            match type of H with
            | match ?r with inl _ => _ | inr _ => _ end = _ =>
                destruct r as [e|?]; [discriminate H|]
            end).
    rewrite outcome_lift in H. eauto.
  - left. exists mymap. split; [reflexivity|].
    rewrite outcome_bind, outcome_lift in H.
    unfold outcome, ret in H. cbn [snd] in H. injection H as <-. reflexivity.
Qed.

(** X17. Whenever [pileups] returns, with or without windows, the map is
    square with the canonical side, both coverage marginals have that length
    and the window count is not negative. *)
Theorem pileups_shape (chrom : string) (mids : table) (ctrl : bool) (cfg : config)
    (t : list event) (m : mat) (n : Z) (cs ce : vec) :
  pileups g rnd (chrom, mids) ctrl cfg = (t, inr (m, n, cs, ce)) ->
  has_shape m (Z.to_nat (side cfg)) (Z.to_nat (side cfg)) /\
  length cs = Z.to_nat (side cfg) /\
  length ce = Z.to_nat (side cfg) /\
  0 <= n.
Proof.
  intros H. apply pileups_returns in H.
  destruct H as [(mymap & Ho & E) | (windows & data & exp & coverage & H)].
  - injection E as -> -> -> ->. unfold make_outmap, np_zeros2 in Ho. unfold side.
    destruct (rescale cfg).
    + destruct (rescale_size cfg <? 0); [discriminate Ho|]. injection Ho as <-.
      match goal with
      | |- context [zeros2 ?a ?a] => destruct (zeros2_dims a) as [-> ->]
      end.
      split; [apply has_shape_zeros2|].
      unfold zeros. rewrite !repeat_length. repeat split; lia.
    + destruct (2 * pad cfg + 1 <? 0); [discriminate Ho|]. injection Ho as <-.
      match goal with
      | |- context [zeros2 ?a ?a] => destruct (zeros2_dims a) as [-> ->]
      end.
      split; [apply has_shape_zeros2|].
      unfold zeros. rewrite !repeat_length. repeat split; lia.
  - apply _do_pileups_keeps in H. cbv zeta in H. unfold side.
    destruct H as (H1 & H2 & H3 & H4 & _).
    split; [exact H1|]. split; [exact H2|]. split; [exact H3 | lia].
Qed.

Lemma controlRegions_empty_range (midcombs : gen window) (res minshift maxshift nshifts : Z) :
  fst midcombs <> [] ->
  0 < nshifts ->
  maxshift / res <= minshift / res ->
  controlRegions rnd midcombs res minshift maxshift nshifts = ([], Some ValueError).
Proof.
  intros Hne Hn Hr. unfold controlRegions.
  destruct (fst midcombs) as [|w ws]; [contradiction|].
  destruct (Z.to_nat nshifts) eqn:En; [lia|].
  destruct (Z.leb_spec (maxshift / res) (minshift / res)); [reflexivity | lia].
Qed.

Lemma get_combinations_nonempty (rows : list locus) (res : Z) (local : bool) :
  (2 <= length rows)%nat ->
  fst (get_combinations rows res local None) <> [].
Proof.
  intros H. destruct rows as [|a [|b rest]]; cbn in H; try lia.
  unfold get_combinations. destruct local; cbn; discriminate.
Qed.

(** X9. A control pass whose range of shifts is empty in bins
    ([maxshift // binsize <= minshift // binsize], as with bins larger than
    [maxshift]) fails: with at least two loci and at least one shift
    requested, [pileups] reads the contact matrix and then raises the
    [ValueError] of the first random draw, without aggregating anything. *)
Theorem pileups_control_empty_range (chrom : string) (rows : list locus)
    (cfg : config) (d : sparse) :
  combinations cfg = true ->
  anchor cfg = None ->
  expected cfg = None ->
  (2 <= length rows)%nat ->
  Forall (fun r => chr r = chrom) rows ->
  0 <= side cfg ->
  fetch chrom (negb (unbalanced cfg)) = inr d ->
  0 < nshifts cfg ->
  maxshift cfg / binsize <= minshift cfg / binsize ->
  pileups g rnd (chrom, Loci rows) true cfg =
  ([LoadData chrom (negb (unbalanced cfg))], inl ValueError).
Proof.
  intros Hcomb Hanchor Hexp Hlen Hchr Hside Hfetch Hn Hrange.
  unfold pileups, get_data, enumerate, check_chrom.
  rewrite (make_outmap_side cfg Hside), Hanchor, Hcomb, Hexp, Hfetch.
  cbn [len lift bind].
  destruct (Nat.ltb_spec 1 (length rows)) as [_|H]; [|lia].
  rewrite (forallb_chr chrom rows Hchr). cbn [rbind lift bind app].
  rewrite (controlRegions_empty_range _ _ _ _ _
             (get_combinations_nonempty rows binsize (local cfg) Hlen) Hn Hrange).
  unfold _do_pileups. rewrite (make_outmap_side cfg Hside). reflexivity.
Qed.
End TaskInvariants.

(** ** The Normalizer, end to end *)

(** *** float64 division by zero *)

Lemma is_zero_Prim2SF (x : float) :
  PrimFloat.is_zero x = true <-> exists s, Prim2SF x = S754_zero s.
Proof.
  unfold PrimFloat.is_zero. rewrite FloatAxioms.eqb_spec.
  change (Prim2SF zero) with (S754_zero false).
  destruct (Prim2SF x) as [s|s| |s m e]; cbn; split;
    try (intros H; discriminate H); try (intros [s' H]; discriminate H);
    try (destruct s; intros H; discriminate H); eauto.
Qed.

Lemma is_nan_Prim2SF (x : float) :
  PrimFloat.is_nan x = true <-> Prim2SF x = S754_nan.
Proof.
  unfold PrimFloat.is_nan. rewrite FloatAxioms.eqb_spec.
  destruct (Prim2SF x) as [s|s| |s m e]; cbn; split; intros H;
    try discriminate H; try reflexivity.
  - destruct s; discriminate H.
  - unfold SFeqb, SFcompare in H. destruct s.
    + rewrite Z.compare_refl in H.
      rewrite Pos.compare_cont_refl in H. discriminate H.
    + rewrite Z.compare_refl in H.
      rewrite Pos.compare_cont_refl in H. discriminate H.
Qed.

Lemma is_infinity_Prim2SF (x : float) :
  (exists s, Prim2SF x = S754_infinity s) -> PrimFloat.is_infinity x = true.
Proof.
  intros [s H]. unfold PrimFloat.is_infinity.
  rewrite FloatAxioms.eqb_spec, abs_spec, H. reflexivity.
Qed.

Lemma div_zero_by_zero (x y : float) :
  PrimFloat.is_zero x = true -> PrimFloat.is_zero y = true ->
  PrimFloat.is_nan (x / y) = true.
Proof.
  intros Hx Hy. apply is_zero_Prim2SF in Hx, Hy. destruct Hx as [sx Hx], Hy as [sy Hy].
  apply is_nan_Prim2SF. rewrite FloatAxioms.div_spec, Hx, Hy. reflexivity.
Qed.

Lemma div_nonzero_by_zero (x y : float) :
  PrimFloat.is_zero x = false -> PrimFloat.is_nan x = false ->
  PrimFloat.is_zero y = true ->
  PrimFloat.is_infinity (x / y) = true /\ PrimFloat.is_nan (x / y) = false.
Proof.
  intros Hx Hn Hy. apply is_zero_Prim2SF in Hy. destruct Hy as [sy Hy].
  assert (H : exists s, Prim2SF (x / y) = S754_infinity s).
  { rewrite FloatAxioms.div_spec, Hy.
    destruct (Prim2SF x) as [s|s| |s m e] eqn:E.
    - assert (PrimFloat.is_zero x = true) by (apply is_zero_Prim2SF; eauto). congruence.
    - eexists. reflexivity.
    - assert (PrimFloat.is_nan x = true) by (apply is_nan_Prim2SF; exact E). congruence.
    - eexists. reflexivity. }
  split; [apply is_infinity_Prim2SF; exact H|].
  destruct H as [s H]. destruct (PrimFloat.is_nan (x / y)) eqn:En; [|reflexivity].
  apply is_nan_Prim2SF in En. congruence.
Qed.

(** *** Entries of elementwise results *)

Lemma entry_map_map (f : float -> float) (m : mat) (h w i j : nat) :
  has_shape m h w -> (i < h)%nat -> (j < w)%nat ->
  entry fzero (map (map f) m) i j = f (entry fzero m i j).
Proof.
  intros [Hh Hw] Hi Hj. unfold entry.
  change (@nil float) with (map f []) at 1. rewrite map_nth.
  assert (Hrow : length (nth i m []) = w).
  { rewrite Forall_forall in Hw. apply Hw, nth_In. lia. }
  rewrite (nth_indep _ fzero (f fzero)) by (rewrite length_map; lia).
  apply map_nth.
Qed.

Lemma entry_outer (a b : vec) (i j : nat) :
  (i < length a)%nat -> (j < length b)%nat ->
  entry fzero (outer a b) i j = (nth i a fzero * nth j b fzero)%float.
Proof.
  intros Hi Hj. unfold entry, outer.
  rewrite (nth_indep _ [] (map (fun y => (fzero * y)%float) b))
    by (rewrite length_map; exact Hi).
  rewrite (map_nth (fun x => map (fun y => (x * y)%float) b) a fzero i).
  rewrite (nth_indep _ fzero (nth i a fzero * fzero)%float)
    by (rewrite length_map; exact Hj).
  apply (map_nth (fun y => (nth i a fzero * y)%float)).
Qed.

Section NormalizerEntries.
Context {B : Backend}.

Lemma norm_coverage_entries (summed : mat) (cov_start cov_end : vec) (h w : nat) :
  has_shape summed h w -> length cov_start = h -> length cov_end = w ->
  exists normed,
    norm_coverage summed cov_start cov_end = inr normed /\
    has_shape normed h w /\ no_nan normed /\
    forall i j, (i < h)%nat -> (j < w)%nat ->
      entry fzero normed i j =
      let q := (entry fzero summed i j
                / (nth i cov_start fzero * nth j cov_end fzero
                   / nanmean (outer cov_start cov_end)))%float in
      if is_nan q then fzero else q.
Proof.
  intros Hs Hcs Hce. unfold norm_coverage. cbv zeta.
  set (coverage := mdiv_scalar (outer cov_start cov_end) _).
  assert (Hcov : has_shape coverage h w)
    by (subst h w; apply scaled_outer_has_shape).
  assert (Ho : has_shape (outer cov_start cov_end) h w).
  { subst h w. split; unfold outer; [apply length_map|].
    apply Forall_forall. intros row Hrow. apply in_map_iff in Hrow.
    destruct Hrow as (x & <- & _). apply length_map. }
  unfold mdiv_into. rewrite (elementwise_same_shape _ summed coverage h w Hs Hcov).
  cbn [rbind]. eexists. split; [reflexivity|].
  pose proof (map2_has_shape PrimFloat.div summed coverage h w Hs Hcov) as Hq.
  split; [apply zero_nans_has_shape; exact Hq|].
  split; [apply zero_nans_no_nan|].
  intros i j Hi Hj. unfold zero_nans.
  rewrite (entry_map_map _ _ h w i j Hq Hi Hj).
  rewrite (map2_entry _ summed coverage h w i j Hs Hcov Hi Hj).
  unfold coverage, mdiv_scalar.
  rewrite (entry_map_map _ _ h w i j Ho Hi Hj).
  rewrite entry_outer by lia. reflexivity.
Qed.
End NormalizerEntries.

(** *** Shapes through a pass *)

Lemma pool_map_outcomes {X Y : Type} (f : X -> M Y) (tasks : list X) (ys : list Y) :
  outcome (pool_map f tasks) = inr ys ->
  Forall2 (fun t y => outcome (f t) = inr y) tasks ys.
Proof.
  revert ys. induction tasks as [|t tasks IH]; intros ys; cbn [pool_map].
  - unfold outcome, ret. cbn [snd]. intros H. injection H as <-. constructor.
  - rewrite outcome_bind. destruct (outcome (f t)) as [e|y] eqn:Ey; [discriminate|].
    rewrite outcome_bind. destruct (outcome (pool_map f tasks)) as [e|ys'] eqn:Eys;
      [discriminate|].
    unfold outcome, ret. cbn [snd]. intros H. injection H as <-.
    constructor; [exact Ey | apply IH; reflexivity].
Qed.

Lemma msum_from_has_shape (l : list mat) (acc r : mat) (s : nat) :
  has_shape acc s s -> Forall (fun m => has_shape m s s) l ->
  msum_from acc l = inr r -> has_shape r s s.
Proof.
  intros Hacc Hl. revert acc Hacc. induction Hl as [|m l Hm _ IH]; intros acc Hacc;
    cbn [msum_from].
  - intros H. injection H as <-. exact Hacc.
  - destruct (shape_eqb acc m); [|discriminate].
    apply IH. apply map2_has_shape; assumption.
Qed.

Lemma vsum_from_length (l : list vec) (acc r : vec) (s : nat) :
  length acc = s -> Forall (fun v => length v = s) l ->
  vsum_from acc l = inr r -> length r = s.
Proof.
  intros Hacc Hl. revert acc Hacc. induction Hl as [|v l Hv _ IH]; intros acc Hacc;
    cbn [vsum_from].
  - intros H. injection H as <-. exact Hacc.
  - destruct (length acc =? length v)%nat; [|discriminate].
    apply IH. rewrite length_map2. lia.
Qed.

Section PassShapes.
Context {B : Backend}.
Variables (g : globals) (rnd : rng).

Lemma reduce_pass_has_shape (normalise : bool) (results : list pile) (m : mat) (s : nat) :
  Forall (canonical s) results ->
  reduce_pass normalise results = inr m -> has_shape m s s.
Proof.
  intros Hres. unfold reduce_pass. cbv zeta.
  destruct (msum _) as [e|summed] eqn:Es; cbn [rbind]; [discriminate|].
  assert (Hsum : has_shape summed s s).
  { destruct results as [|p results]; [discriminate Es|]. cbn [map msum] in Es.
    inversion Hres as [|? ? Hp Hrest]; subst.
    apply (msum_from_has_shape _ _ _ s (proj1 Hp)) in Es; [exact Es|].
    apply Forall_forall. intros x Hx. apply in_map_iff in Hx.
    destruct Hx as (q & <- & Hq). rewrite Forall_forall in Hrest. apply Hrest, Hq. }
  destruct normalise.
  - rewrite genome_marginals_spec.
    destruct (vsum _) as [e|cov] eqn:Ev; cbn [rbind]; [discriminate|].
    assert (Hcov : length cov = s).
    { destruct results as [|p results]; [discriminate Ev|]. cbn [map vsum] in Ev.
      inversion Hres as [|? ? Hp Hrest]; subst.
      apply (vsum_from_length _ _ _ s (proj2 Hp)) in Ev; [exact Ev|].
      apply Forall_forall. intros x Hx. apply in_map_iff in Hx.
      destruct Hx as (q & <- & Hq). rewrite Forall_forall in Hrest. apply Hrest, Hq. }
    destruct (norm_coverage_entries summed cov cov s s Hsum Hcov Hcov)
      as (normed & -> & Hn & _). cbn [rbind].
    intros H. injection H as <-. apply has_shape_map_map. exact Hn.
  - cbn [rbind]. intros H. injection H as <-. apply has_shape_map_map. exact Hsum.
Qed.

Lemma pileups_canonical (t : string * table) (ctrl : bool) (cfg : config) (p : pile) :
  outcome (pileups g rnd t ctrl cfg) = inr p ->
  canonical (Z.to_nat (side cfg)) p.
Proof.
  intros H. destruct t as [chrom mids].
  destruct (pileups g rnd (chrom, mids) ctrl cfg) as [tr r] eqn:E.
  unfold outcome in H. cbn [snd] in H. subst r.
  apply pileups_returns in E.
  destruct E as [(mymap & Ho & ->) | (windows & data & exp & coverage & H)].
  - unfold canonical. cbn [fst snd]. unfold make_outmap, np_zeros2 in Ho. unfold side.
    destruct (rescale cfg).
    + destruct (rescale_size cfg <? 0); [discriminate Ho|]. injection Ho as <-.
      rewrite shape_zeros2. cbn [fst].
      split; [apply has_shape_zeros2 | apply repeat_length].
    + destruct (2 * pad cfg + 1 <? 0); [discriminate Ho|]. injection Ho as <-.
      rewrite shape_zeros2. cbn [fst].
      split; [apply has_shape_zeros2 | apply repeat_length].
  - destruct p as [[[m n] cs] ce]. apply _do_pileups_keeps in H. cbv zeta in H.
    unfold canonical, side. cbn [fst snd].
    destruct H as (H1 & H2 & _). split; assumption.
Qed.

Lemma pool_map_canonical (ctrl : bool) (cfg : config) (tasks : list (string * table))
    (results : list pile) :
  outcome (pool_map (fun t => pileups g rnd t ctrl cfg) tasks) = inr results ->
  Forall (canonical (Z.to_nat (side cfg))) results.
Proof.
  intros H. apply pool_map_outcomes in H.
  induction H as [|t p tasks results Hp _ IH]; constructor; [|exact IH].
  apply (pileups_canonical t ctrl cfg p Hp).
Qed.
End PassShapes.

Section NormalizerRun.
Context {B : Backend}.
Variables (g : globals) (rnd : rng).

Lemma run_passes_returns (cfg : config) (tasks : list (string * table))
    (f_loops f_ctrls f_exps : string * table -> M pile) (final : mat) :
  outcome (run_passes cfg tasks f_loops f_ctrls f_exps) = inr final ->
  exists obs loop,
    outcome (pool_map f_loops tasks) = inr obs /\
    reduce_pass (cov_norm cfg) obs = inr loop /\
    if 0 <? nshifts cfg then
      exists base baseline,
        outcome (pool_map f_ctrls tasks) = inr base /\
        reduce_pass (cov_norm cfg) base = inr baseline /\
        mdiv_into loop baseline = inr final
    else
      match expected cfg with
      | Some _ =>
          exists base baseline,
            outcome (pool_map f_exps tasks) = inr base /\
            reduce_pass false base = inr baseline /\
            mdiv_into loop baseline = inr final
      | None => final = loop
      end.
Proof.
  unfold run_passes. rewrite outcome_bind.
  destruct (outcome (pool_map f_loops tasks)) as [e|obs]; [discriminate|].
  rewrite outcome_bind, outcome_lift.
  destruct (reduce_pass (cov_norm cfg) obs) as [e|loop] eqn:Eloop; [discriminate|].
  intros H. exists obs, loop. split; [reflexivity|]. split; [exact Eloop|].
  destruct (0 <? nshifts cfg).
  - rewrite outcome_bind in H.
    destruct (outcome (pool_map f_ctrls tasks)) as [e|base]; [discriminate|].
    rewrite outcome_bind, outcome_lift in H.
    destruct (reduce_pass (cov_norm cfg) base) as [e|baseline] eqn:Eb; [discriminate|].
    rewrite outcome_lift in H. exists base, baseline.
    split; [reflexivity|]. split; [exact Eb | exact H].
  - destruct (expected cfg) as [rows|].
    + rewrite outcome_bind in H.
      destruct (outcome (pool_map f_exps tasks)) as [e|base]; [discriminate|].
      rewrite outcome_bind, outcome_lift in H.
      destruct (reduce_pass false base) as [e|baseline] eqn:Eb; [discriminate|].
      rewrite outcome_lift in H. exists base, baseline.
      split; [reflexivity|]. split; [exact Eb | exact H].
    + unfold outcome, ret in H. cbn [snd] in H. injection H as <-. reflexivity.
Qed.

(** C1 (as amended). The divisions of the Normalizer.

    The coverage-normalisation division, [norm_coverage], is the only one
    that replaces NaN by 0.  On a summed map and marginals of matching shape
    every entry of its result is the quotient of the map entry by the scaled
    coverage entry, with NaN replaced by 0: 0/0 gives 0 and the result holds
    no NaN, while a non-zero entry over a zero coverage stays infinite.

    The final division of [pileupsWithControl] replaces nothing.  Whenever a
    run with a control pass or an expected pass returns, the averaged
    observed map and the averaged baseline map have the canonical shape and
    every entry of the returned map is the float64 quotient of their
    corresponding entries: it is NaN where both are 0 and infinite where
    only the baseline is 0. *)
Theorem normalizer_divisions (summed : mat) (cov_start cov_end : vec) (h w : nat)
    (mids : table) (chroms : list string) (cfg : config) (final : mat) :
  has_shape summed h w ->
  length cov_start = h ->
  length cov_end = w ->
  0 < nshifts cfg \/ expected cfg <> None ->
  outcome (pileupsWithControl g rnd mids chroms cfg) = inr final ->
  (exists normed,
      norm_coverage summed cov_start cov_end = inr normed /\
      has_shape normed h w /\ no_nan normed /\
      forall i j, (i < h)%nat -> (j < w)%nat ->
        let x := entry fzero summed i j in
        let c := (nth i cov_start fzero * nth j cov_end fzero
                  / nanmean (outer cov_start cov_end))%float in
        entry fzero normed i j = (if is_nan (x / c) then fzero else (x / c)%float) /\
        (PrimFloat.is_zero x = true -> PrimFloat.is_zero c = true ->
         entry fzero normed i j = fzero) /\
        (PrimFloat.is_zero x = false -> is_nan x = false -> PrimFloat.is_zero c = true ->
         is_infinity (entry fzero normed i j) = true)) /\
  (exists tasks obs base loop baseline,
      chrom_mids g chroms mids = inr tasks /\
      outcome (pool_map (fun t => pileups g rnd t false (with_expected None cfg)) tasks)
        = inr obs /\
      outcome (pool_map (fun t => if 0 <? nshifts cfg
                                  then pileups g rnd t true (with_expected None cfg)
                                  else pileups g rnd t false cfg) tasks)
        = inr base /\
      reduce_pass (cov_norm cfg) obs = inr loop /\
      reduce_pass ((0 <? nshifts cfg) && cov_norm cfg) base = inr baseline /\
      has_shape loop (Z.to_nat (side cfg)) (Z.to_nat (side cfg)) /\
      has_shape baseline (Z.to_nat (side cfg)) (Z.to_nat (side cfg)) /\
      has_shape final (Z.to_nat (side cfg)) (Z.to_nat (side cfg)) /\
      forall i j, (i < Z.to_nat (side cfg))%nat -> (j < Z.to_nat (side cfg))%nat ->
        let x := entry fzero loop i j in
        let y := entry fzero baseline i j in
        entry fzero final i j = (x / y)%float /\
        (PrimFloat.is_zero x = true -> PrimFloat.is_zero y = true ->
         is_nan (entry fzero final i j) = true) /\
        (PrimFloat.is_zero x = false -> is_nan x = false -> PrimFloat.is_zero y = true ->
         is_infinity (entry fzero final i j) = true)).
Proof.
  intros Hs Hcs Hce Hbase Hrun. split.
  - destruct (norm_coverage_entries summed cov_start cov_end h w Hs Hcs Hce)
      as (normed & Hn & Hsh & Hnn & Hent).
    exists normed. split; [exact Hn|]. split; [exact Hsh|]. split; [exact Hnn|].
    intros i j Hi Hj. cbv zeta. rewrite (Hent i j Hi Hj). cbv zeta.
    split; [reflexivity|]. split.
    + intros Hx Hc. rewrite (div_zero_by_zero _ _ Hx Hc). reflexivity.
    + intros Hx Hnx Hc. destruct (div_nonzero_by_zero _ _ Hx Hnx Hc) as [Hinf Hnan].
      rewrite Hnan. exact Hinf.
  - unfold pileupsWithControl in Hrun. rewrite outcome_bind, outcome_lift in Hrun.
    destruct (chrom_mids g chroms mids) as [e|tasks]; [discriminate|].
    apply run_passes_returns in Hrun. destruct Hrun as (obs & loop & Hobs & Hloop & Hrest).
    pose proof (pool_map_canonical g rnd false (with_expected None cfg) tasks obs Hobs)
      as Cobs.
    change (side (with_expected None cfg)) with (side cfg) in Cobs.
    pose proof (reduce_pass_has_shape _ _ _ _ Cobs Hloop) as Sloop.
    assert (Hdiv : forall base baseline ctrl cfg' nb,
              side cfg' = side cfg ->
              outcome (pool_map (fun t => pileups g rnd t ctrl cfg') tasks) = inr base ->
              reduce_pass nb base = inr baseline ->
              mdiv_into loop baseline = inr final ->
              has_shape baseline (Z.to_nat (side cfg)) (Z.to_nat (side cfg)) /\
              has_shape final (Z.to_nat (side cfg)) (Z.to_nat (side cfg)) /\
              forall i j, (i < Z.to_nat (side cfg))%nat -> (j < Z.to_nat (side cfg))%nat ->
                let x := entry fzero loop i j in
                let y := entry fzero baseline i j in
                entry fzero final i j = (x / y)%float /\
                (PrimFloat.is_zero x = true -> PrimFloat.is_zero y = true ->
                 is_nan (entry fzero final i j) = true) /\
                (PrimFloat.is_zero x = false -> is_nan x = false ->
                 PrimFloat.is_zero y = true ->
                 is_infinity (entry fzero final i j) = true)).
    { intros base baseline ctrl cfg' nb Hside Hb Hr Hd.
      pose proof (pool_map_canonical g rnd ctrl cfg' tasks base Hb) as Cb.
      rewrite Hside in Cb.
      pose proof (reduce_pass_has_shape _ _ _ _ Cb Hr) as Sb.
      unfold mdiv_into in Hd.
      rewrite (elementwise_same_shape _ loop baseline _ _ Sloop Sb) in Hd.
      injection Hd as <-.
      split; [exact Sb|]. split; [apply map2_has_shape; assumption|].
      intros i j Hi Hj. cbv zeta.
      rewrite (map2_entry _ loop baseline _ _ i j Sloop Sb Hi Hj).
      split; [reflexivity|]. split.
      - apply div_zero_by_zero.
      - intros Hx Hnx Hy. apply (div_nonzero_by_zero _ _ Hx Hnx Hy). }
    exists tasks, obs.
    destruct (0 <? nshifts cfg) eqn:En.
    + destruct Hrest as (base & baseline & Hb & Hr & Hd).
      exists base, loop, baseline. cbn [andb].
      split; [reflexivity|]. split; [exact Hobs|]. split; [exact Hb|].
      split; [exact Hloop|]. split; [exact Hr|]. split; [exact Sloop|].
      apply (Hdiv base baseline true (with_expected None cfg) (cov_norm cfg) eq_refl Hb Hr Hd).
    + destruct (expected cfg) as [rows|] eqn:Ee.
      * destruct Hrest as (base & baseline & Hb & Hr & Hd).
        exists base, loop, baseline. cbn [andb].
        split; [reflexivity|]. split; [exact Hobs|]. split; [exact Hb|].
        split; [exact Hloop|]. split; [exact Hr|]. split; [exact Sloop|].
        apply (Hdiv base baseline false cfg false eq_refl Hb Hr Hd).
      * exfalso. destruct Hbase as [H|H]; [|apply H; reflexivity].
        apply Z.ltb_ge in En. lia.
Qed.
End NormalizerRun.

(** ** Whole runs *)

Lemma map2_repeat {X Y Z : Type} (f : X -> Y -> Z) (a : X) (b : Y) (n : nat) :
  map2 f (repeat a n) (repeat b n) = repeat (f a b) n.
Proof. induction n as [|n IH]; [reflexivity|]. cbn. rewrite IH. reflexivity. Qed.

Lemma collect_map_inr {X Y : Type} (f : X -> Y) (l : list X) :
  collect (map (fun x => inr (f x)) l) = inr (map f l).
Proof.
  induction l as [|x l IH]; [reflexivity|]. cbn [map collect rbind]. rewrite IH.
  reflexivity.
Qed.

Lemma pool_map_const {X Y : Type} (f : X -> M Y) (y : Y) (tasks : list X) :
  Forall (fun t => f t = ([], inr y)) tasks ->
  pool_map f tasks = ([], inr (repeat y (length tasks))).
Proof.
  induction 1 as [|t tasks Ht _ IH]; [reflexivity|].
  cbn [pool_map length repeat]. rewrite Ht, IH. reflexivity.
Qed.

Lemma msum_from_zeros (s k : nat) :
  msum_from (zeros2 s s) (repeat (zeros2 s s) k) = inr (zeros2 s s).
Proof.
  induction k as [|k IH]; [reflexivity|]. cbn [repeat msum_from].
  unfold shape_eqb. rewrite !Nat.eqb_refl. cbn [andb].
  unfold zeros2 at 1 2, zeros. rewrite !map2_repeat.
  change (PrimFloat.add fzero fzero) with fzero. exact IH.
Qed.

Lemma fold_add_zeros (k : nat) : fold_left Z.add (repeat 0 k) 0 = 0.
Proof. induction k as [|k IH]; [reflexivity | exact IH]. Qed.

Section RunFacts.
Context {B : Backend}.
Variables (g : globals) (rnd : rng).

Lemma pileups_early_return (t : string * table) (ctrl : bool) (cfg : config) :
  (1 <? len (snd t))%nat = false ->
  0 <= side cfg ->
  pileups g rnd t ctrl cfg =
  ([], inr (zeros2 (Z.to_nat (side cfg)) (Z.to_nat (side cfg)), 0,
            zeros (Z.to_nat (side cfg)), zeros (Z.to_nat (side cfg)))).
Proof.
  intros Hlen Hside. destruct t as [chrom mids]. unfold pileups.
  rewrite (make_outmap_side cfg Hside). cbn [lift bind snd] in *.
  rewrite Hlen. cbn [negb bind ret app]. rewrite shape_zeros2. reflexivity.
Qed.

(** The averaged map of a pass in which no chromosome had a window: 0/0
    everywhere. *)
Lemma reduce_pass_no_windows (s k : nat) :
  reduce_pass false
    (repeat (zeros2 s s, 0, zeros s, zeros s) (S k)) = inr (repeat (repeat nan s) s).
Proof.
  unfold reduce_pass. cbv zeta. rewrite !map_repeat. cbn [fst snd].
  cbn [repeat msum]. rewrite msum_from_zeros. cbn [rbind].
  change (fold_left Z.add (0 :: repeat 0 k) 0) with (fold_left Z.add (repeat 0 k) 0).
  rewrite fold_add_zeros.
  unfold mdiv_scalar, zeros2, zeros. rewrite !map_repeat. reflexivity.
Qed.

Lemma mdiv_into_nan (s : nat) :
  mdiv_into (repeat (repeat nan s) s) (repeat (repeat nan s) s)
    = inr (repeat (repeat nan s) s).
Proof.
  assert (H : has_shape (repeat (repeat nan s) s) s s).
  { split; [apply repeat_length|]. apply Forall_forall. intros row Hrow.
    apply repeat_spec in Hrow. subst row. apply repeat_length. }
  unfold mdiv_into. rewrite (elementwise_same_shape _ _ _ s s H H).
  rewrite !map2_repeat. reflexivity.
Qed.

(** X18. With an empty list of chromosomes the run fails with [ValueError]
    (there is no per-chromosome result to unpack) before anything is read. *)
Theorem pileupsWithControl_no_chromosomes (mids : table) (cfg : config) :
  pileupsWithControl g rnd mids [] cfg = ([], inl ValueError).
Proof.
  unfold pileupsWithControl, chrom_mids, run_passes.
  cbn [map collect lift bind pool_map ret app]. reflexivity.
Qed.

(** X19. A run in which every requested chromosome has fewer than two loci
    raises nothing and reads nothing: without coverage normalisation it
    returns a map of the canonical shape whose entries are all NaN, whether
    it normalises by controls, by the expected curve or not at all. *)
Theorem pileupsWithControl_all_short (rows : list locus) (chroms : list string)
    (cfg : config) :
  g_combinations g = true ->
  chroms <> [] ->
  0 <= side cfg ->
  cov_norm cfg = false ->
  Forall (fun chrom =>
            (length (filter (fun r => String.eqb (chr r) chrom) rows) < 2)%nat) chroms ->
  pileupsWithControl g rnd (Loci rows) chroms cfg =
  ([], inr (repeat (repeat nan (Z.to_nat (side cfg))) (Z.to_nat (side cfg)))).
Proof.
  intros Hg Hne Hside Hcov Hshort.
  unfold pileupsWithControl, chrom_mids. rewrite Hg.
  rewrite (collect_map_inr
             (fun chrom => (chrom, Loci (filter (fun r => String.eqb (chr r) chrom) rows)))).
  rewrite bind_lift_inr.
  set (tasks := map _ chroms).
  assert (Htasks : forall ctrl cfg', side cfg' = side cfg ->
            pool_map (fun t => pileups g rnd t ctrl cfg') tasks =
            ([], inr (repeat (zeros2 (Z.to_nat (side cfg)) (Z.to_nat (side cfg)), 0,
                              zeros (Z.to_nat (side cfg)), zeros (Z.to_nat (side cfg)))
                             (length tasks)))).
  { intros ctrl cfg' Hs. apply pool_map_const. unfold tasks.
    apply Forall_forall. intros t Ht. apply in_map_iff in Ht.
    destruct Ht as (chrom & <- & Hc). rewrite Forall_forall in Hshort.
    rewrite <- Hs. apply pileups_early_return; [|rewrite Hs; exact Hside].
    cbn [snd len]. apply Nat.ltb_ge. specialize (Hshort chrom Hc). lia. }
  assert (Hk : exists k, length tasks = S k).
  { unfold tasks. rewrite length_map. destruct chroms; [contradiction | eexists; reflexivity]. }
  destruct Hk as [k Hk]. unfold run_passes.
  rewrite (Htasks false (with_expected None cfg) eq_refl).
  rewrite (Htasks true (with_expected None cfg) eq_refl).
  rewrite (Htasks false cfg eq_refl), Hk, Hcov. cbn [bind app].
  rewrite !reduce_pass_no_windows. rewrite bind_lift_inr.
  destruct (0 <? nshifts cfg).
  - cbn [bind app]. rewrite bind_lift_inr. unfold lift.
    rewrite mdiv_into_nan. reflexivity.
  - destruct (expected cfg); [|reflexivity].
    cbn [bind app]. rewrite bind_lift_inr. unfold lift.
    rewrite mdiv_into_nan. reflexivity.
Qed.
End RunFacts.

(** ** Configuration checks, continued *)

(** X20. Which mode flags the command line checks accept: by-window and
    rescaling never together; with rescaling, a [rescale_size] divisible
    by 3; with a two-sided loci file, neither an anchor nor local mode nor
    by-window; with by-window, neither local mode nor an anchor nor coverage
    normalisation.  Every other combination is refused. *)
Theorem check_modes_accepts (by_window rescale : bool) (rescale_size : Z)
    (anchor : option anchor_t) (local paired coverage_norm : bool) :
  check_modes by_window rescale rescale_size anchor local paired coverage_norm = inr tt
  <->
  (by_window && rescale = false /\
   (rescale = true -> rescale_size mod 3 = 0) /\
   (paired = true -> anchor = None /\ local = false /\ by_window = false) /\
   (by_window = true -> local = false /\ anchor = None /\ coverage_norm = false)).
Proof.
  unfold check_modes, check_rescale_size.
  destruct (Z.eqb_spec (rescale_size mod 3) 0) as [E|E];
    destruct by_window, rescale, paired, local, coverage_norm, anchor as [a|];
    cbn [andb negb rbind]; split;
    try (intros H; discriminate H);
    try (intros (H1 & H2 & H3 & H4); exfalso;
         first [ discriminate H1
               | apply E, H2; reflexivity
               | destruct (H3 eq_refl) as (? & ? & ?); discriminate
               | destruct (H4 eq_refl) as (? & ? & ?); discriminate ]);
    try (intros _; repeat split; intros; first [reflexivity | discriminate | assumption]).
Qed.

(** ** CoordinateConverter *)

Lemma in_insert_by {A : Type} (le : A -> A -> bool) (x y : A) (l : list A) :
  In y (insert_by le x l) <-> y = x \/ In y l.
Proof.
  induction l as [|z l IH]; cbn [insert_by].
  - cbn. intuition congruence.
  - destruct (le x z); cbn [In]; [intuition congruence|].
    rewrite IH. intuition congruence.
Qed.

Lemma in_sort_values {A : Type} (le : A -> A -> bool) (y : A) (l : list A) :
  In y (sort_values le l) <-> In y l.
Proof.
  induction l as [|x l IH]; cbn [sort_values]; [reflexivity|].
  rewrite in_insert_by, IH. cbn [In]. intuition congruence.
Qed.

Section DropDuplicates.
Context {A : Type}.
Variable eqb : A -> A -> bool.
Variable P : A -> Prop.
Hypothesis eqb_spec : forall x y, P x -> P y -> (eqb x y = true <-> x = y).

Lemma existsb_eqb_In (x : A) (seen : list A) :
  P x -> Forall P seen -> (existsb (eqb x) seen = true <-> In x seen).
Proof.
  intros Hx Hseen. rewrite existsb_exists. rewrite Forall_forall in Hseen. split.
  - intros (y & Hy & E). apply eqb_spec in E; [subst y; exact Hy | exact Hx | auto].
  - intros Hin. exists x. split; [exact Hin|]. apply eqb_spec; auto.
Qed.

Lemma drop_duplicates_from_spec (l seen : list A) :
  Forall P l -> Forall P seen ->
  (forall y, In y (drop_duplicates_from eqb seen l) <-> In y l /\ ~ In y seen) /\
  NoDup (drop_duplicates_from eqb seen l).
Proof.
  intros Hl. revert seen. induction Hl as [|x l Hx Hl IH]; intros seen Hseen;
    cbn [drop_duplicates_from].
  - split; [intros y; cbn; tauto | constructor].
  - pose proof (existsb_eqb_In x seen Hx Hseen) as Hex.
    destruct (existsb (eqb x) seen) eqn:E.
    + destruct (IH seen Hseen) as [IH1 IH2]. split; [|exact IH2].
      intros y. rewrite IH1. cbn [In]. split; [tauto|].
      intros [[<- | Hy] Hn]; [|tauto]. exfalso. apply Hn, Hex. reflexivity.
    + assert (Hnot : ~ In x seen) by (intros Hin; apply Hex in Hin; discriminate Hin).
      destruct (IH (x :: seen) (Forall_cons x Hx Hseen)) as [IH1 IH2]. split.
      * intros y. cbn [In]. rewrite IH1. cbn [In]. split.
        -- intros [<- | [Hy Hn]]; [tauto|]. split; [tauto|]. intros Hs. apply Hn. tauto.
        -- intros [[<- | Hy] Hn]; [tauto|].
           assert (Py : P y) by (rewrite Forall_forall in Hl; apply Hl, Hy).
           destruct (eqb y x) eqn:Eyx.
           ++ apply eqb_spec in Eyx; [left; symmetry; exact Eyx | exact Py | exact Hx].
           ++ right. split; [exact Hy|]. intros [E'|Hs]; [|tauto].
              subst y. rewrite (proj2 (eqb_spec x x Hx Hx) eq_refl) in Eyx.
              discriminate Eyx.
      * constructor; [|exact IH2]. intros Hin. apply IH1 in Hin. cbn [In] in Hin. tauto.
Qed.
End DropDuplicates.

Lemma locus_eqb_spec (a b : locus) :
  half_integer a -> half_integer b -> (locus_eqb a b = true <-> a = b).
Proof.
  unfold half_integer. destruct a as [ca ma [na da]], b as [cb mb [nb db]].
  cbn [Pad Qden]. intros -> ->. unfold locus_eqb. cbn [chr Mids Pad].
  rewrite !andb_true_iff, String.eqb_eq, Z.eqb_eq, Qeq_bool_iff.
  unfold Qeq. cbn [Qnum Qden]. split.
  - intros [[-> ->] H]. f_equal. f_equal. lia.
  - intros H. injection H as -> -> ->. repeat split.
Qed.

Lemma locus_of_half_integer (rows : list bed) :
  Forall half_integer (map locus_of rows).
Proof.
  apply Forall_forall. intros l Hl. apply in_map_iff in Hl.
  destruct Hl as (r & <- & _). reflexivity.
Qed.

Lemma get_mids_rows (rows : list bed) :
  exists out,
    get_mids (Bed3 rows) true = inr (Loci out) /\
    (forall l, In l out <-> exists r, In r rows /\ l = locus_of r) /\
    NoDup out.
Proof.
  eexists. split; [reflexivity|].
  destruct (drop_duplicates_from_spec locus_eqb half_integer locus_eqb_spec
              (map locus_of (sort_values bed_le rows)) [])
    as [Hin Hnd]; [apply locus_of_half_integer | constructor |].
  split; [|exact Hnd]. intros l. unfold drop_duplicates. rewrite Hin, in_map_iff.
  split.
  - intros [(r & <- & Hr) _]. exists r. split; [|reflexivity].
    apply in_sort_values in Hr. exact Hr.
  - intros (r & Hr & ->). split; [|intros []]. exists r. split; [reflexivity|].
    apply in_sort_values. exact Hr.
Qed.

Lemma int64_small (z : Z) : - 2 ^ 63 <= z < 2 ^ 63 -> int64 z = z.
Proof. intros H. unfold int64. rewrite Z.mod_small by lia. lia. Qed.

Lemma float64_of_int_exact (z : Z) : Z.abs z <= 2 ^ 53 -> float64_of_int z = z.
Proof.
  intros H. unfold float64_of_int. cbv zeta.
  destruct (Z.ltb_spec (Z.abs z) (2 ^ 53)) as [_|H']; [reflexivity|].
  assert (E : Z.abs z = 2 ^ 53) by lia. rewrite E.
  change (div_nearest_even (2 ^ 53) (2 ^ (Z.log2 (2 ^ 53) - 52)) * 2 ^ (Z.log2 (2 ^ 53) - 52))
    with (2 ^ 53).
  rewrite <- E. rewrite Z.mul_comm. apply Z.abs_sgn.
Qed.

(** Within [[0, 2^52]] the float64 arithmetic of [get_mids] is exact. *)
Lemma coordinates_exact (s e : Z) :
  0 <= s <= 2 ^ 52 -> 0 <= e <= 2 ^ 52 ->
  midpoint s e = round_half (e + s) /\ half_width s e = Qmake (e - s) 2.
Proof.
  intros Hs He. unfold midpoint, half_width.
  rewrite !int64_small by lia. rewrite !float64_of_int_exact by lia.
  split; reflexivity.
Qed.

(** Near the powers of two from [2^53] on, [float64_of_int] is the
    conversion of the machine: [float(z)] read back as an integer. *)
Lemma float64_of_int_agrees_with_float64 (z : Z) :
  In z (flat_map (fun b => map (fun k => b + Z.of_nat k - 12) (seq 0 48))
                 [12; 2 ^ 53; 2 ^ 54; 2 ^ 55; 2 ^ 60 + 2 ^ 9; 2 ^ 62; 2 ^ 63 - 40]) ->
  Z_of_float (float_of_Z z) = float64_of_int z /\
  Z_of_float (float_of_Z (- z)) = float64_of_int (- z).
Proof.
  set (ok := fun z => (Z_of_float (float_of_Z z) =? float64_of_int z)
                      && (Z_of_float (float_of_Z (- z)) =? float64_of_int (- z))).
  intros Hz.
  assert (H : forallb ok
                (flat_map (fun b => map (fun k => b + Z.of_nat k - 12) (seq 0 48))
                   [12; 2 ^ 53; 2 ^ 54; 2 ^ 55; 2 ^ 60 + 2 ^ 9; 2 ^ 62; 2 ^ 63 - 40])
              = true) by (vm_compute; reflexivity).
  rewrite forallb_forall in H. specialize (H z Hz). unfold ok in H.
  apply andb_true_iff in H. rewrite !Z.eqb_eq in H. exact H.
Qed.

(** X21. [get_mids] on a one-sided table returns exactly the loci of its
    intervals, each once: a locus is in the result if and only if it is the
    conversion (chromosome, midpoint, half width) of some interval of the
    input, and no locus occurs twice.  Midpoint and half width are computed
    in float64; for coordinates in [[0, 2^52]] they are the exact
    [round((end + start) / 2)], halves to even, and [(end - start) / 2]. *)
Theorem get_mids_converts_each_interval_once (rows : list bed) :
  exists out,
    get_mids (Bed3 rows) true = inr (Loci out) /\
    (forall l, In l out <->
       exists r, In r rows /\
         chr l = bed_chr r /\
         Mids l = midpoint (bed_start r) (bed_end r) /\
         Pad l = half_width (bed_start r) (bed_end r)) /\
    NoDup out /\
    (forall s e, 0 <= s <= 2 ^ 52 -> 0 <= e <= 2 ^ 52 ->
       midpoint s e = round_half (e + s) /\ half_width s e = Qmake (e - s) 2).
Proof.
  destruct (get_mids_rows rows) as (out & Hout & Hin & Hnd).
  exists out. split; [exact Hout|]. split; [|split; [exact Hnd | exact coordinates_exact]].
  intros l. rewrite Hin. split.
  - intros (r & Hr & ->). exists r. repeat split. exact Hr.
  - intros (r & Hr & H1 & H2 & H3). exists r. split; [exact Hr|].
    destruct l as [c m p]. cbn [chr Mids Pad] in *. subst. reflexivity.
Qed.

(** Beyond [2^53] the midpoint leaves its interval: the sum of the two
    coordinates of the point [2^53 + 1] is not a float64, and the nearest
    one is [2^54]. *)
Lemma get_mids_beyond_float64_integers :
  get_mids (Bed3 [mkBed "chr1"%string (2 ^ 53 + 1) (2 ^ 53 + 1)]) true
    = inr (Loci [mkLocus "chr1"%string (2 ^ 53) (Qmake 0 2)]) /\
  Z_of_float (float_of_Z ((2 ^ 53 + 1) + (2 ^ 53 + 1)) / 2) = 2 ^ 53.
Proof. split; vm_compute; reflexivity. Qed.

Lemma round_half_between (s e : Z) : s <= e -> s <= round_half (e + s) <= e.
Proof.
  intros H. unfold round_half.
  pose proof (Z.div_mod (e + s) 2 ltac:(lia)) as Hd.
  pose proof (Z.mod_pos_bound (e + s) 2 ltac:(lia)) as Hm.
  destruct (Z.even (e + s)) eqn:Ev.
  - lia.
  - assert (Hodd : (e + s) mod 2 = 1).
    { rewrite Zmod_even, Ev. reflexivity. }
    destruct (Z.even ((e + s) / 2)); lia.
Qed.

(** X22. When every interval of a one-sided table has
    [0 <= start <= end <= 2^52] (the entry point checks [start <= end] for
    such tables; no genome reaches [2^52] base pairs), every locus returned
    by [get_mids] has a non-negative pad and a midpoint inside an interval
    of the input on its chromosome. *)
Theorem get_mids_midpoint_and_pad (rows : list bed) (out : list locus) (l : locus) :
  Forall (fun r => 0 <= bed_start r <= bed_end r /\ bed_end r <= 2 ^ 52) rows ->
  get_mids (Bed3 rows) true = inr (Loci out) ->
  In l out ->
  (0 <= Pad l)%Q /\
  exists r, In r rows /\ chr l = bed_chr r /\ bed_start r <= Mids l <= bed_end r.
Proof.
  intros Hrows Hout Hl.
  destruct (get_mids_rows rows) as (out' & Hout' & Hin & _).
  rewrite Hout in Hout'. injection Hout' as <-.
  apply Hin in Hl. destruct Hl as (r & Hr & ->).
  rewrite Forall_forall in Hrows. specialize (Hrows r Hr).
  destruct (coordinates_exact (bed_start r) (bed_end r)) as [Em Ep]; [lia | lia |].
  unfold locus_of. cbn [Pad Mids chr]. rewrite Em, Ep. split.
  - unfold Qle. cbn [Qnum Qden]. lia.
  - exists r. split; [exact Hr|]. split; [reflexivity|].
    apply round_half_between. lia.
Qed.

Lemma floordiv_Q_half (w res : Z) :
  0 < res -> floordiv_Q (Qmake w 2) res = w / (2 * res).
Proof.
  intros H. destruct res as [|p|p]; try lia.
  unfold floordiv_Q, Qdiv, Qinv, inject_Z, Qmult, Qfloor. cbn [Qnum Qden].
  rewrite Z.mul_1_r. reflexivity.
Qed.

Lemma get_combinations_pads (mids : list locus) (res : Z) (local : bool) (w : window) :
  In w (fst (get_combinations mids res local None)) ->
  exists a b, In a mids /\ In b mids /\
    stPad w = floordiv_Q (Pad a) res /\ endPad w = floordiv_Q (Pad b) res.
Proof.
  unfold get_combinations. destruct local; cbn [fst].
  - rewrite combine_map_map, map_map, in_map_iff. intros (r & <- & Hr).
    exists r, r. repeat split; assumption.
  - rewrite combine_combinations2, map_map, in_map_iff. intros ([a b] & <- & Hab).
    apply in_combinations2 in Hab. destruct Hab as (l1 & l2 & l3 & ->).
    exists a, b. cbn [fst snd stPad endPad].
    split; [apply in_or_app; right; left; reflexivity|].
    split; [|split; reflexivity].
    apply in_or_app. right. right. apply in_or_app. right. left. reflexivity.
Qed.

(** X23. From intervals to windows: for a one-sided table whose intervals
    have [0 <= start <= end <= 2^52] and a positive bin size, the pad in
    bins of the locus of an interval is half the width of the interval in
    bins, rounded down, [(end - start) // (2 res)], and every window that
    [get_combinations] yields from the loci of [get_mids] (in local mode or
    not, without anchor) has non-negative pads. *)
Theorem windows_of_valid_intervals_have_pads (rows : list bed) (out : list locus)
    (res : Z) (local : bool) :
  Forall (fun r => 0 <= bed_start r <= bed_end r /\ bed_end r <= 2 ^ 52) rows ->
  0 < res ->
  get_mids (Bed3 rows) true = inr (Loci out) ->
  (forall r, In r rows ->
     floordiv_Q (Pad (locus_of r)) res = (bed_end r - bed_start r) / (2 * res)) /\
  Forall (fun w => 0 <= stPad w /\ 0 <= endPad w)
         (fst (get_combinations out res local None)).
Proof.
  intros Hrows Hres Hout. rewrite Forall_forall in Hrows.
  assert (Hpad : forall r, In r rows ->
            floordiv_Q (Pad (locus_of r)) res = (bed_end r - bed_start r) / (2 * res)).
  { intros r Hr. specialize (Hrows r Hr).
    destruct (coordinates_exact (bed_start r) (bed_end r)) as [_ Ep]; [lia | lia |].
    unfold locus_of. cbn [Pad]. rewrite Ep. apply floordiv_Q_half. exact Hres. }
  split; [exact Hpad|].
  destruct (get_mids_rows rows) as (out' & Hout' & Hin & _).
  rewrite Hout in Hout'. injection Hout' as <-.
  assert (Hnn : forall a, In a out -> 0 <= floordiv_Q (Pad a) res).
  { intros a Ha. apply Hin in Ha. destruct Ha as (r & Hr & ->).
    rewrite (Hpad r Hr). apply Z.div_pos; [|lia]. specialize (Hrows r Hr). lia. }
  apply Forall_forall. intros w Hw. apply get_combinations_pads in Hw.
  destruct Hw as (a & b & Ha & Hb & -> & ->). split; apply Hnn; assumption.
Qed.

(** ** Enrichment summary *)

Lemma in_py_slice {A : Type} (l : list A) (lo hi : Z) (x : A) :
  In x (py_slice l lo hi) -> In x l.
Proof.
  unfold py_slice. intros H.
  apply (in_firstn_or_skipn (clip_index (length l) lo)). right.
  apply (in_firstn_or_skipn (clip_index (length l) hi - clip_index (length l) lo)).
  left. exact H.
Qed.

(** X24. The block averaged by [get_enrichment(amap, n)] on a square map of
    side [s]: when [n // 2] does not exceed the centre index [c = s // 2] and
    [c + n // 2 < s], it is the square of side [2 (n // 2) + 1] centred on
    [(c, c)]; its entry [(i, j)] is the entry [(c - n//2 + i, c - n//2 + j)]
    of the map.  For [n = 1] it is the centre entry alone. *)
Theorem enrichment_block_centred (amap : mat) (s : nat) (n : Z) (i j : nat) :
  has_shape amap s s ->
  0 <= n / 2 <= Z.of_nat s / 2 ->
  Z.of_nat s / 2 + n / 2 < Z.of_nat s ->
  Z.of_nat i <= 2 * (n / 2) ->
  Z.of_nat j <= 2 * (n / 2) ->
  has_shape (enrichment_block amap n)
            (Z.to_nat (2 * (n / 2) + 1)) (Z.to_nat (2 * (n / 2) + 1)) /\
  entry fzero (enrichment_block amap n) i j =
  entry fzero amap (Z.to_nat (Z.of_nat s / 2 - n / 2) + i)
                   (Z.to_nat (Z.of_nat s / 2 - n / 2) + j).
Proof.
  intros [Hh Hw] Hk Hc Hi Hj. unfold enrichment_block. cbn [shape fst].
  rewrite Hh. set (c := Z.of_nat s / 2) in *. set (k := n / 2) in *.
  assert (Hrows : forall row, In row (py_slice amap (c - k) (c + k + 1)) ->
                              length row = s).
  { intros row Hrow. apply in_py_slice in Hrow.
    rewrite Forall_forall in Hw. apply Hw, Hrow. }
  assert (Hlen : length (py_slice amap (c - k) (c + k + 1)) = Z.to_nat (2 * k + 1)).
  { rewrite py_slice_length by lia. f_equal. lia. }
  split.
  - split; [rewrite length_map; exact Hlen|].
    apply Forall_forall. intros row Hrow. apply in_map_iff in Hrow.
    destruct Hrow as (row0 & <- & Hrow0).
    rewrite py_slice_length by (rewrite ?(Hrows row0 Hrow0); lia). f_equal. lia.
  - unfold entry.
    rewrite (nth_indep _ [] (py_slice [] (c - k) (c + k + 1)))
      by (rewrite length_map, Hlen; lia).
    rewrite (map_nth (fun row => py_slice row (c - k) (c + k + 1))).
    assert (Hin : In (nth i (py_slice amap (c - k) (c + k + 1)) [])
                     (py_slice amap (c - k) (c + k + 1)))
      by (apply nth_In; rewrite Hlen; lia).
    rewrite (py_slice_nth fzero) by (rewrite ?(Hrows _ Hin); lia).
    rewrite (py_slice_nth []) by lia. reflexivity.
Qed.

(** ** By-window aggregation *)

Lemma dict_get_set_same {V : Type} (k : Z) (v : V) (d : list (Z * V)) :
  dict_get k (dict_set k v d) = Some v.
Proof.
  induction d as [|[k' v'] d IH]; cbn [dict_set dict_get].
  - rewrite Z.eqb_refl. reflexivity.
  - destruct (Z.eqb_spec k' k) as [E|E]; cbn [dict_get].
    + rewrite Z.eqb_refl. reflexivity.
    + destruct (Z.eqb_spec k' k); [contradiction | exact IH].
Qed.

Lemma dict_get_set_other {V : Type} (k k0 : Z) (v : V) (d : list (Z * V)) :
  k0 <> k -> dict_get k0 (dict_set k v d) = dict_get k0 d.
Proof.
  intros Hne. induction d as [|[k' v'] d IH]; cbn [dict_set dict_get].
  - destruct (Z.eqb_spec k k0); [congruence | reflexivity].
  - destruct (Z.eqb_spec k' k) as [E|E]; cbn [dict_get].
    + subst k'. destruct (Z.eqb_spec k k0); [congruence|].
      reflexivity.
    + destruct (k' =? k0); [reflexivity | exact IH].
Qed.

Lemma dict_set_keeps_keys {V : Type} (k k0 : Z) (v v0 : V) (d : list (Z * V)) :
  dict_get k0 d = Some v0 -> exists v', dict_get k0 (dict_set k v d) = Some v'.
Proof.
  intros H. destruct (Z.eq_dec k0 k) as [->|Hne].
  - exists v. apply dict_get_set_same.
  - exists v0. rewrite dict_get_set_other by exact Hne. exact H.
Qed.

Section ByWindowFacts.
Context {B : Backend}.
Variables (g : globals) (rnd : rng).

(** X25. By-window aggregation reads the contact matrix of its chromosome
    before it looks at the loci: with observed data and fewer than two loci
    on the chromosome, [pileupsByWindow] has read the matrix once when it
    returns its empty dictionary. *)
Theorem pileupsByWindow_reads_first (chrom : string) (rows : list locus)
    (ctrl : bool) (cfg : config) (d : sparse) :
  expected cfg = None ->
  fetch chrom (negb (unbalanced cfg)) = inr d ->
  (length (filter (fun r => String.eqb (chr r) chrom) rows) < 2)%nat ->
  pileupsByWindow g rnd (chrom, Loci rows) ctrl cfg =
  ([LoadData chrom (negb (unbalanced cfg))], inr []).
Proof.
  intros Hexp Hfetch Hlen. unfold pileupsByWindow, get_data.
  rewrite Hexp, Hfetch. cbn [emit lift ret bind app].
  destruct (Nat.ltb_spec 1 (length (filter (fun r => String.eqb (chr r) chrom) rows)))
    as [H|_]; [lia|]. reflexivity.
Qed.

Lemma counted_window_exists (mids : gen window) (data : option sparse) (pad : Z)
    (expected : option vec) (local unbalanced cov_norm rescale : bool)
    (rescale_pad : float) (rescale_size : Z) (coverage : option vec)
    (m : mat) (n : Z) (cs ce : vec) :
  _do_pileups g mids data pad expected local unbalanced cov_norm rescale
              rescale_pad rescale_size coverage = inr (m, n, cs, ce) ->
  0 < n ->
  exists w, In w (fst mids) /\ passes_filter g local w = true.
Proof.
  intros H Hn. apply _do_pileups_keeps in H. cbv zeta in H.
  destruct H as (_ & _ & _ & Hb & _).
  destruct (filter (passes_filter g local) (fst mids)) as [|w ws] eqn:Ef;
    [cbn in Hb; lia|].
  assert (Hw : In w (filter (passes_filter g local) (fst mids)))
    by (rewrite Ef; left; reflexivity).
  apply filter_In in Hw. exists w. exact Hw.
Qed.

Lemma by_window_loop_entries (chrom : string) (curmids : list locus)
    (data : option sparse) (exp coverage : option vec) (cfg : config)
    (todo : list Z) (used : nat) (d0 d : list (Z * mat)) :
  by_window_loop g rnd chrom curmids data exp coverage false cfg todo used d0 = inr d ->
  (forall k v, dict_get k d0 = Some v -> exists v', dict_get k d = Some v') /\
  forall m, In m todo ->
    (exists v, dict_get m d = Some v) /\
    exists w,
      In w (fst (get_combinations curmids binsize false (Some (chrom, m, m)))) /\
      passes_filter g false w = true.
Proof.
  revert used d0. induction todo as [|m0 todo IH]; intros used d0; cbn [by_window_loop].
  - intros H. injection H as <-. split; [eauto | intros m []].
  - unfold by_window_current.
    destruct (_do_pileups _ _ _ _ _ _ _ _ _ _ _ _) as [e|[[[mymap n] cs] ce]] eqn:Ed;
      cbn [rbind]; [discriminate|].
    destruct (Z.ltb_spec 0 n) as [Hn|Hn]; cbn [rbind]; [|discriminate].
    intros H. apply IH in H. destruct H as [Hkeep Htodo]. split.
    + intros k v Hk.
      destruct (dict_set_keeps_keys m0 k (mdiv_scalar mymap (float_of_Z n)) v d0 Hk)
        as [v' Hv']. eapply Hkeep. exact Hv'.
    + intros m [<- | Hm]; [|apply Htodo, Hm]. split.
      * eapply Hkeep. apply dict_get_set_same.
      * eapply counted_window_exists; eassumption.
Qed.

Lemma anchored_windows (curmids : list locus) (res : Z) (a : anchor_t) (w : window) :
  In w (fst (get_combinations curmids res false (Some a))) ->
  exists r, In r curmids /\
    w = mkWindow ((snd (fst a) + snd a) / (2 * res)) (Mids r / res)
                 (round_half (snd a - snd (fst a))) (floordiv_Q (Pad r) res).
Proof.
  destruct a as [[ac a1] a2]. unfold get_combinations. cbn [fst snd].
  rewrite combine_map_map, map_map, in_map_iff. intros (r & <- & Hr).
  exists r. split; [exact Hr | reflexivity].
Qed.

(** X26. What a successful observed by-window task implies: when
    [pileupsByWindow] returns a dictionary for a chromosome with at least two
    loci, the dictionary has a map under the midpoint of every locus of the
    chromosome, and every such locus has a partner among them at a distance
    that passes the filter, [mindist <= |bin - bin'| * binsize < maxdist]. *)
Theorem pileupsByWindow_every_locus_counted (chrom : string) (rows : list locus)
    (cfg : config) (t : list event) (d : list (Z * mat)) (r : locus) :
  pileupsByWindow g rnd (chrom, Loci rows) false cfg = (t, inr d) ->
  (2 <= length (filter (fun x => String.eqb (chr x) chrom) rows))%nat ->
  In r (filter (fun x => String.eqb (chr x) chrom) rows) ->
  (exists v, dict_get (Mids r) d = Some v) /\
  exists r',
    In r' (filter (fun x => String.eqb (chr x) chrom) rows) /\
    in_range g (mkWindow ((Mids r + Mids r) / (2 * binsize)) (Mids r' / binsize)
                         (round_half (Mids r - Mids r))
                         (floordiv_Q (Pad r') binsize)).
Proof.
  intros H0 Hlen Hr.
  assert (H : outcome (pileupsByWindow g rnd (chrom, Loci rows) false cfg) = inr d)
    by (rewrite H0; reflexivity).
  clear H0. unfold pileupsByWindow in H. rewrite outcome_bind in H.
  destruct (outcome _) as [e|[data exp]] in H; [discriminate H|].
  rewrite outcome_bind, outcome_lift in H.
  destruct (Nat.ltb_spec 1 (length (filter (fun x => String.eqb (chr x) chrom) rows)))
    as [_|Hc]; [|lia].
  cbn [negb] in H. rewrite outcome_lift in H.
  apply by_window_loop_entries in H. destruct H as [_ H].
  destruct (H (Mids r) (in_map Mids _ r Hr)) as [Hentry (w & Hw & Hp)].
  split; [exact Hentry|].
  apply anchored_windows in Hw. destruct Hw as (r' & Hr' & ->). cbn [fst snd] in Hp.
  exists r'. split; [exact Hr'|].
  apply passes_filter_spec in Hp. destruct Hp as [Hp|Hp]; [discriminate Hp | exact Hp].
Qed.

Lemma loop_windows_all_skipped (data : option sparse) (pad : Z) (expected : option vec)
    (local unbalanced cov_norm rescale : bool) (rescale_pad : float)
    (rescale_size : Z) (coverage : option vec) (st : pile) (ws : list window) :
  Forall (fun w => passes_filter g local w = false) ws ->
  loop_windows (do_window g data pad expected local unbalanced cov_norm rescale
                          rescale_pad rescale_size coverage) st ws = inr st.
Proof.
  induction 1 as [|w ws Hw _ IH]; cbn [loop_windows]; [reflexivity|].
  rewrite do_window_skipped by exact Hw. cbn [rbind]. exact IH.
Qed.

(** X27. A locus without a counted window ends an observed by-window task:
    if none of the loci of the chromosome is at a filtered distance from the
    first one, [pileupsByWindow] reads the matrix and then fails with the
    [TypeError] of [make_outmap(make_outmap(...))] instead of storing an
    empty map for that locus. *)
Theorem pileupsByWindow_uncounted_locus_fails (chrom : string) (rows : list locus)
    (cfg : config) (d : sparse) (r0 : locus) (others : list locus) :
  expected cfg = None ->
  fetch chrom (negb (unbalanced cfg)) = inr d ->
  0 <= side cfg ->
  filter (fun x => String.eqb (chr x) chrom) rows = r0 :: others ->
  others <> [] ->
  Forall (fun r' =>
            ~ in_range g (mkWindow ((Mids r0 + Mids r0) / (2 * binsize))
                                   (Mids r' / binsize)
                                   (round_half (Mids r0 - Mids r0))
                                   (floordiv_Q (Pad r') binsize)))
         (r0 :: others) ->
  pileupsByWindow g rnd (chrom, Loci rows) false cfg =
  ([LoadData chrom (negb (unbalanced cfg))], inl TypeError).
Proof.
  intros Hexp Hfetch Hside Hcur Hne Hfar.
  unfold pileupsByWindow, get_data. rewrite Hexp, Hfetch, Hcur.
  cbn [emit lift ret bind app length map].
  destruct others as [|r1 others]; [contradiction|].
  cbn [length Nat.ltb Nat.leb negb by_window_loop by_window_current].
  unfold _do_pileups. rewrite (make_outmap_side cfg Hside). cbn [rbind].
  rewrite loop_windows_all_skipped.
  - unfold get_combinations. cbn [snd rbind]. rewrite Z.ltb_irrefl. reflexivity.
  - apply Forall_forall. intros w Hw. apply anchored_windows in Hw.
    destruct Hw as (r' & Hr' & ->). cbn [fst snd].
    rewrite Forall_forall in Hfar. specialize (Hfar r' Hr').
    destruct (passes_filter g false _) eqn:Ep; [|reflexivity].
    apply passes_filter_spec in Ep. destruct Ep as [Ep|Ep];
      [discriminate Ep | contradiction].
Qed.
End ByWindowFacts.

(** ** Further runs on the example data *)

Lemma normalizer_divisions_witness :
  (exists normed,
      @norm_coverage (ex_backend 0) ex_summed ex_cov ex_cov = inr normed /\
      has_shape normed 2 2 /\ no_nan normed /\
      forall i j, (i < 2)%nat -> (j < 2)%nat ->
        let x := entry fzero ex_summed i j in
        let c := (nth i ex_cov fzero * nth j ex_cov fzero
                  / @nanmean (ex_backend 0) (outer ex_cov ex_cov))%float in
        entry fzero normed i j = (if is_nan (x / c) then fzero else (x / c)%float) /\
        (PrimFloat.is_zero x = true -> PrimFloat.is_zero c = true ->
         entry fzero normed i j = fzero) /\
        (PrimFloat.is_zero x = false -> is_nan x = false -> PrimFloat.is_zero c = true ->
         is_infinity (entry fzero normed i j) = true)) /\
  (exists tasks obs base loop baseline,
      @chrom_mids ex_globals ["chr1"%string] (Loci ex_rows) = inr tasks /\
      outcome (pool_map (fun t => @pileups (ex_backend 0) ex_globals ex_rnd t false
                                    (with_expected None ex_cfg)) tasks)
        = inr obs /\
      outcome (pool_map (fun t => if 0 <? nshifts ex_cfg
                                  then @pileups (ex_backend 0) ex_globals ex_rnd t true
                                         (with_expected None ex_cfg)
                                  else @pileups (ex_backend 0) ex_globals ex_rnd t false
                                         ex_cfg) tasks)
        = inr base /\
      @reduce_pass (ex_backend 0) (cov_norm ex_cfg) obs = inr loop /\
      @reduce_pass (ex_backend 0) ((0 <? nshifts ex_cfg) && cov_norm ex_cfg) base
        = inr baseline /\
      has_shape loop 5 5 /\ has_shape baseline 5 5 /\
      has_shape (repeat (repeat nan 5) 5) 5 5 /\
      forall i j, (i < 5)%nat -> (j < 5)%nat ->
        let x := entry fzero loop i j in
        let y := entry fzero baseline i j in
        entry fzero (repeat (repeat nan 5) 5) i j = (x / y)%float /\
        (PrimFloat.is_zero x = true -> PrimFloat.is_zero y = true ->
         is_nan (entry fzero (repeat (repeat nan 5) 5) i j) = true) /\
        (PrimFloat.is_zero x = false -> is_nan x = false -> PrimFloat.is_zero y = true ->
         is_infinity (entry fzero (repeat (repeat nan 5) 5) i j) = true)).
Proof.
  apply (@normalizer_divisions (ex_backend 0) ex_globals ex_rnd ex_summed ex_cov ex_cov
           2 2 (Loci ex_rows) ["chr1"%string] ex_cfg (repeat (repeat nan 5) 5)).
  - split; [reflexivity | repeat constructor].
  - reflexivity.
  - reflexivity.
  - left. reflexivity.
  - vm_compute. reflexivity.
Defined.

Lemma get_expected_matrix_shape_witness :
  exists m,
    get_expected_matrix (0, 1) (2, 5) ex_curve false = inr m /\
    let wl := Z.to_nat (1 - 0) in
    let wr := Z.to_nat (5 - 2) in
    shape m = ((wl + wr - 1) / 2 + 1, wl + wr - 1 - (wl + wr - 1) / 2)%nat /\
    (shape m = (wl, wr) <-> (wr = wl \/ wr + 1 = wl)%nat).
Proof.
  apply (get_expected_matrix_shape 0 1 2 5 ex_curve); cbn; lia.
Defined.

Lemma get_expected_matrix_local_symmetric_witness :
  exists m,
    get_expected_matrix (0, 3) (0, 3) ex_curve true = inr m /\
    shape m = (Z.to_nat (3 - 0), Z.to_nat (3 - 0)) /\
    entry fzero m 0 2 = expected_at ex_curve (Z.of_nat 2 - Z.of_nat 0) /\
    entry fzero m 0 2 = entry fzero m 2 0 /\
    entry fzero m 0 0 = nth 0 ex_curve fzero.
Proof.
  apply (get_expected_matrix_local_symmetric 0 3 ex_curve 0 2); cbn; lia.
Defined.

Lemma get_expected_matrix_toeplitz_witness :
  entry fzero [[2; 3; 4]; [1; 2; 3]; [0; 1; 2]]%float 1 1
  = entry fzero [[2; 3; 4]; [1; 2; 3]; [0; 1; 2]]%float 0 0.
Proof.
  apply (get_expected_matrix_toeplitz (0, 3) (1, 4) ex_curve false
           [[2; 3; 4]; [1; 2; 3]; [0; 1; 2]]%float 0 0);
    [vm_compute; reflexivity | cbn; lia | cbn; lia].
Defined.

Lemma controlRegions_groups_witness :
  exists groups,
    controlRegions ex_rnd (ex_windows, None) 10000 100000 1000000 2
      = (concat groups, None) /\
    Forall2 (fun w grp =>
               Z.of_nat (length grp) = 2 /\
               Forall (control_of (100000 / 10000) (1000000 / 10000) w) grp)
            ex_windows groups.
Proof.
  apply (controlRegions_groups ex_rnd ex_windows None 10000 100000 1000000 2);
    [vm_compute; reflexivity | lia].
Defined.

Lemma pileups_control_empty_range_witness :
  @pileups ex_backend_coarse ex_globals ex_rnd ("chr1"%string, Loci ex_rows) true ex_cfg
  = ([LoadData "chr1" true], inl ValueError).
Proof.
  apply (@pileups_control_empty_range ex_backend_coarse ex_globals ex_rnd
           "chr1"%string ex_rows ex_cfg (ex_ones 40));
    try reflexivity; try (cbn; lia); repeat constructor.
Defined.

Lemma _do_pileups_shape_witness :
  exists m n cs ce,
    @_do_pileups (ex_backend 1) ex_globals (ex_windows, None) (Some (ex_ones 40)) 2
       None false false false false 1%float 41 None = inr (m, n, cs, ce) /\
    has_shape m 5 5 /\ length cs = 5%nat /\ length ce = 5%nat.
Proof.
  do 4 eexists. split; [vm_compute; reflexivity|].
  eapply (@_do_pileups_shape (ex_backend 1) ex_globals (Some (ex_ones 40)) 2 None
           false false false false 1%float 41 None (ex_windows, None)).
  vm_compute. reflexivity.
Defined.

Lemma _do_pileups_count_bound_witness :
  exists m n cs ce,
    @_do_pileups (ex_backend 1) ex_globals_mindist
       (mkWindow 10 12 0 0 :: ex_windows, None) (Some (ex_ones 40)) 2
       None false false false false 1%float 41 None = inr (m, n, cs, ce) /\
    (0 <= n <= 2) /\ n <= 3.
Proof.
  do 4 eexists. split; [vm_compute; reflexivity|].
  eapply (@_do_pileups_count_bound (ex_backend 1) ex_globals_mindist
           (Some (ex_ones 40)) 2 None false false false false 1%float 41 None
           (mkWindow 10 12 0 0 :: ex_windows, None)).
  vm_compute. reflexivity.
Defined.

Lemma _do_pileups_marginals_untouched_witness :
  exists m n cs ce,
    @_do_pileups (ex_backend 1) ex_globals (ex_windows, None) (Some (ex_ones 40)) 2
       None false true false false 1%float 41 None = inr (m, n, cs, ce) /\
    cs = zeros 5 /\ ce = zeros 5.
Proof.
  do 4 eexists. split; [vm_compute; reflexivity|].
  eapply (@_do_pileups_marginals_untouched (ex_backend 1) ex_globals
           (Some (ex_ones 40)) 2 None false true false false 1%float 41 None
           (ex_windows, None)); [reflexivity|].
  vm_compute. reflexivity.
Defined.



Lemma chrom_mids_tasks_witness :
  map fst [("chr1"%string, Loci ex_rows)] = ["chr1"%string] /\
  Forall (fun t => check_chrom (g_combinations ex_globals) (snd t) (fst t) = inr tt)
         [("chr1"%string, Loci ex_rows)].
Proof.
  apply (chrom_mids_tasks ex_globals ["chr1"%string] (Loci ex_rows)).
  vm_compute. reflexivity.
Defined.

Lemma pileups_shape_witness :
  exists t m n cs ce,
    @pileups (ex_backend 1) ex_globals ex_rnd ("chr1"%string, Loci ex_rows) false ex_cfg
      = (t, inr (m, n, cs, ce)) /\
    has_shape m 5 5 /\ length cs = 5%nat /\ length ce = 5%nat /\ 0 <= n.
Proof.
  do 5 eexists. split; [vm_compute; reflexivity|].
  eapply (@pileups_shape (ex_backend 1) ex_globals ex_rnd "chr1"%string (Loci ex_rows)
           false ex_cfg).
  vm_compute. reflexivity.
Defined.

Lemma pileupsWithControl_all_short_witness :
  @pileupsWithControl (ex_backend 1) ex_globals ex_rnd (Loci ex_rows)
     ["chr2"%string; "chr3"%string] ex_cfg
  = ([], inr (repeat (repeat nan 5) 5)).
Proof.
  apply (@pileupsWithControl_all_short (ex_backend 1) ex_globals ex_rnd ex_rows
           ["chr2"%string; "chr3"%string] ex_cfg);
    try reflexivity; try discriminate; try (cbn; lia).
  repeat constructor.
Defined.

Lemma get_mids_midpoint_and_pad_witness :
  (0 <= Pad (mkLocus "chr1"%string 350 (Qmake 101 2)))%Q /\
  exists r, In r ex_beds /\
    chr (mkLocus "chr1"%string 350 (Qmake 101 2)) = bed_chr r /\
    bed_start r <= Mids (mkLocus "chr1"%string 350 (Qmake 101 2)) <= bed_end r.
Proof.
  apply (get_mids_midpoint_and_pad ex_beds ex_loci_of_beds
           (mkLocus "chr1"%string 350 (Qmake 101 2))).
  - repeat constructor; cbn; lia.
  - vm_compute. reflexivity.
  - right. left. reflexivity.
Defined.

Lemma windows_of_valid_intervals_have_pads_witness :
  (forall r, In r ex_beds ->
     floordiv_Q (Pad (locus_of r)) 10000 = (bed_end r - bed_start r) / (2 * 10000)) /\
  Forall (fun w => 0 <= stPad w /\ 0 <= endPad w)
         (fst (get_combinations ex_loci_of_beds 10000 false None)).
Proof.
  apply (windows_of_valid_intervals_have_pads ex_beds ex_loci_of_beds 10000 false).
  - repeat constructor; cbn; lia.
  - lia.
  - vm_compute. reflexivity.
Defined.

Lemma has_shape_ex_map5 : has_shape ex_map5 5 5.
Proof. split; [reflexivity | repeat constructor]. Qed.

Lemma enrichment_block_centred_witness :
  has_shape (enrichment_block ex_map5 3) (Z.to_nat (2 * (3 / 2) + 1))
            (Z.to_nat (2 * (3 / 2) + 1)) /\
  entry fzero (enrichment_block ex_map5 3) 0 2 =
  entry fzero ex_map5 (Z.to_nat (Z.of_nat 5 / 2 - 3 / 2) + 0)
                      (Z.to_nat (Z.of_nat 5 / 2 - 3 / 2) + 2).
Proof.
  apply (enrichment_block_centred ex_map5 5 3 0 2);
    [apply has_shape_ex_map5 | | | | ]; vm_compute; intuition discriminate.
Defined.

Lemma pileupsByWindow_reads_first_witness :
  @pileupsByWindow (ex_backend 1) ex_globals ex_rnd
     ("chr1"%string, Loci [mkLocus "chr1"%string 100000 0]) false ex_cfg
  = ([LoadData "chr1" true], inr []).
Proof.
  apply (@pileupsByWindow_reads_first (ex_backend 1) ex_globals ex_rnd "chr1"%string
           [mkLocus "chr1"%string 100000 0] false ex_cfg (ex_ones 40));
    [reflexivity | reflexivity | cbn; lia].
Defined.

Lemma pileupsByWindow_every_locus_counted_witness :
  exists t d,
    @pileupsByWindow (ex_backend 1) ex_globals ex_rnd ("chr1"%string, Loci ex_rows)
       false ex_cfg = (t, inr d) /\
    (exists v, dict_get 100000 d = Some v) /\
    exists r',
      In r' ex_rows /\
      @in_range (ex_backend 1) ex_globals
        (mkWindow ((100000 + 100000) / (2 * 10000)) (Mids r' / 10000)
                  (round_half (100000 - 100000)) (floordiv_Q (Pad r') 10000)).
Proof.
  do 2 eexists. split; [vm_compute; reflexivity|].
  eapply (@pileupsByWindow_every_locus_counted (ex_backend 1) ex_globals ex_rnd
            "chr1"%string ex_rows ex_cfg _ _ (mkLocus "chr1"%string 100000 0)).
  - vm_compute. reflexivity.
  - cbn. lia.
  - left. reflexivity.
Defined.

Lemma pileupsByWindow_uncounted_locus_fails_witness :
  @pileupsByWindow (ex_backend 1) ex_globals_mindist ex_rnd
     ("chr1"%string, Loci ex_close_rows) false ex_cfg
  = ([LoadData "chr1" true], inl TypeError).
Proof.
  apply (@pileupsByWindow_uncounted_locus_fails (ex_backend 1) ex_globals_mindist
           ex_rnd "chr1"%string ex_close_rows ex_cfg (ex_ones 40)
           (mkLocus "chr1"%string 100000 0) [mkLocus "chr1"%string 105000 0]);
    try reflexivity; try discriminate; try (cbn; lia).
  repeat constructor; intros [H _]; vm_compute in H; apply H; reflexivity.
Defined.
